(** * NeuroCred_ML: the CIBIL score calculator of [credit_scorer.py]

    A shallow embedding of [CIBILScoreCalculator] and the properties of its
    scoring model.

    Numbers.  Python's [float] is IEEE 754 binary64: it is modelled by Rocq's
    primitive [float], the same format with the same round-to-nearest-even
    operations, specified by [SpecFloat] through [FloatAxioms].  The
    arguments annotated [float] are floats; an [int] passed there, as in the
    example call, behaves like its float as long as it is exactly
    representable.  Python's [int] is unbounded: the arguments annotated
    [int] are in [Z], and meet a float through [Py.float_of_int].

    Dictionaries keep their insertion order, which fixes the order of the
    floating-point summation in [calculate_final_score]: they are association
    lists.  Exceptions are values of the [result] type.

    The file first embeds the source, then develops what is needed of
    binary64 arithmetic (the order of floats, and bounds that rounding
    keeps), and last states the properties of the calculator: those of its
    specification, then further ones that the code shows. *)

From Stdlib Require Import ZArith Lia Bool List String Floats.
Import ListNotations.

Set Warnings "-inexact-float".

Local Open Scope string_scope.
Local Open Scope list_scope.
Local Open Scope Z_scope.

(** ** Exceptions *)

Inductive exn : Type :=
| KeyError (key : string)
| ValueError
| OverflowError.

Inductive result (A : Type) : Type :=
| Ok (a : A)
| Raise (e : exn).

Arguments Ok {A} a.
Arguments Raise {A} e.

Definition bind {A B : Type} (r : result A) (k : A -> result B) : result B :=
  match r with
  | Ok a => k a
  | Raise e => Raise e
  end.

Notation "x <- r ;; k" := (bind r (fun x => k))
  (at level 61, r at next level, right associativity).

(** ** Python numbers *)

Module Py.

(** [float(n)] for an [int]: the nearest binary64 value, ties to even;
    [OverflowError] when it is out of the range of the format.  This is the
    conversion Python applies to the [int] operand of [int * float]. *)
Definition float_of_int (n : Z) : result float :=
  match binary_normalize prec emax n 0 false with
  | S754_infinity _ => Raise OverflowError
  | f => Ok (SF2Prim f)
  end.

(** The nearest integer of [m * 2^e], ties to even. *)
Definition round_half_even (m e : Z) : Z :=
  if 0 <=? e then m * 2 ^ e
  else
    let d := 2 ^ (- e) in
    let q := m / d in
    match 2 * (m mod d) ?= d with
    | Lt => q
    | Gt => q + 1
    | Eq => if Z.even q then q else q + 1
    end.

(** [round(x)] with one argument: an [int], ties to even; [ValueError] on a
    NaN and [OverflowError] on an infinity. *)
Definition round (x : float) : result Z :=
  match Prim2SF x with
  | S754_nan => Raise ValueError
  | S754_infinity _ => Raise OverflowError
  | S754_zero _ => Ok 0
  | S754_finite s m e => Ok (cond_Zopp s (round_half_even (Zpos m) e))
  end.

(** [min(a, b)] and [max(a, b)] keep the first argument unless the second is
    strictly smaller (resp. larger); on [int] they are [Z.min] and [Z.max]. *)
Definition min (a b : float) : float := if (b <? a)%float then b else a.
Definition max (a b : float) : float := if (a <? b)%float then b else a.

(** ** Dictionaries with string keys, in insertion order *)

Definition dict : Type := list (string * float).

Fixpoint get (d : dict) (k : string) : option float :=
  match d with
  | [] => None
  | (k', v) :: d' => if String.eqb k' k then Some v else get d' k
  end.

(** [d[k] = v]: an existing key keeps its place. *)
Fixpoint set (d : dict) (k : string) (v : float) : dict :=
  match d with
  | [] => [(k, v)]
  | (k', v') :: d' =>
      if String.eqb k' k then (k', v) :: d' else (k', v') :: set d' k v
  end.

Definition keys (d : dict) : list string := map fst d.
Definition values (d : dict) : list float := map snd d.

(** [sum(xs)] as a chain of [+] from the [int] 0, left to right. *)
Definition sum (xs : list float) : float := fold_left PrimFloat.add xs 0%float.

End Py.

(** ** The calculator *)

(** [__init__]: the configuration. *)
Definition weights : Py.dict :=
  [ ("payment_history", 0.35%float);
    ("credit_utilization", 0.30%float);
    ("credit_age", 0.15%float);
    ("credit_mix", 0.10%float);
    ("new_credit", 0.10%float) ].

Definition MIN_SCORE : Z := 300.
Definition MAX_SCORE : Z := 900.
Definition SCORE_RANGE : Z := MAX_SCORE - MIN_SCORE.

(** The two [int] constants as they enter float arithmetic. *)
Definition MIN_SCORE_f : float := 300%float.
Definition SCORE_RANGE_f : float := 600%float.

Definition calculate_payment_history_score
    (on_time_payments_percent days_late_avg : float) : float :=
  let base_score := (on_time_payments_percent / 100)%float in
  if (0 <? days_late_avg)%float then
    let late_penalty := Py.min (days_late_avg / 90)%float 1%float in
    (base_score * (1 - late_penalty * 0.5))%float
  else base_score.

Definition calculate_credit_utilization_score (utilization_percent : float) : float :=
  if (utilization_percent <=? 10)%float then 0.95%float
  else if (utilization_percent <=? 30)%float then 1.0%float
  else if (utilization_percent <=? 50)%float then 0.85%float
  else if (utilization_percent <=? 75)%float then 0.60%float
  else 0.30%float.

Definition calculate_credit_age_score (years : float) : float :=
  if (5 <=? years)%float then 1.0%float
  else if (3 <=? years)%float then 0.85%float
  else if (1 <=? years)%float then 0.70%float
  else 0.40%float.

Definition calculate_credit_mix_score
    (num_secured_loans num_unsecured_loans : Z) (has_credit_card : bool)
    : result float :=
  let total_products :=
    num_secured_loans + num_unsecured_loans + Z.b2z has_credit_card in
  if total_products =? 0 then Ok 0.30%float
  else
    s <- Py.float_of_int (Z.min num_secured_loans 2) ;;
    u <- Py.float_of_int (Z.min num_unsecured_loans 2) ;;
    c <- Py.float_of_int (Z.b2z has_credit_card) ;;
    let diversity_score := (s * 0.3 + u * 0.2 + c * 0.2)%float in
    Ok (Py.min diversity_score 1.0%float).

Definition calculate_new_credit_score
    (num_inquiries_6months num_new_accounts_6months : Z) : result float :=
  i <- Py.float_of_int num_inquiries_6months ;;
  let inquiry_penalty := Py.min (i * 0.15)%float 0.60%float in
  a <- Py.float_of_int num_new_accounts_6months ;;
  let new_account_penalty := Py.min (a * 0.20)%float 0.60%float in
  Ok (1.0 - Py.max inquiry_penalty new_account_penalty)%float.

(** The loop of [calculate_final_score] over [components.items()], with the
    dictionary of weighted scores and the running total as its state. *)
Fixpoint weigh (items : Py.dict) (weighted_scores : Py.dict) (total_score : float)
    : result (Py.dict * float) :=
  match items with
  | [] => Ok (weighted_scores, total_score)
  | (component, score) :: items' =>
      match Py.get weights component with
      | None => Raise (KeyError component)
      | Some w =>
          let weighted_score := (score * w * SCORE_RANGE_f)%float in
          weigh items' (Py.set weighted_scores component weighted_score)
                (total_score + weighted_score)%float
      end
  end.

Definition clamp (final_score : Z) : Z :=
  Z.max (Z.min final_score MAX_SCORE) MIN_SCORE.

Definition calculate_final_score (components : Py.dict) : result (Z * Py.dict) :=
  st <- weigh components [] 0%float ;;
  let '(weighted_scores, total_score) := st in
  final_score <- Py.round (total_score + MIN_SCORE_f)%float ;;
  Ok (clamp final_score, weighted_scores).

Definition calculate_score
    (on_time_payments_percent days_late_avg utilization_percent
     credit_age_years : float)
    (num_secured_loans num_unsecured_loans : Z) (has_credit_card : bool)
    (num_inquiries_6months num_new_accounts_6months : Z)
    : result (Z * Py.dict) :=
  let payment_history :=
    calculate_payment_history_score on_time_payments_percent days_late_avg in
  let credit_utilization :=
    calculate_credit_utilization_score utilization_percent in
  let credit_age := calculate_credit_age_score credit_age_years in
  credit_mix <-
    calculate_credit_mix_score num_secured_loans num_unsecured_loans
                               has_credit_card ;;
  new_credit <-
    calculate_new_credit_score num_inquiries_6months num_new_accounts_6months ;;
  calculate_final_score
    [ ("payment_history", payment_history);
      ("credit_utilization", credit_utilization);
      ("credit_age", credit_age);
      ("credit_mix", credit_mix);
      ("new_credit", new_credit) ].

(** ** Binary64 arithmetic: the order and the rounding of [SpecFloat] *)

Module Binary64.

(** A bound above the magnitude of every finite float, in units of
    [2^-1074]: it stands for the infinities. *)
Definition top : Z := 2 ^ 2100.

(** The value of a finite float, as a multiple of [2^-1074]. *)
Definition sval (x : spec_float) : Z :=
  match x with
  | S754_finite s m e => cond_Zopp s (Zpos m * 2 ^ (e + 1074))
  | _ => 0
  end.

(** An embedding of the floats that are not NaN into the integers, which
    keeps their order. *)
Definition ord (x : spec_float) : option Z :=
  match x with
  | S754_nan => None
  | S754_infinity s => Some (cond_Zopp s top)
  | _ => Some (sval x)
  end.

Definition compare_ord (a b : option Z) : option comparison :=
  match a, b with
  | Some a, Some b => Some (a ?= b)
  | _, _ => None
  end.

(** The record [mrs] holds the integer part of the fraction [M / D], and
    no bit is set when the fraction is an integer. *)
Record shr_inv (M D : Z) (mrs : shr_record) : Prop := {
  inv_m : shr_m mrs = M / D;
  inv_exact : M mod D = 0 -> shr_r mrs = false /\ shr_s mrs = false
}.

(** The float that [binary_round_aux] builds from a rounded mantissa. *)
Definition rounded (s : bool) (m e : Z) : spec_float :=
  match m with
  | Z0 => S754_zero s
  | Zpos p => if e <=? 971 then S754_finite s p e else S754_infinity s
  | Zneg _ => S754_nan
  end.

(** [fexp prec emax] with the constants of binary64. *)
Definition fexp64 (k : Z) : Z := Z.max (k - 53) (-1074).

(** The magnitude of a float, as a multiple of [2^-1074]; an infinity lies
    above every finite float. *)
Definition mag (x : spec_float) : option Z :=
  match x with
  | S754_nan => None
  | S754_infinity _ => Some top
  | S754_zero _ => Some 0
  | S754_finite _ m e => Some (Zpos m * 2 ^ (e + 1074))
  end.

Definition sign_of (x : spec_float) : bool :=
  match x with
  | S754_zero s | S754_infinity s | S754_finite s _ _ => s
  | S754_nan => false
  end.

(** The value of a primitive float in the order of [ord]. *)
Definition fval (x : float) : option Z := ord (Prim2SF x).

(** The three kinds of non-negative floats. *)
Variant nonneg_kind (x : float) (a : Z) : Prop :=
| Kzero (s : bool) : Prim2SF x = S754_zero s -> a = 0 -> nonneg_kind x a
| Kfinite (m : positive) (e : Z) :
    Prim2SF x = S754_finite false m e -> bounded prec emax m e = true ->
    a = Zpos m * 2 ^ (e + 1074) -> 0 < a < top -> nonneg_kind x a
| Kinf : Prim2SF x = S754_infinity false -> a = top -> nonneg_kind x a.

(** The side condition of [sub_range], decided by computation: [lo] is
    positive and [lo + y' <= x] holds exactly, [x] finite. *)
Definition sub_side (x y' lo : float) : bool :=
  match fval x, fval y', fval lo with
  | Some a, Some b, Some l => (0 <? l) && (l + b <=? a) && (a <? top)
  | _, _, _ => false
  end.

(** The side condition of [add_range], decided by computation:
    [hx + hy <= h] holds exactly, and [h] is positive and finite. *)
Definition add_side (hx hy h : float) : bool :=
  match fval hx, fval hy, fval h with
  | Some a, Some b, Some c => (a + b <=? c) && (0 <? c) && (c <? top)
  | _, _, _ => false
  end.

(** A rounded magnitude, in units of [2^-1074], is that of a finite float
    when it is below [huge], and is replaced by an infinity otherwise. *)
Definition huge : Z := 2 ^ 2098.

(** The location of the fraction [M / D] between two integers. *)
Definition frac_loc (M D : Z) : location :=
  if M mod D =? 0 then loc_Exact else loc_Inexact (2 * (M mod D) ?= D).

(** The fraction [M / D] rounded to the nearest integer, ties to even. *)
Definition rne (M D : Z) : Z := round_nearest_even (M / D) (frac_loc M D).

(** The record [mrs] holds the integer part of the fraction [M / D] and
    its location. *)
Record shr_loc (M D : Z) (mrs : shr_record) : Prop := {
  loc_m : shr_m mrs = M / D;
  loc_l : loc_of_shr_record mrs = frac_loc M D
}.

(** A magnitude as [mag] gives it: an infinity from [huge] on. *)
Definition clip (v : Z) : Z := if v <? huge then v else top.

(** The fraction [M / D], in units of [2^-1074], rounded to a float. *)
Definition round64 (M D : Z) : spec_float :=
  binary_round_aux prec emax false (M / D) (-1074) (frac_loc M D).

End Binary64.

(** ** The formulas of the specification

    Written from the specification's words, with [fmin] and [fmax] the
    mathematical minimum and maximum; the theorems below compare them with
    the functions above. *)

Definition fmin (a b : float) : float := if (a <=? b)%float then a else b.
Definition fmax (a b : float) : float := if (b <=? a)%float then a else b.

(** "Base = onTimePaymentsPercent / 100.  If daysLateAvg > 0, latePenalty =
    min(daysLateAvg / 90, 1) and base *= (1 - latePenalty * 0.5)." *)
Definition payment_history_spec (onTimePaymentsPercent daysLateAvg : float) : float :=
  if (0 <? daysLateAvg)%float then
    (onTimePaymentsPercent / 100 * (1 - fmin (daysLateAvg / 90) 1 * 0.5))%float
  else (onTimePaymentsPercent / 100)%float.

(** A count that is at most 2, as a float. *)
Definition small_count (n : Z) : float :=
  match n with
  | 0 => 0%float
  | 1 => 1%float
  | _ => 2%float
  end.

(** "If both counts are zero and there is no card, 0.30.  Otherwise
    min(min(numSecuredLoans,2)*0.3 + min(numUnsecuredLoans,2)*0.2 +
    (hasCreditCard?1:0)*0.2, 1.0)." *)
Definition credit_mix_spec
    (numSecuredLoans numUnsecuredLoans : Z) (hasCreditCard : bool) : float :=
  if (numSecuredLoans =? 0) && (numUnsecuredLoans =? 0) && negb hasCreditCard
  then 0.30%float
  else
    fmin (small_count (Z.min numSecuredLoans 2) * 0.3
          + small_count (Z.min numUnsecuredLoans 2) * 0.2
          + (if hasCreditCard then 1 else 0) * 0.2)%float
         1.0%float.

(** "inquiryPenalty = min(count*0.15, 0.60); newAccountPenalty =
    min(count*0.20, 0.60); score = 1.0 - max(inquiryPenalty,
    newAccountPenalty)", on the two counts as floats. *)
Definition new_credit_spec (numInquiries6Months numNewAccounts6Months : float) : float :=
  (1.0 - fmax (fmin (numInquiries6Months * 0.15) 0.60)
              (fmin (numNewAccounts6Months * 0.20) 0.60))%float.




(** ** What the aggregator computes on the five components *)

(** The dictionary that [calculate_score] builds from the five sub-scores. *)
Definition components_of
    (payment_history credit_utilization credit_age credit_mix new_credit : float)
    : Py.dict :=
  [ ("payment_history", payment_history);
    ("credit_utilization", credit_utilization);
    ("credit_age", credit_age);
    ("credit_mix", credit_mix);
    ("new_credit", new_credit) ].

(** The weighted contributions and the running total of the five
    sub-scores, as the loop of [calculate_final_score] computes them. *)
Definition contributions (ph cu ca cm nc : float) : Py.dict :=
  components_of (ph * 0.35 * 600) (cu * 0.30 * 600) (ca * 0.15 * 600)
                (cm * 0.10 * 600) (nc * 0.10 * 600)%float.

Definition total_score (ph cu ca cm nc : float) : float :=
  (0 + ph * 0.35 * 600 + cu * 0.30 * 600 + ca * 0.15 * 600
     + cm * 0.10 * 600 + nc * 0.10 * 600)%float.

(** The largest float, 1.7976931348623157e308, as an integer. *)
Definition max_float_int : Z := (2 ^ 53 - 1) * 2 ^ 971.

(** A float in [0, 1]. *)
Definition in_unit (x : float) : Prop :=
  (0 <=? x)%float = true /\ (x <=? 1)%float = true.

(** [x] lies strictly between [lo] and [hi]. *)
Definition within (lo x hi : float) : bool := ((lo <? x) && (x <? hi))%float.

(** The least magnitude of an [int] that has no float:
    [2^1024 - 2^970], halfway between the largest float and [2^1024]. *)
Definition float_limit : Z := 2 ^ 1024 - 2 ^ 970.

(** Two mappings with the same keys in the same order: each sub-score of
    the first is at most that of the second, and both lie in [0, 1]. *)
Definition below (c1 c2 : Py.dict) : Prop :=
  Forall2 (fun kv1 kv2 : string * float =>
             fst kv1 = fst kv2 /\
             (0 <=? snd kv1)%float = true /\
             (snd kv1 <=? snd kv2)%float = true /\
             (snd kv2 <=? 1)%float = true) c1 c2.

(** ** Facts of binary64 arithmetic *)

Module Binary64Facts.

Import Binary64.

(** *** The order of valid floats *)

(** A mantissa of [d] digits lies in [[2^(d-1), 2^d)]. *)
Lemma digits2_pos_bounds (m : positive) :
  2 ^ (Zpos (digits2_pos m) - 1) <= Zpos m < 2 ^ Zpos (digits2_pos m).
Proof.
  induction m as [m IH | m IH | ]; cbn [digits2_pos].
  - rewrite Pos2Z.inj_succ.
    replace (Z.succ (Zpos (digits2_pos m)) - 1) with (Z.succ (Zpos (digits2_pos m) - 1)) by lia.
    rewrite !Z.pow_succ_r by lia. lia.
  - rewrite Pos2Z.inj_succ.
    replace (Z.succ (Zpos (digits2_pos m)) - 1) with (Z.succ (Zpos (digits2_pos m) - 1)) by lia.
    rewrite !Z.pow_succ_r by lia. lia.
  - cbn. lia.
Qed.

Lemma pow2_pos (k : Z) : 0 <= k -> 0 < 2 ^ k.
Proof. intros; apply Z.pow_pos_nonneg; lia. Qed.

Lemma pow2_split (a b : Z) : 0 <= a <= b -> 2 ^ b = 2 ^ (b - a) * 2 ^ a.
Proof. intros H. rewrite <- Z.pow_add_r by lia. f_equal; lia. Qed.

(** What [valid_binary] says of a finite float. *)
Lemma bounded_inv (m : positive) (e : Z) :
  bounded prec emax m e = true ->
  -1074 <= e <= 971 /\ Zpos m < 2 ^ 53 /\ (-1074 < e -> 2 ^ 52 <= Zpos m).
Proof.
  unfold bounded, canonical_mantissa, fexp, SpecFloat.emin, prec, emax.
  intros H. apply andb_prop in H as [Hc He].
  apply Z.eqb_eq in Hc. apply Z.leb_le in He.
  pose proof (digits2_pos_bounds m) as [Hlo Hhi].
  set (d := Zpos (digits2_pos m)) in *.
  assert (Hd : 0 < d) by (unfold d; lia).
  assert (d <= 53) by lia.
  repeat split; try lia.
  - apply Z.lt_le_trans with (1 := Hhi). apply Z.pow_le_mono_r; lia.
  - intros He'. assert (d = 53) by lia. subst d. rewrite H0 in Hlo. exact Hlo.
Qed.

(** A mantissa of at most 53 bits at a lower exponent is below a mantissa
    of 53 bits at a higher one. *)
Lemma scaled_lt (m1 m2 a b : Z) :
  0 <= a < b -> m1 < 2 ^ 53 -> 2 ^ 52 <= m2 -> m1 * 2 ^ a < m2 * 2 ^ b.
Proof.
  intros Hab H1 H2.
  rewrite (pow2_split a b) by lia.
  pose proof (pow2_pos a ltac:(lia)) as Ha.
  assert (2 ^ 1 <= 2 ^ (b - a)) by (apply Z.pow_le_mono_r; lia).
  change (2 ^ 1) with 2 in *. change (2 ^ 53) with (2 * 2 ^ 52) in H1.
  assert (HT : 0 < 2 ^ 52) by reflexivity.
  set (T := 2 ^ 52) in *. set (P := 2 ^ a) in *. set (Q := 2 ^ (b - a)) in *.
  assert (2 * T <= m2 * Q) by nia.
  apply Z.lt_le_trans with (2 * T * P); [nia|].
  rewrite Z.mul_assoc. apply Z.mul_le_mono_nonneg_r; lia.
Qed.

(** On valid floats the comparison by exponent, then by mantissa, that
    [SFcompare] makes is the comparison of the values. *)
Lemma compare_finite_pos (m1 m2 : positive) (e1 e2 : Z) :
  bounded prec emax m1 e1 = true -> bounded prec emax m2 e2 = true ->
  match e1 ?= e2 with
  | Lt => Lt
  | Gt => Gt
  | Eq => Pos.compare_cont Eq m1 m2
  end = (Zpos m1 * 2 ^ (e1 + 1074) ?= Zpos m2 * 2 ^ (e2 + 1074)).
Proof.
  intros H1 H2.
  apply bounded_inv in H1 as (He1 & Hm1 & Hn1).
  apply bounded_inv in H2 as (He2 & Hm2 & Hn2).
  destruct (Z.compare_spec e1 e2) as [-> | Hlt | Hgt].
  - pose proof (pow2_pos (e2 + 1074) ltac:(lia)).
    rewrite <- Zmult_compare_compat_r by lia. reflexivity.
  - symmetry. apply Z.compare_lt_iff.
    apply scaled_lt; try lia.
  - symmetry. apply Z.compare_gt_iff.
    apply scaled_lt; try lia.
Qed.

Lemma sval_finite_bound (s : bool) (m : positive) (e : Z) :
  bounded prec emax m e = true ->
  0 < Zpos m * 2 ^ (e + 1074) < top.
Proof.
  intros H. apply bounded_inv in H as (He & Hm & _).
  pose proof (pow2_pos (e + 1074) ltac:(lia)).
  split; [lia|].
  assert (2 ^ (e + 1074) <= 2 ^ 2045) by (apply Z.pow_le_mono_r; lia).
  apply Z.lt_le_trans with (2 ^ 53 * 2 ^ 2045); [nia|].
  unfold top. rewrite <- Z.pow_add_r by lia. apply Z.pow_le_mono_r; lia.
Qed.

Ltac solve_cmp :=
  f_equal; symmetry;
  first [ apply Z.compare_eq_iff; lia
        | apply Z.compare_lt_iff; lia
        | apply Z.compare_gt_iff; lia ].

(** [ord] embeds the order of valid floats in that of the integers. *)
Lemma SFcompare_ord (x y : spec_float) :
  valid_binary x = true -> valid_binary y = true ->
  SFcompare x y = compare_ord (ord x) (ord y).
Proof.
  assert (HP : 0 < top) by (unfold top; apply pow2_pos; lia).
  destruct x as [sx | sx | | sx mx ex], y as [sy | sy | | sy my ey];
    cbn [valid_binary SpecFloat.valid_binary SFcompare ord compare_ord sval];
    intros Hx Hy; try reflexivity;
    try pose proof (sval_finite_bound sx mx ex Hx);
    try pose proof (sval_finite_bound sy my ey Hy).
  1-7: try destruct sx; try destruct sy; cbn [cond_Zopp]; solve_cmp.
  pose proof (compare_finite_pos mx my ex ey Hx Hy) as Hc.
  destruct sx, sy; cbn [cond_Zopp]; try solve_cmp; f_equal.
  - rewrite Z.compare_opp.
    rewrite (Z.compare_antisym (Zpos mx * 2 ^ (ex + 1074))), <- Hc.
    destruct (ex ?= ey); reflexivity.
  - exact Hc.
Qed.

(** *** Shifting a mantissa right, with its round and sticky bits *)

Lemma shr_1_nonneg (m : Z) (r s : bool) :
  0 <= m ->
  shr_1 (Build_shr_record m r s) = Build_shr_record (m / 2) (Z.odd m) (r || s).
Proof.
  intros Hm. rewrite <- Z.div2_div.
  destruct m as [ | [p | p | ] | p]; try reflexivity. lia.
Qed.

(** One shift halves the fraction that the record holds. *)
Lemma shr_1_inv (M D : Z) (mrs : shr_record) :
  0 <= M -> 0 < D -> shr_inv M D mrs -> shr_inv M (D * 2) (shr_1 mrs).
Proof.
  intros HM HD [Hm Hex]. destruct mrs as [m r s]. cbn [shr_m shr_r shr_s] in *.
  assert (0 <= m) by (subst m; apply Z.div_pos; lia).
  rewrite shr_1_nonneg by assumption.
  split; cbn [shr_m shr_r shr_s].
  - subst m. apply Z.div_div; lia.
  - intros H0. rewrite Z.rem_mul_r in H0 by lia.
    pose proof (Z.mod_pos_bound M D HD).
    pose proof (Z.mod_pos_bound (M / D) 2 ltac:(lia)).
    assert (HMD : M mod D = 0) by nia.
    assert (Hev : (M / D) mod 2 = 0) by nia.
    destruct (Hex HMD) as [-> ->]. split; [|reflexivity].
    rewrite Hm, <- Z.negb_even.
    replace (Z.even (M / D)) with true; [reflexivity|].
    symmetry. apply Z.even_spec. apply Z.mod_divide in Hev; [|lia].
    destruct Hev as [k Hk]. exists k. lia.
Qed.

Lemma iter_pos_shr_1_inv (p : positive) :
  forall (M D : Z) (mrs : shr_record),
  0 <= M -> 0 < D -> shr_inv M D mrs ->
  shr_inv M (D * 2 ^ Zpos p) (iter_pos shr_1 p mrs).
Proof.
  induction p as [p IH | p IH | ]; intros M D mrs HM HD Hinv; cbn [iter_pos].
  - pose proof (pow2_pos (Zpos p) ltac:(lia)) as Hp.
    replace (D * 2 ^ Zpos p~1) with (D * 2 * 2 ^ Zpos p * 2 ^ Zpos p).
    + apply IH; [lia | nia |]. apply IH; [lia | lia |]. now apply shr_1_inv.
    + replace (Zpos p~1) with (1 + Zpos p + Zpos p) by lia.
      rewrite !Z.pow_add_r by lia. change (2 ^ 1) with 2. lia.
  - pose proof (pow2_pos (Zpos p) ltac:(lia)) as Hp.
    replace (D * 2 ^ Zpos p~0) with (D * 2 ^ Zpos p * 2 ^ Zpos p).
    + apply IH; [lia | nia |]. now apply IH.
    + replace (Zpos p~0) with (Zpos p + Zpos p) by lia.
      rewrite !Z.pow_add_r by lia. lia.
  - change (2 ^ 1) with 2. now apply shr_1_inv.
Qed.

Lemma shr_inv_shift (M D : Z) (mrs : shr_record) (e n : Z) :
  0 <= M -> 0 < D -> shr_inv M D mrs ->
  shr_inv M (D * 2 ^ Z.max n 0) (fst (shr mrs e n)) /\
  snd (shr mrs e n) = e + Z.max n 0.
Proof.
  intros HM HD Hinv. destruct n as [ | p | p]; cbn [shr fst snd].
  - change (Z.max 0 0) with 0. rewrite Z.mul_1_r, Z.add_0_r. now split.
  - rewrite Z.max_l by lia. split; [|reflexivity].
    now apply iter_pos_shr_1_inv.
  - rewrite Z.max_r by lia. change (2 ^ 0) with 1.
    rewrite Z.mul_1_r, Z.add_0_r. now split.
Qed.

Lemma shr_record_of_loc_inv (M D : Z) (l : location) :
  (M mod D = 0 -> l = loc_Exact) ->
  shr_inv M D (shr_record_of_loc (M / D) l).
Proof.
  intros Hl. split.
  - destruct l as [ | [ | | ]]; reflexivity.
  - intros H. rewrite (Hl H). split; reflexivity.
Qed.

(** Rounding keeps the mantissa or adds one, and keeps it when no bit was
    lost. *)
Lemma round_nearest_even_bounds (mrs : shr_record) :
  shr_m mrs <= round_nearest_even (shr_m mrs) (loc_of_shr_record mrs) <= shr_m mrs + 1 /\
  (shr_r mrs = false /\ shr_s mrs = false ->
   round_nearest_even (shr_m mrs) (loc_of_shr_record mrs) = shr_m mrs).
Proof.
  destruct mrs as [m [ | ] [ | ]]; cbn; try destruct (Z.even m); split; try lia;
    intros [? ?]; congruence.
Qed.

Lemma Zdigits2_bounds (m : Z) :
  0 < m -> 2 ^ (Zdigits2 m - 1) <= m < 2 ^ Zdigits2 m.
Proof.
  destruct m as [ | p | p]; try lia. intros _. apply digits2_pos_bounds.
Qed.

Lemma div_pow2_lt (m k d : Z) :
  0 <= k -> 0 <= d -> m < 2 ^ (d + k) -> 0 <= m -> m / 2 ^ k < 2 ^ d.
Proof.
  intros Hk Hd Hm Hm0. apply Z.div_lt_upper_bound; [now apply pow2_pos|].
  rewrite <- Z.pow_add_r by lia. now rewrite Z.add_comm.
Qed.

Lemma div_pow2_ge (m k d : Z) :
  0 <= k -> 0 <= d -> 2 ^ (d + k) <= m -> 2 ^ d <= m / 2 ^ k.
Proof.
  intros Hk Hd Hm. apply Z.div_le_lower_bound; [now apply pow2_pos|].
  rewrite <- Z.pow_add_r by lia. now rewrite Z.add_comm.
Qed.

(** The mantissa [M / D] at exponent [e], rounded: [k1] bits are shifted
    out, the mantissa is rounded to [m2] at exponent [e + k1], and a carry into
    a 54th bit shifts [k2] more. *)
Lemma binary_round_aux_spec (s : bool) (M D e : Z) (l : location) :
  0 <= M -> 0 < D -> (M mod D = 0 -> l = loc_Exact) ->
  e <= fexp64 (Zdigits2 (M / D) + e) ->
  exists k1 m2 k2 : Z,
    0 <= k1 /\ 0 <= k2 /\ -1074 <= e + k1 /\
    M / (D * 2 ^ k1) <= m2 <= M / (D * 2 ^ k1) + 1 /\
    (M mod (D * 2 ^ k1) = 0 -> m2 = M / (D * 2 ^ k1)) /\
    (-1074 < e + k1 -> 2 ^ 52 <= M / (D * 2 ^ k1)) /\
    (-1074 < e + k1 + k2 -> 2 ^ 52 <= m2 / 2 ^ k2) /\
    0 <= m2 / 2 ^ k2 < 2 ^ 53 /\
    binary_round_aux prec emax s (M / D) e l = rounded s (m2 / 2 ^ k2) (e + k1 + k2).
Proof.
  intros HM HD Hl Hpre.
  assert (Hm0 : 0 <= M / D) by (apply Z.div_pos; lia).
  unfold binary_round_aux, shr_fexp. change (fexp prec emax) with fexp64.
  pose proof (Zdigits2_bounds (M / D)) as Hdig.
  assert (Hdig0 : M / D = 0 -> Zdigits2 (M / D) = 0) by (now intros ->).
  remember (Zdigits2 (M / D)) as d0 eqn:Hd0. clear Hd0.
  unfold fexp64 in Hpre |- *.
  remember (Z.max (d0 + e - 53) (-1074) - e) as n1 eqn:Hn1.
  destruct (shr_inv_shift M D (shr_record_of_loc (M / D) l) e n1 HM HD
              (shr_record_of_loc_inv M D l Hl)) as [Hinv1 He1].
  destruct (shr (shr_record_of_loc (M / D) l) e n1) as [mrs1 e1].
  cbn [fst snd] in Hinv1, He1. subst e1.
  assert (Hk1 : Z.max n1 0 = n1) by (clear - Hn1 Hpre; lia).
  rewrite Hk1 in *.
  assert (Hn1' : 0 <= n1) by (clear - Hn1 Hpre; lia).
  pose proof (pow2_pos n1 Hn1') as Hp1.
  destruct Hinv1 as [Hm1 Hex1].
  pose proof (round_nearest_even_bounds mrs1) as [Hr2 Hr2ex].
  remember (round_nearest_even (shr_m mrs1) (loc_of_shr_record mrs1)) as m2 eqn:Hm2d.
  clear Hm2d. rewrite Hm1 in Hr2, Hr2ex.
  assert (HDD : M / (D * 2 ^ n1) = M / D / 2 ^ n1) by (symmetry; apply Z.div_div; lia).
  assert (Hm1lo : 0 <= M / (D * 2 ^ n1)) by (apply Z.div_pos; nia).
  (* the first shift leaves at most 53 bits, and exactly 53 above the least exponent *)
  assert (Hm1hi : M / (D * 2 ^ n1) < 2 ^ 53).
  { rewrite HDD. destruct (Z.eq_dec (M / D) 0) as [H0 | H0].
    - rewrite H0, Z.div_0_l by lia. reflexivity.
    - destruct (Hdig ltac:(lia)) as [_ Hhi].
      apply div_pow2_lt; try lia.
      apply Z.lt_le_trans with (1 := Hhi).
      apply Z.pow_le_mono_r; lia. }
  assert (Hm1n : -1074 < e + n1 -> 2 ^ 52 <= M / (D * 2 ^ n1)).
  { intros Hn. rewrite HDD.
    destruct (Z.eq_dec (M / D) 0) as [H0 | H0].
    - exfalso. specialize (Hdig0 H0). lia.
    - destruct (Hdig ltac:(lia)) as [Hlo _].
      apply div_pow2_ge; try lia.
      apply Z.le_trans with (2 := Hlo).
      apply Z.pow_le_mono_r; lia. }
  remember (M / (D * 2 ^ n1)) as m1 eqn:Hm1d.
  assert (Hm2 : 0 <= m2) by lia.
  pose proof (Zdigits2_bounds m2) as Hdig2.
  assert (Hdig20 : m2 = 0 -> Zdigits2 m2 = 0) by (now intros ->).
  remember (Zdigits2 m2) as d2 eqn:Hd2. clear Hd2.
  remember (Z.max (d2 + (e + n1) - 53) (-1074) - (e + n1)) as n2 eqn:Hn2.
  destruct (shr_inv_shift m2 1 (shr_record_of_loc m2 loc_Exact) (e + n1) n2 Hm2
              ltac:(lia)) as [Hinv2 He2].
  { pose proof (shr_record_of_loc_inv m2 1 loc_Exact (fun _ => eq_refl)) as H.
    now rewrite Z.div_1_r in H. }
  destruct (shr (shr_record_of_loc m2 loc_Exact) (e + n1) n2) as [mrs2 e2].
  cbn [fst snd] in Hinv2, He2. subst e2.
  destruct Hinv2 as [Hm3 _]. rewrite Z.mul_1_l in Hm3. rewrite Hm3.
  exists n1, m2, (Z.max n2 0). rewrite <- Hm1d.
  assert (Hcarry :
    (-1074 < e + n1 + Z.max n2 0 -> 2 ^ 52 <= m2 / 2 ^ Z.max n2 0) /\
    0 <= m2 / 2 ^ Z.max n2 0 < 2 ^ 53).
  { assert (H52 : 0 < 2 ^ 52) by reflexivity.
    destruct (Z.eq_dec m2 0) as [H0 | H0].
    - specialize (Hdig20 H0).
      assert (Z.max n2 0 = 0) as -> by lia.
      rewrite H0 in *. rewrite Z.add_0_r. cbn. split; [|lia].
      intros Hn. specialize (Hm1n Hn). lia.
    - destruct (Hdig2 ltac:(lia)) as [Hlo Hhi].
      destruct (Z_le_gt_dec d2 53) as [Hd | Hd].
      + assert (Z.max n2 0 = 0) as -> by lia.
        rewrite Z.add_0_r. change (2 ^ 0) with 1. rewrite Z.div_1_r.
        split; [intros Hn; specialize (Hm1n Hn); lia|].
        split; [lia|]. apply Z.lt_le_trans with (1 := Hhi).
        apply Z.pow_le_mono_r; lia.
      + assert (H53 : 2 ^ 53 <= m2).
        { apply Z.le_trans with (2 := Hlo). apply Z.pow_le_mono_r; lia. }
        assert (Hm2eq : m2 = 2 ^ 53) by lia.
        assert (Hd54 : d2 = 54).
        { assert (d2 - 1 <= 53); [|lia].
          apply (Z.pow_le_mono_r_iff 2); lia. }
        assert (Z.max n2 0 = 1) as -> by lia.
        rewrite Hm2eq. change (2 ^ 53 / 2 ^ 1) with (2 ^ 52).
        split; [intros _; lia | split; [lia | reflexivity]]. }
  destruct Hcarry as [Hc1 Hc2].
  split; [exact Hn1'|]. split; [apply Z.le_max_r|].
  split; [clear - Hn1; lia|]. split; [exact Hr2|].
  split; [intros Hex; apply Hr2ex, Hex1, Hex|].
  split; [exact Hm1n|]. split; [exact Hc1|]. split; [exact Hc2|].
  reflexivity.
Qed.

Lemma ord_mag (x : spec_float) :
  ord x = option_map (cond_Zopp (sign_of x)) (mag x).
Proof. destruct x as [[ | ] | | | ]; reflexivity. Qed.

Lemma pow2_lt_inv (a b : Z) : 0 <= b -> 2 ^ a < 2 ^ b -> a < b.
Proof. intros Hb H. apply (Z.pow_lt_mono_r_iff 2); lia. Qed.

(** A mantissa of at most 53 bits, and of 53 bits above the least exponent,
    makes a valid float. *)
Lemma rounded_valid (s : bool) (m e : Z) :
  0 <= m < 2 ^ 53 -> -1074 <= e -> (-1074 < e -> 2 ^ 52 <= m) ->
  valid_binary (rounded s m e) = true.
Proof.
  intros Hm He Hn. destruct m as [ | p | p]; cbn [rounded]; try reflexivity.
  destruct (Z.leb_spec e 971) as [He' | He']; [|reflexivity].
  cbn [SpecFloat.valid_binary]. unfold bounded, canonical_mantissa.
  change (fexp prec emax) with fexp64. unfold fexp64.
  replace (emax - prec) with 971 by reflexivity.
  apply andb_true_intro. split; [|apply Z.leb_le; lia].
  apply Z.eqb_eq.
  pose proof (digits2_pos_bounds p) as [Hlo Hhi].
  remember (Zpos (digits2_pos p)) as d eqn:Hd.
  assert (0 < d) by (subst d; lia).
  assert (d <= 53).
  { assert (d - 1 < 53); [|lia]. apply pow2_lt_inv; lia. }
  destruct (Z.eq_dec e (-1074)) as [-> | Hne]; [lia|].
  assert (52 < d); [|lia].
  apply pow2_lt_inv; [lia|]. specialize (Hn ltac:(lia)). lia.
Qed.

(** The magnitude and the sign of the float built from a mantissa. *)
Lemma mag_rounded (s : bool) (m e : Z) :
  0 <= m ->
  exists v, mag (rounded s m e) = Some v /\
            sign_of (rounded s m e) = s /\
            (v = m * 2 ^ (e + 1074) /\ (0 < m -> e <= 971) \/ v = top /\ 0 < m /\ 971 < e).
Proof.
  intros Hm. destruct m as [ | p | p]; cbn [rounded]; [| |lia].
  - exists 0. cbn. repeat split. left. split; lia.
  - destruct (Z.leb_spec e 971).
    + eexists. cbn [mag sign_of]. repeat split. left. split; [reflexivity|lia].
    + eexists. cbn [mag sign_of]. repeat split. right. repeat split; lia.
Qed.

(** The float [binary_round_aux s (M / D) e l], for a fraction [M / D] of
    non-negative integers whose location [l] is exact when the fraction is an
    integer, at an exponent [e] that does not exceed the canonical one. *)
Section Rounding.

Variables (s : bool) (M D e : Z) (l : location).
Hypothesis HM : 0 <= M.
Hypothesis HD : 0 < D.
Hypothesis Hl : M mod D = 0 -> l = loc_Exact.
Hypothesis Hpre : e <= fexp64 (Zdigits2 (M / D) + e).

(** It is a valid float of sign [s], and no NaN. *)
Lemma round_valid :
  valid_binary (binary_round_aux prec emax s (M / D) e l) = true /\
  sign_of (binary_round_aux prec emax s (M / D) e l) = s /\
  mag (binary_round_aux prec emax s (M / D) e l) <> None.
Proof.
  destruct (binary_round_aux_spec s M D e l HM HD Hl Hpre)
    as (k1 & m2 & k2 & Hk1 & Hk2 & He1 & Hm2 & Hex & Hn1 & Hn3 & Hm3 & Hr).
  rewrite Hr. split; [|split].
  - apply rounded_valid; try assumption. lia.
  - destruct (mag_rounded s (m2 / 2 ^ k2) (e + k1 + k2)) as (v & _ & Hs & _); [lia|].
    exact Hs.
  - destruct (mag_rounded s (m2 / 2 ^ k2) (e + k1 + k2)) as (v & Hv & _); [lia|].
    rewrite Hv. discriminate.
Qed.

Variables (mB : positive) (eB K : Z).
Hypothesis HB : bounded prec emax mB eB = true.
Hypothesis HK : 0 <= e + K.
Hypothesis HK' : 1074 <= K.

(** A bound that is a float is kept by rounding. *)
Lemma round_le :
  M * 2 ^ (e + K) <= D * (Zpos mB * 2 ^ (eB + K)) ->
  exists v, mag (binary_round_aux prec emax s (M / D) e l) = Some v /\
            v <= Zpos mB * 2 ^ (eB + 1074).
Proof.
  intros Hle.
  destruct (binary_round_aux_spec s M D e l HM HD Hl Hpre)
    as (k1 & m2 & k2 & Hk1 & Hk2 & He1 & Hm2 & Hex & Hn1 & Hn3 & Hm3 & Hr).
  apply bounded_inv in HB as (HeB & HmB & _).
  rewrite Hr. clear Hr.
  pose proof (pow2_pos (e + K) HK) as HP.
  pose proof (pow2_pos k1 Hk1) as HP1.
  pose proof (pow2_pos k2 Hk2) as HP2.
  remember (M / (D * 2 ^ k1)) as m1 eqn:Hm1.
  assert (Hfl : D * 2 ^ k1 * m1 <= M) by (subst m1; apply Z.mul_div_le; nia).
  assert (H52 : 0 < 2 ^ 52) by reflexivity.
  destruct (Z_le_gt_dec (e + k1) eB) as [Hgrid | Hgrid].
  - (* the bound is on the grid of exponent e + k1 *)
    pose proof (pow2_pos (eB - (e + k1)) ltac:(lia)) as HA.
    assert (HpB : 2 ^ (eB + K) = 2 ^ (eB - (e + k1)) * 2 ^ k1 * 2 ^ (e + K)).
    { rewrite <- !Z.pow_add_r by lia. f_equal. lia. }
    rewrite HpB in Hle.
    remember (2 ^ (eB - (e + k1))) as A eqn:HAd.
    remember (2 ^ k1) as B1 eqn:HB1. remember (2 ^ (e + K)) as P eqn:HPd.
    assert (Hle' : M <= D * B1 * (Zpos mB * A)).
    { apply (Z.mul_le_mono_pos_r _ _ P); [lia|]. lia. }
    assert (Hm1le : m1 <= Zpos mB * A).
    { rewrite Hm1. apply Z.div_le_upper_bound; [nia | exact Hle']. }
    assert (Hm2le : m2 <= Zpos mB * A).
    { destruct (Z.eq_dec m1 (Zpos mB * A)) as [Heq | Hne]; [|lia].
      assert (Hmod : M mod (D * B1) = 0).
      { rewrite Z.mod_eq by nia. rewrite <- Hm1. rewrite Heq in *. lia. }
      rewrite (Hex Hmod). lia. }
    assert (Hm3le : m2 / 2 ^ k2 * 2 ^ k2 <= m2).
    { rewrite Z.mul_comm. apply Z.mul_div_le. lia. }
    remember (m2 / 2 ^ k2) as m3 eqn:Hm3d.
    pose proof (pow2_pos (e + k1 + 1074) ltac:(lia)) as HQ.
    assert (Hv : m3 * 2 ^ (e + k1 + k2 + 1074) <= Zpos mB * 2 ^ (eB + 1074)).
    { replace (e + k1 + k2 + 1074) with (k2 + (e + k1 + 1074)) by lia.
      replace (eB + 1074) with (eB - (e + k1) + (e + k1 + 1074)) by lia.
      rewrite (Z.pow_add_r 2 k2), (Z.pow_add_r 2 (eB - (e + k1))) by lia.
      rewrite <- HAd.
      remember (2 ^ (e + k1 + 1074)) as Q. remember (2 ^ k2) as B2.
      rewrite !Z.mul_assoc. apply Z.mul_le_mono_nonneg_r; lia. }
    destruct (mag_rounded s m3 (e + k1 + k2)) as (v & Hv1 & _ & [[-> _] | (_ & Hpos & Hbig)]);
      [lia | exists (m3 * 2 ^ (e + k1 + k2 + 1074)); split; assumption |].
    exfalso.
    specialize (Hn3 ltac:(lia)).
    assert (2 ^ 2045 <= 2 ^ (e + k1 + k2 + 1074)) by (apply Z.pow_le_mono_r; lia).
    assert (2 ^ (eB + 1074) <= 2 ^ 2045) by (apply Z.pow_le_mono_r; lia).
    pose proof (pow2_pos (eB + 1074) ltac:(lia)).
    change (2 ^ 53) with (2 * 2 ^ 52) in HmB.
    remember (2 ^ (e + k1 + k2 + 1074)) as X. remember (2 ^ (eB + 1074)) as Y.
    remember (2 ^ 2045) as Z0. remember (2 ^ 52) as T.
    assert (T * Z0 <= m3 * X) by (apply Z.mul_le_mono_nonneg; lia).
    assert (Zpos mB * Y < 2 * T * Z0).
    { apply Z.lt_le_trans with (2 * T * Y); [nia|].
      apply Z.mul_le_mono_nonneg_l; lia. }
    assert (2 * (T * Z0) <= m3 * X); [|lia].
    clear -Hbig Hn3 H H52 HeqX HeqZ0 Hpos.
    assert (2 ^ 2046 <= X) by (subst X; apply Z.pow_le_mono_r; lia).
    change (2 ^ 2046) with (2 * 2 ^ 2045) in *. rewrite <- HeqZ0 in *.
    assert (T * (2 * Z0) <= m3 * X) by (apply Z.mul_le_mono_nonneg; lia).
    lia.
  - (* the bound is below the grid: the mantissa has 53 bits and exceeds it *)
    exfalso. specialize (Hn1 ltac:(lia)).
    assert (HpK : 2 ^ (e + k1 + K) = 2 ^ k1 * 2 ^ (e + K)).
    { rewrite <- Z.pow_add_r by lia. f_equal. lia. }
    assert (HpB : 2 * 2 ^ (eB + K) <= 2 ^ (e + k1 + K)).
    { change 2 with (2 ^ 1) at 1. rewrite <- Z.pow_add_r by lia.
      apply Z.pow_le_mono_r; lia. }
    pose proof (pow2_pos (eB + K) ltac:(lia)) as HY.
    change (2 ^ 53) with (2 * 2 ^ 52) in HmB.
    remember (2 ^ (eB + K)) as Y. remember (2 ^ (e + K)) as P.
    remember (2 ^ k1) as B1. remember (2 ^ 52) as T.
    rewrite HpK in HpB.
    assert (D * B1 * T <= M) by nia.
    assert (D * B1 * T * P <= M * P) by (apply Z.mul_le_mono_nonneg_r; lia).
    assert (D * (Zpos mB * Y) < D * (T * (2 * Y))) by nia.
    assert (D * (T * (2 * Y)) <= D * (T * (B1 * P))).
    { apply Z.mul_le_mono_nonneg_l; [lia|]. apply Z.mul_le_mono_nonneg_l; lia. }
    lia.
Qed.

(** So is a bound from below. *)
Lemma round_ge :
  D * (Zpos mB * 2 ^ (eB + K)) <= M * 2 ^ (e + K) ->
  exists v, mag (binary_round_aux prec emax s (M / D) e l) = Some v /\
            Zpos mB * 2 ^ (eB + 1074) <= v.
Proof.
  intros Hle.
  destruct (binary_round_aux_spec s M D e l HM HD Hl Hpre)
    as (k1 & m2 & k2 & Hk1 & Hk2 & He1 & Hm2 & Hex & Hn1 & Hn3 & Hm3 & Hr).
  pose proof (sval_finite_bound false mB eB HB) as HvB.
  apply bounded_inv in HB as (HeB & HmB & _).
  rewrite Hr. clear Hr.
  pose proof (pow2_pos (e + K) HK) as HP.
  pose proof (pow2_pos k1 Hk1) as HP1.
  pose proof (pow2_pos k2 Hk2) as HP2.
  remember (M / (D * 2 ^ k1)) as m1 eqn:Hm1.
  assert (H52 : 0 < 2 ^ 52) by reflexivity.
  remember (m2 / 2 ^ k2) as m3 eqn:Hm3d.
  assert (Hv : Zpos mB * 2 ^ (eB + 1074) <= m3 * 2 ^ (e + k1 + k2 + 1074)).
  { destruct (Z_le_gt_dec (e + k1 + k2) eB) as [Hgrid | Hgrid].
    - pose proof (pow2_pos (eB - (e + k1 + k2)) ltac:(lia)) as HA.
      assert (HpB : 2 ^ (eB + K) = 2 ^ (eB - (e + k1 + k2)) * 2 ^ k2 * 2 ^ k1 * 2 ^ (e + K)).
      { rewrite <- !Z.pow_add_r by lia. f_equal. lia. }
      rewrite HpB in Hle.
      replace (eB + 1074) with (eB - (e + k1 + k2) + (e + k1 + k2 + 1074)) by lia.
      rewrite (Z.pow_add_r 2 (eB - (e + k1 + k2))) by lia.
      pose proof (pow2_pos (e + k1 + k2 + 1074) ltac:(lia)) as HQ.
      remember (2 ^ (eB - (e + k1 + k2))) as A eqn:HAd.
      remember (2 ^ k1) as B1 eqn:HB1. remember (2 ^ k2) as B2 eqn:HB2.
      remember (2 ^ (e + K)) as P eqn:HPd.
      remember (2 ^ (e + k1 + k2 + 1074)) as Q eqn:HQd.
      assert (Hle' : D * B1 * (B2 * (Zpos mB * A)) <= M).
      { apply (Z.mul_le_mono_pos_r _ _ P); [lia|]. lia. }
      assert (Hm1ge : B2 * (Zpos mB * A) <= m1).
      { rewrite Hm1. apply Z.div_le_lower_bound; [nia | exact Hle']. }
      assert (Hm3ge : Zpos mB * A <= m3).
      { rewrite Hm3d. apply Z.div_le_lower_bound; lia. }
      rewrite Z.mul_assoc. apply Z.mul_le_mono_nonneg_r; lia.
    - specialize (Hn3 ltac:(lia)).
      assert (HpB : 2 * 2 ^ (eB + 1074) <= 2 ^ (e + k1 + k2 + 1074)).
      { change 2 with (2 ^ 1) at 1. rewrite <- Z.pow_add_r by lia.
        apply Z.pow_le_mono_r; lia. }
      change (2 ^ 53) with (2 * 2 ^ 52) in HmB.
      remember (2 ^ (eB + 1074)) as Y. remember (2 ^ (e + k1 + k2 + 1074)) as X.
      remember (2 ^ 52) as T.
      apply Z.le_trans with (T * (2 * Y)); [nia|].
      apply Z.mul_le_mono_nonneg; lia. }
  destruct (mag_rounded s m3 (e + k1 + k2)) as (v & Hv1 & _ & [[-> _] | (-> & _)]);
    [lia | | ]; eexists; (split; [eassumption|]); lia.
Qed.

End Rounding.

(** *** Multiplication *)

Lemma Zdigits2_gt (k m : Z) : 0 <= k -> 2 ^ k <= m -> k < Zdigits2 m.
Proof.
  intros Hk Hm. pose proof (pow2_pos k Hk).
  destruct (Zdigits2_bounds m ltac:(lia)) as [_ Hhi].
  destruct m as [ | p | p]; try lia.
  apply pow2_lt_inv; [cbn; lia | lia].
Qed.

Lemma Zdigits2_nonneg (m : Z) : 0 <= Zdigits2 m.
Proof. destruct m; cbn; lia. Qed.

Section Mul.

Variables (sx sy : bool) (mx my : positive) (ex ey : Z).
Hypothesis Hx : bounded prec emax mx ex = true.
Hypothesis Hy : bounded prec emax my ey = true.

(** The exponent of a product of valid floats does not exceed the
    canonical one. *)
Lemma SFmul_pre :
  ex + ey <= fexp64 (Zdigits2 (Zpos (mx * my) / 1) + (ex + ey)).
Proof.
  rewrite Z.div_1_r.
  apply bounded_inv in Hx as (Hex & Hmx & Hnx).
  apply bounded_inv in Hy as (Hey & Hmy & Hny).
  unfold fexp64.
  destruct (Z.eq_dec ex (-1074)) as [Hx0 | Hx0];
    [destruct (Z.eq_dec ey (-1074)) as [Hy0 | Hy0]; [lia|]|].
  - specialize (Hny ltac:(lia)).
    assert (52 < Zdigits2 (Zpos (mx * my))); [|lia].
    apply Zdigits2_gt; [lia|]. rewrite Pos2Z.inj_mul. nia.
  - specialize (Hnx ltac:(lia)).
    assert (52 < Zdigits2 (Zpos (mx * my))); [|lia].
    apply Zdigits2_gt; [lia|]. rewrite Pos2Z.inj_mul. nia.
Qed.

Lemma SFmul_finite_valid :
  valid_binary (SFmul prec emax (S754_finite sx mx ex) (S754_finite sy my ey)) = true /\
  sign_of (SFmul prec emax (S754_finite sx mx ex) (S754_finite sy my ey)) = xorb sx sy /\
  mag (SFmul prec emax (S754_finite sx mx ex) (S754_finite sy my ey)) <> None.
Proof.
  cbn [SFmul]. rewrite <- (Z.div_1_r (Zpos (mx * my))).
  apply round_valid; [lia | lia | reflexivity | exact SFmul_pre].
Qed.

(** A product that is exactly below a float is rounded below it. *)
Lemma SFmul_finite_le (mB : positive) (eB : Z) :
  bounded prec emax mB eB = true ->
  (Zpos mx * 2 ^ (ex + 1074)) * (Zpos my * 2 ^ (ey + 1074))
    <= Zpos mB * 2 ^ (eB + 1074) * 2 ^ 1074 ->
  exists v,
    mag (SFmul prec emax (S754_finite sx mx ex) (S754_finite sy my ey)) = Some v /\
    v <= Zpos mB * 2 ^ (eB + 1074).
Proof.
  intros HB Hle.
  pose proof (bounded_inv _ _ Hx) as (Hex & _).
  pose proof (bounded_inv _ _ Hy) as (Hey & _).
  pose proof (bounded_inv _ _ HB) as (HeB & _).
  cbn [SFmul]. rewrite <- (Z.div_1_r (Zpos (mx * my))).
  apply round_le with (K := 2148);
    [lia | lia | reflexivity | exact SFmul_pre | exact HB | lia | lia |].
  rewrite Z.mul_1_l, Pos2Z.inj_mul.
  replace (ex + ey + 2148) with ((ex + 1074) + (ey + 1074)) by lia.
  replace (eB + 2148) with ((eB + 1074) + 1074) by lia.
  rewrite (Z.pow_add_r 2 (ex + 1074) (ey + 1074)), (Z.pow_add_r 2 (eB + 1074) 1074) by lia.
  lia.
Qed.

End Mul.

(** *** Rounding an integer mantissa: [binary_round] *)

Lemma iter_xO (d m : positive) : Zpos (Pos.iter xO m d) = Zpos m * 2 ^ Zpos d.
Proof.
  induction d as [ | d IH] using Pos.peano_ind.
  - cbn. lia.
  - rewrite Pos.iter_succ, Pos2Z.inj_xO, IH, Pos2Z.inj_succ, Z.pow_succ_r by lia. lia.
Qed.

Lemma shl_align_spec (m : positive) (e e0 : Z) :
  snd (shl_align m e e0) = Z.min e e0 /\
  Zpos (fst (shl_align m e e0)) = Zpos m * 2 ^ (e - Z.min e e0).
Proof.
  unfold shl_align. destruct (e0 - e) as [ | d | d] eqn:Hd; cbn [fst snd].
  - rewrite Z.min_l by lia. rewrite Z.sub_diag. cbn. lia.
  - rewrite Z.min_l by lia. rewrite Z.sub_diag. cbn. lia.
  - rewrite Z.min_r by lia. split; [reflexivity|].
    rewrite iter_xO. f_equal. f_equal. lia.
Qed.

Lemma Zdigits2_unique (x d : Z) :
  0 < x -> 2 ^ (d - 1) <= x < 2 ^ d -> Zdigits2 x = d.
Proof.
  intros Hx [Hlo Hhi].
  destruct (Zdigits2_bounds x Hx) as [Hlo' Hhi'].
  assert (0 < Zdigits2 x) by (destruct x; cbn; lia).
  assert (0 < d).
  { destruct (Z_lt_le_dec 0 d) as [ | Hd]; [assumption|]. exfalso.
    assert (2 ^ d <= 1); [|lia].
    destruct (Z.eq_dec d 0) as [-> | Hd0]; [cbn; lia|].
    rewrite Z.pow_neg_r by lia. lia. }
  assert (d - 1 < Zdigits2 x) by (apply pow2_lt_inv; lia).
  assert (Zdigits2 x - 1 < d) by (apply pow2_lt_inv; lia).
  lia.
Qed.

Lemma Zdigits2_shift (x k : Z) :
  0 < x -> 0 <= k -> Zdigits2 (x * 2 ^ k) = Zdigits2 x + k.
Proof.
  intros Hx Hk. pose proof (pow2_pos k Hk).
  destruct (Zdigits2_bounds x Hx) as [Hlo Hhi].
  assert (0 < Zdigits2 x) by (destruct x; cbn; lia).
  apply Zdigits2_unique; [nia|].
  replace (Zdigits2 x + k - 1) with (Zdigits2 x - 1 + k) by lia.
  rewrite !Z.pow_add_r by lia. nia.
Qed.

Section Round.

Variables (s : bool) (m : positive) (e : Z).
Hypothesis He : -1074 <= e.

Lemma binary_round_eq :
  exists (mz : positive) (ez : Z),
    binary_round prec emax s m e
      = binary_round_aux prec emax s (Zpos mz / 1) ez loc_Exact /\
    -1074 <= ez /\
    ez <= fexp64 (Zdigits2 (Zpos mz / 1) + ez) /\
    Zpos mz * 2 ^ (ez + 1074) = Zpos m * 2 ^ (e + 1074).
Proof.
  unfold binary_round. change (fexp prec emax) with fexp64.
  destruct (shl_align_spec m e (fexp64 (Zpos (digits2_pos m) + e))) as [He' Hm'].
  destruct (shl_align m e (fexp64 (Zpos (digits2_pos m) + e))) as [mz ez].
  cbn [fst snd] in He', Hm'.
  exists mz, ez. rewrite Z.div_1_r.
  assert (Hez : -1074 <= ez) by (unfold fexp64 in He'; lia).
  repeat split; try assumption.
  - rewrite Hm'. rewrite Zdigits2_shift by lia.
    change (Zdigits2 (Zpos m)) with (Zpos (digits2_pos m)).
    unfold fexp64 in *. lia.
  - rewrite Hm'. rewrite <- Z.mul_assoc, <- Z.pow_add_r by lia.
    f_equal. f_equal. lia.
Qed.

Lemma binary_round_valid :
  valid_binary (binary_round prec emax s m e) = true /\
  sign_of (binary_round prec emax s m e) = s /\
  mag (binary_round prec emax s m e) <> None.
Proof.
  destruct binary_round_eq as (mz & ez & -> & Hez & Hpre & _).
  apply round_valid; [lia | lia | reflexivity | exact Hpre].
Qed.

Variables (mB : positive) (eB : Z).
Hypothesis HB : bounded prec emax mB eB = true.

Lemma binary_round_le :
  Zpos m * 2 ^ (e + 1074) <= Zpos mB * 2 ^ (eB + 1074) ->
  exists v, mag (binary_round prec emax s m e) = Some v /\
            v <= Zpos mB * 2 ^ (eB + 1074).
Proof.
  intros Hle. destruct binary_round_eq as (mz & ez & -> & Hez & Hpre & Hv).
  apply round_le with (K := 1074);
    [lia | lia | reflexivity | exact Hpre | exact HB | lia | lia |].
  rewrite Hv. lia.
Qed.

Lemma binary_round_ge :
  Zpos mB * 2 ^ (eB + 1074) <= Zpos m * 2 ^ (e + 1074) ->
  exists v, mag (binary_round prec emax s m e) = Some v /\
            Zpos mB * 2 ^ (eB + 1074) <= v.
Proof.
  intros Hle. destruct binary_round_eq as (mz & ez & -> & Hez & Hpre & Hv).
  apply round_ge with (K := 1074);
    [lia | lia | reflexivity | exact Hpre | exact HB | lia | lia |].
  rewrite Hv. lia.
Qed.

End Round.

(** *** Subtraction of positive finite floats *)

Section Sub.

Variables (mx my : positive) (ex ey : Z).
Hypothesis Hx : bounded prec emax mx ex = true.
Hypothesis Hy : bounded prec emax my ey = true.
Hypothesis Hlt : Zpos my * 2 ^ (ey + 1074) < Zpos mx * 2 ^ (ex + 1074).

Lemma SFsub_finite_eq :
  exists p : positive,
    SFsub prec emax (S754_finite false mx ex) (S754_finite false my ey)
      = binary_round prec emax false p (Z.min ex ey) /\
    Zpos p * 2 ^ (Z.min ex ey + 1074)
      = Zpos mx * 2 ^ (ex + 1074) - Zpos my * 2 ^ (ey + 1074).
Proof.
  pose proof (bounded_inv _ _ Hx) as (Hex & _).
  pose proof (bounded_inv _ _ Hy) as (Hey & _).
  cbn [SFsub cond_Zopp].
  destruct (shl_align_spec mx ex (Z.min ex ey)) as [_ Hmx].
  destruct (shl_align_spec my ey (Z.min ex ey)) as [_ Hmy].
  rewrite Hmx, Hmy.
  rewrite (Z.min_r ex (Z.min ex ey)), (Z.min_r ey (Z.min ex ey)) by lia.
  set (ez := Z.min ex ey).
  assert (Hez : -1074 <= ez) by (unfold ez; lia).
  pose proof (pow2_pos (ez + 1074) ltac:(lia)) as HQ.
  assert (Hval : (Zpos mx * 2 ^ (ex - ez) - Zpos my * 2 ^ (ey - ez)) * 2 ^ (ez + 1074)
                 = Zpos mx * 2 ^ (ex + 1074) - Zpos my * 2 ^ (ey + 1074)).
  { rewrite Z.mul_sub_distr_r, <- !Z.mul_assoc, <- !Z.pow_add_r by (unfold ez; lia).
    f_equal; f_equal; f_equal; lia. }
  destruct (Zpos mx * 2 ^ (ex - ez) - Zpos my * 2 ^ (ey - ez)) as [ | p | p] eqn:HM.
  - exfalso. lia.
  - exists p. split; [reflexivity | exact Hval].
  - exfalso. nia.
Qed.

Lemma SFsub_finite_range (mL mH : positive) (eL eH : Z) :
  bounded prec emax mL eL = true -> bounded prec emax mH eH = true ->
  Zpos mL * 2 ^ (eL + 1074)
    <= Zpos mx * 2 ^ (ex + 1074) - Zpos my * 2 ^ (ey + 1074)
    <= Zpos mH * 2 ^ (eH + 1074) ->
  valid_binary (SFsub prec emax (S754_finite false mx ex) (S754_finite false my ey)) = true /\
  sign_of (SFsub prec emax (S754_finite false mx ex) (S754_finite false my ey)) = false /\
  exists v,
    mag (SFsub prec emax (S754_finite false mx ex) (S754_finite false my ey)) = Some v /\
    Zpos mL * 2 ^ (eL + 1074) <= v <= Zpos mH * 2 ^ (eH + 1074).
Proof.
  intros HL HH [Hlo Hhi].
  pose proof (bounded_inv _ _ Hx) as (Hex & _).
  pose proof (bounded_inv _ _ Hy) as (Hey & _).
  destruct SFsub_finite_eq as (p & -> & Hp).
  assert (Hez : -1074 <= Z.min ex ey) by lia.
  destruct (binary_round_valid false p (Z.min ex ey) Hez) as (Hv & Hs & _).
  destruct (binary_round_le false p (Z.min ex ey) Hez mH eH HH) as (v1 & Hv1 & Hle1);
    [rewrite Hp; exact Hhi|].
  destruct (binary_round_ge false p (Z.min ex ey) Hez mL eL HL) as (v2 & Hv2 & Hle2);
    [rewrite Hp; exact Hlo|].
  split; [exact Hv|]. split; [exact Hs|].
  exists v1. split; [exact Hv1|]. rewrite Hv1 in Hv2. injection Hv2 as ->. lia.
Qed.

End Sub.

(** *** Division of finite floats *)

Lemma new_location_exact (D : Z) : new_location D 0 = loc_Exact.
Proof.
  unfold new_location, new_location_even, new_location_odd.
  destruct (Z.even D); reflexivity.
Qed.

Section Div.

Variables (sx sy : bool) (mx my : positive) (ex ey : Z).
Hypothesis Hx : bounded prec emax mx ex = true.
Hypothesis Hy : bounded prec emax my ey = true.

Lemma SFdiv_finite_eq :
  exists e' : Z,
    SFdiv prec emax (S754_finite sx mx ex) (S754_finite sy my ey)
      = binary_round_aux prec emax (xorb sx sy)
          (Zpos mx * 2 ^ (ex - ey - e') / Zpos my) e'
          (new_location (Zpos my) ((Zpos mx * 2 ^ (ex - ey - e')) mod Zpos my)) /\
    -2045 <= e' <= ex - ey /\
    e' <= fexp64 (Zdigits2 (Zpos mx * 2 ^ (ex - ey - e') / Zpos my) + e').
Proof.
  pose proof (bounded_inv _ _ Hx) as (Hex & _).
  pose proof (bounded_inv _ _ Hy) as (Hey & _).
  cbn [SFdiv]. unfold SFdiv_core_binary. change (fexp prec emax) with fexp64.
  pose proof (Zdigits2_bounds (Zpos mx) ltac:(lia)) as [Hlo1 Hhi1].
  pose proof (Zdigits2_bounds (Zpos my) ltac:(lia)) as [Hlo2 Hhi2].
  assert (Hd1 : 0 < Zdigits2 (Zpos mx)) by (cbn; lia).
  assert (Hd2 : 0 < Zdigits2 (Zpos my)) by (cbn; lia).
  remember (Zdigits2 (Zpos mx)) as d1 eqn:Hd1e.
  remember (Zdigits2 (Zpos my)) as d2 eqn:Hd2e.
  remember (Z.min (fexp64 (d1 + ex - (d2 + ey))) (ex - ey)) as e' eqn:He'.
  exists e'.
  assert (Hs : 0 <= ex - ey - e') by lia.
  assert (HM : match ex - ey - e' with
               | 0 => Zpos mx
               | Zpos _ => Z.shiftl (Zpos mx) (ex - ey - e')
               | Zneg _ => 0
               end = Zpos mx * 2 ^ (ex - ey - e')).
  { destruct (ex - ey - e') as [ | p | p] eqn:Hse; [cbn; lia | | lia].
    apply Z.shiftl_mul_pow2. lia. }
  rewrite HM. clear HM.
  remember (ex - ey - e') as sh eqn:Hsh.
  pose proof (pow2_pos sh Hs) as HP.
  remember (Zpos mx * 2 ^ sh) as M eqn:HMd.
  assert (Hqr : Z.div_eucl M (Zpos my) = (M / Zpos my, M mod Zpos my)).
  { unfold Z.div, Z.modulo. destruct (Z.div_eucl M (Zpos my)). reflexivity. }
  rewrite Hqr.
  split; [reflexivity|]. split; [unfold fexp64 in He'; lia|].
  (* the quotient has enough digits *)
  assert (Hdig : d1 - d2 + sh <= Zdigits2 (M / Zpos my)).
  { destruct (Z_le_gt_dec (d1 - d2 + sh) 0) as [Hk | Hk].
    - pose proof (Zdigits2_nonneg (M / Zpos my)). lia.
    - assert (d1 - d2 + sh - 1 < Zdigits2 (M / Zpos my)); [|lia].
      apply Zdigits2_gt; [lia|].
      apply Z.div_le_lower_bound; [lia|].
      apply Z.le_trans with (2 ^ d2 * 2 ^ (d1 - d2 + sh - 1)).
      + apply Z.mul_le_mono_nonneg_r; [apply Z.pow_nonneg|]; lia.
      + rewrite <- Z.pow_add_r by lia.
        replace (d2 + (d1 - d2 + sh - 1)) with (d1 - 1 + sh) by lia.
        rewrite Z.pow_add_r by lia. subst M.
        apply Z.mul_le_mono_nonneg_r; lia. }
  unfold fexp64 in *. lia.
Qed.

Lemma SFdiv_finite_valid :
  valid_binary (SFdiv prec emax (S754_finite sx mx ex) (S754_finite sy my ey)) = true /\
  sign_of (SFdiv prec emax (S754_finite sx mx ex) (S754_finite sy my ey)) = xorb sx sy /\
  mag (SFdiv prec emax (S754_finite sx mx ex) (S754_finite sy my ey)) <> None.
Proof.
  destruct SFdiv_finite_eq as (e' & -> & He' & Hpre).
  pose proof (pow2_pos (ex - ey - e') ltac:(lia)).
  apply round_valid; [nia | lia | | exact Hpre].
  intros ->. apply new_location_exact.
Qed.

Lemma SFdiv_finite_le (mB : positive) (eB : Z) :
  bounded prec emax mB eB = true ->
  Zpos mx * 2 ^ (ex + 1074) * 2 ^ 1074
    <= Zpos mB * 2 ^ (eB + 1074) * (Zpos my * 2 ^ (ey + 1074)) ->
  exists v,
    mag (SFdiv prec emax (S754_finite sx mx ex) (S754_finite sy my ey)) = Some v /\
    v <= Zpos mB * 2 ^ (eB + 1074).
Proof.
  intros HB Hle.
  pose proof (bounded_inv _ _ Hx) as (Hex & _).
  pose proof (bounded_inv _ _ Hy) as (Hey & _).
  pose proof (bounded_inv _ _ HB) as (HeB & _).
  destruct SFdiv_finite_eq as (e' & -> & He' & Hpre).
  pose proof (pow2_pos (ex - ey - e') ltac:(lia)).
  apply round_le with (K := 2148);
    [nia | lia | | exact Hpre | exact HB | lia | lia |].
  { intros ->. apply new_location_exact. }
  rewrite <- Z.mul_assoc, <- Z.pow_add_r by lia.
  replace (ex - ey - e' + (e' + 2148)) with (ex - ey + 2148) by lia.
  pose proof (pow2_pos (ey + 1074) ltac:(lia)) as HQ.
  apply (Z.mul_le_mono_pos_r _ _ (2 ^ (ey + 1074))); [exact HQ|].
  rewrite <- !Z.mul_assoc, <- !Z.pow_add_r by lia.
  replace (ex - ey + 2148 + (ey + 1074)) with (ex + 1074 + 1074 + 1074) by lia.
  replace (eB + 2148 + (ey + 1074)) with (eB + 1074 + (ey + 1074) + 1074) by lia.
  rewrite (Z.pow_add_r 2 (ex + 1074 + 1074) 1074) by lia.
  rewrite (Z.pow_add_r 2 (ex + 1074) 1074) by lia.
  rewrite (Z.pow_add_r 2 (eB + 1074 + (ey + 1074)) 1074) by lia.
  rewrite (Z.pow_add_r 2 (eB + 1074) (ey + 1074)) by lia.
  remember (2 ^ 1074) as T. assert (0 < T) by (subst T; reflexivity).
  remember (2 ^ (ex + 1074)) as X. remember (2 ^ (ey + 1074)) as Y.
  remember (2 ^ (eB + 1074)) as B.
  rewrite !Z.mul_assoc. apply Z.mul_le_mono_nonneg_r; [lia|]. lia.
Qed.

End Div.

Lemma leb_fval (x y : float) :
  (x <=? y)%float =
  match fval x, fval y with
  | Some a, Some b => a <=? b
  | _, _ => false
  end.
Proof.
  rewrite leb_spec. unfold SFleb, fval.
  rewrite SFcompare_ord by apply Prim2SF_valid.
  destruct (ord (Prim2SF x)) as [a | ], (ord (Prim2SF y)) as [b | ];
    cbn [compare_ord]; reflexivity.
Qed.

Lemma ltb_fval (x y : float) :
  (x <? y)%float =
  match fval x, fval y with
  | Some a, Some b => a <? b
  | _, _ => false
  end.
Proof.
  rewrite ltb_spec. unfold SFltb, fval.
  rewrite SFcompare_ord by apply Prim2SF_valid.
  destruct (ord (Prim2SF x)) as [a | ], (ord (Prim2SF y)) as [b | ];
    cbn [compare_ord]; reflexivity.
Qed.

Lemma leb_true_iff (x y : float) :
  (x <=? y)%float = true <->
  exists a b, fval x = Some a /\ fval y = Some b /\ a <= b.
Proof.
  rewrite leb_fval. split.
  - destruct (fval x) as [a | ], (fval y) as [b | ]; try discriminate.
    intros H. exists a, b. repeat split. now apply Z.leb_le.
  - intros (a & b & -> & -> & H). now apply Z.leb_le.
Qed.

Lemma ltb_true_iff (x y : float) :
  (x <? y)%float = true <->
  exists a b, fval x = Some a /\ fval y = Some b /\ a < b.
Proof.
  rewrite ltb_fval. split.
  - destruct (fval x) as [a | ], (fval y) as [b | ]; try discriminate.
    intros H. exists a, b. repeat split. now apply Z.ltb_lt.
  - intros (a & b & -> & -> & H). now apply Z.ltb_lt.
Qed.

Lemma Some_inj {A : Type} (a b : A) : Some a = Some b -> a = b.
Proof. congruence. Qed.

Lemma fval_nonneg_inv (x : float) (a : Z) :
  fval x = Some a -> 0 <= a -> nonneg_kind x a.
Proof.
  unfold fval. intros Hx Ha. pose proof (Prim2SF_valid x) as Hv.
  assert (HP : 0 < top) by (unfold top; apply pow2_pos; lia).
  destruct (Prim2SF x) as [s | s | | s m e] eqn:Hp;
    cbv beta iota delta [ord sval] in Hx;
    try discriminate; apply Some_inj in Hx; subst a.
  - now apply Kzero with s.
  - destruct s; cbv beta iota delta [cond_Zopp] in *; [lia|]. now apply Kinf.
  - cbn [valid_binary SpecFloat.valid_binary] in Hv.
    pose proof (sval_finite_bound s m e Hv).
    destruct s; cbv beta iota delta [cond_Zopp] in *; [lia|].
    now apply Kfinite with m e.
Qed.

Lemma fval_of_mag (r : spec_float) (x : float) (v : Z) :
  Prim2SF x = r -> sign_of r = false -> mag r = Some v -> fval x = Some v.
Proof.
  intros Hr Hs Hm. unfold fval. rewrite Hr, ord_mag, Hs, Hm. reflexivity.
Qed.

Lemma mag_nonneg (r : spec_float) (v : Z) : mag r = Some v -> 0 <= v.
Proof.
  destruct r as [s | s | | s m e]; cbv beta iota delta [mag]; intros H;
    try discriminate; apply Some_inj in H; subst v.
  - lia.
  - unfold top. apply Z.lt_le_incl, pow2_pos; lia.
  - pose proof (Z.pow_nonneg 2 (e + 1074) ltac:(lia)). lia.
Qed.

(** A product of two finite non-negative floats. *)
Lemma mul_fval (x y : float) (a b : Z) :
  fval x = Some a -> fval y = Some b ->
  0 <= a < top -> 0 <= b < top ->
  exists c, fval (x * y) = Some c /\ 0 <= c /\
    forall (h : float) (vh : Z),
      fval h = Some vh -> 0 < vh < top ->
      a * b <= vh * 2 ^ 1074 -> c <= vh.
Proof.
  intros Hx Hy Ha Hb.
  pose proof (mul_spec x y) as Hs. unfold SF64mul in Hs.
  destruct (fval_nonneg_inv x a Hx ltac:(lia)) as [sx Hpx Ha0 | mx ex Hpx Hbx Hax _ | Hpx Hax];
    [| | lia];
  (destruct (fval_nonneg_inv y b Hy ltac:(lia)) as [sy Hpy Hb0 | my ey Hpy Hby Hbx' _ | Hpy Hbx'];
    [| | lia]);
  rewrite Hpx, Hpy in Hs; cbn [SFmul] in Hs.
  1-3: exists 0; split;
        [unfold fval; rewrite Hs; reflexivity
        | split; [lia | intros; lia]].
  destruct (SFmul_finite_valid false false mx my ex ey Hbx Hby) as (_ & Hsign & Hmag).
  cbn [SFmul xorb] in Hsign, Hmag.
  destruct (mag (binary_round_aux prec emax false (Zpos (mx * my)) (ex + ey) loc_Exact))
    as [c | ] eqn:Hc; [|congruence].
  exists c. split; [exact (fval_of_mag _ _ _ Hs Hsign Hc)|].
  split; [exact (mag_nonneg _ _ Hc)|].
  intros h vh Hh Hvh Hle.
  destruct (fval_nonneg_inv h vh Hh ltac:(lia)) as [? ? ? | mB eB HpB HbB HvB _ | ? ?];
    [lia | | lia].
  destruct (SFmul_finite_le false false mx my ex ey Hbx Hby mB eB HbB) as (v & Hv & Hvle).
  { rewrite <- Hax, <- Hbx', <- HvB. exact Hle. }
  cbn [SFmul xorb] in Hv. rewrite Hc in Hv. apply Some_inj in Hv. lia.
Qed.

(** A difference of finite non-negative floats that lies between two
    positive floats. *)
Lemma sub_fval (x y lo hi : float) (a b vl vh : Z) :
  fval x = Some a -> fval y = Some b -> fval lo = Some vl -> fval hi = Some vh ->
  0 <= b -> a < top -> 0 < vl -> vh < top -> vl <= a - b <= vh ->
  exists c, fval (x - y) = Some c /\ vl <= c <= vh.
Proof.
  intros Hx Hy Hlo Hhi Hb Ha Hvl Hvh Hr.
  pose proof (sub_spec x y) as Hs. unfold SF64sub in Hs.
  destruct (fval_nonneg_inv x a Hx ltac:(lia)) as [? ? ? | mx ex Hpx Hbx Hax _ | ? ?];
    [lia | | lia].
  destruct (fval_nonneg_inv lo vl Hlo ltac:(lia)) as [? ? ? | mL eL HpL HbL HvL _ | ? ?];
    [lia | | lia].
  destruct (fval_nonneg_inv hi vh Hhi ltac:(lia)) as [? ? ? | mH eH HpH HbH HvH _ | ? ?];
    [lia | | lia].
  destruct (fval_nonneg_inv y b Hy Hb) as [sy Hpy Hb0 | my ey Hpy Hby Hbe _ | ? ?];
    [ | | lia]; rewrite Hpx, Hpy in Hs.
  - cbn [SFsub] in Hs. exists a. split; [|lia].
    unfold fval. rewrite Hs, <- Hpx. exact Hx.
  - destruct (SFsub_finite_range mx my ex ey Hbx Hby ltac:(lia) mL mH eL eH HbL HbH)
      as (_ & Hsign & c & Hc & Hcr); [lia|].
    exists c. split; [exact (fval_of_mag _ _ _ Hs Hsign Hc)|lia].
Qed.

(** A quotient of a non-negative float by a finite positive one. *)
Lemma div_fval (x y : float) (a b : Z) :
  fval x = Some a -> fval y = Some b -> 0 <= a -> 0 < b < top ->
  exists c, fval (x / y) = Some c /\ 0 <= c /\
    (a < top ->
     forall (h : float) (vh : Z),
       fval h = Some vh -> 0 < vh < top ->
       a * 2 ^ 1074 <= vh * b -> c <= vh).
Proof.
  intros Hx Hy Ha Hb.
  pose proof (div_spec x y) as Hs. unfold SF64div in Hs.
  destruct (fval_nonneg_inv y b Hy ltac:(lia)) as [? ? ? | my ey Hpy Hby Hbe _ | ? ?];
    [lia | | lia].
  destruct (fval_nonneg_inv x a Hx Ha) as [sx Hpx Ha0 | mx ex Hpx Hbx Hax _ | Hpx Hax];
    rewrite Hpx, Hpy in Hs.
  - cbn [SFdiv] in Hs. exists 0. split; [unfold fval; rewrite Hs; reflexivity|].
    split; [lia|]. intros; lia.
  - destruct (SFdiv_finite_valid false false mx my ex ey Hbx Hby) as (_ & Hsign & Hmag).
    cbn [xorb] in Hsign.
    destruct (mag (SFdiv prec emax (S754_finite false mx ex) (S754_finite false my ey)))
      as [c | ] eqn:Hc; [|congruence].
    exists c. split; [exact (fval_of_mag _ _ _ Hs Hsign Hc)|].
    split; [exact (mag_nonneg _ _ Hc)|].
    intros _ h vh Hh Hvh Hle.
    destruct (fval_nonneg_inv h vh Hh ltac:(lia)) as [? ? ? | mB eB HpB HbB HvB _ | ? ?];
      [lia | | lia].
    destruct (SFdiv_finite_le false false mx my ex ey Hbx Hby mB eB HbB) as (v & Hv & Hvle).
    { rewrite <- Hax, <- Hbe, <- HvB. exact Hle. }
    rewrite Hc in Hv. apply Some_inj in Hv. lia.
  - cbn [SFdiv xorb] in Hs. exists (top).
    split; [unfold fval; rewrite Hs; reflexivity|].
    split; [lia|]. intros; lia.
Qed.

(** *** The order of floats *)

Lemma fval_zero : fval 0 = Some 0.
Proof. reflexivity. Qed.

Lemma fval_infinity : fval infinity = Some (top).
Proof. reflexivity. Qed.

Lemma fval_one : fval 1 = Some (2 ^ 1074).
Proof. vm_compute. reflexivity. Qed.

Lemma unit_lt_top : 0 < 2 ^ 1074 < top.
Proof.
  split; [apply pow2_pos; lia|]. unfold top. apply Z.pow_lt_mono_r; lia.
Qed.

Lemma leb_trans (x y z : float) :
  (x <=? y)%float = true -> (y <=? z)%float = true -> (x <=? z)%float = true.
Proof.
  rewrite !leb_true_iff. intros (a & b & Ha & Hb & Hab) (b' & c & Hb' & Hc & Hbc).
  exists a, c. rewrite Hb in Hb'. apply Some_inj in Hb'. repeat split; try assumption. lia.
Qed.

Lemma ltb_leb_trans (x y z : float) :
  (x <? y)%float = true -> (y <=? z)%float = true -> (x <? z)%float = true.
Proof.
  rewrite leb_true_iff, !ltb_true_iff.
  intros (a & b & Ha & Hb & Hab) (b' & c & Hb' & Hc & Hbc).
  exists a, c. rewrite Hb in Hb'. apply Some_inj in Hb'. repeat split; try assumption. lia.
Qed.

Lemma leb_ltb_trans (x y z : float) :
  (x <=? y)%float = true -> (y <? z)%float = true -> (x <? z)%float = true.
Proof.
  rewrite leb_true_iff, !ltb_true_iff.
  intros (a & b & Ha & Hb & Hab) (b' & c & Hb' & Hc & Hbc).
  exists a, c. rewrite Hb in Hb'. apply Some_inj in Hb'. repeat split; try assumption. lia.
Qed.

Lemma ltb_leb (x y : float) : (x <? y)%float = true -> (x <=? y)%float = true.
Proof.
  rewrite leb_true_iff, ltb_true_iff. intros (a & b & Ha & Hb & Hab).
  exists a, b. repeat split; try assumption. lia.
Qed.

Lemma ltb_trans (x y z : float) :
  (x <? y)%float = true -> (y <? z)%float = true -> (x <? z)%float = true.
Proof. intros H1 H2. exact (ltb_leb_trans x y z H1 (ltb_leb y z H2)). Qed.

Lemma ltb_not_leb (x y : float) : (x <? y)%float = true -> (y <=? x)%float = false.
Proof.
  rewrite ltb_true_iff. intros (a & b & Ha & Hb & Hab).
  rewrite leb_fval, Ha, Hb. apply Z.leb_gt. exact Hab.
Qed.


(** Of two comparable floats, one is below the other. *)
Lemma not_leb_ltb (x y : float) :
  (x <=? y)%float = false -> fval x <> None -> fval y <> None ->
  (y <? x)%float = true.
Proof.
  rewrite leb_fval, ltb_fval.
  destruct (fval x) as [a | ], (fval y) as [b | ]; try congruence.
  intros H _ _. apply Z.leb_gt in H. now apply Z.ltb_lt.
Qed.

Lemma leb_comparable (x y : float) :
  (x <=? y)%float = true -> fval x <> None /\ fval y <> None.
Proof.
  rewrite leb_true_iff. intros (a & b & -> & -> & _). split; discriminate.
Qed.

Lemma ltb_comparable (x y : float) :
  (x <? y)%float = true -> fval x <> None /\ fval y <> None.
Proof.
  rewrite ltb_true_iff. intros (a & b & -> & -> & _). split; discriminate.
Qed.

(** Non-negative, and finite positive, in terms of [fval]. *)
Lemma nonneg_fval (x : float) :
  (0 <=? x)%float = true <-> exists a, fval x = Some a /\ 0 <= a.
Proof.
  rewrite leb_true_iff, fval_zero. split.
  - intros (z & a & Hz & Ha & Hle). apply Some_inj in Hz. exists a. split; [assumption|lia].
  - intros (a & Ha & Hle). now exists 0, a.
Qed.

Lemma pos_fval (x : float) :
  (0 <? x)%float = true <-> exists a, fval x = Some a /\ 0 < a.
Proof.
  rewrite ltb_true_iff, fval_zero. split.
  - intros (z & a & Hz & Ha & Hle). apply Some_inj in Hz. exists a. split; [assumption|lia].
  - intros (a & Ha & Hle). now exists 0, a.
Qed.

Lemma finite_fval (x : float) :
  (x <? infinity)%float = true <-> exists a, fval x = Some a /\ a < top.
Proof.
  rewrite ltb_true_iff, fval_infinity. split.
  - intros (a & t & Ha & Ht & Hle). apply Some_inj in Ht. exists a. split; [assumption|lia].
  - intros (a & Ha & Hle). now exists a, (top).
Qed.

(** *** Bounds kept by the operations *)

(** [x / y] for [0 <= x <= y], [y] finite and positive. *)
Lemma div_unit (x y : float) :
  (0 <=? x)%float = true -> (x <=? y)%float = true ->
  (0 <? y)%float = true -> (y <? infinity)%float = true ->
  (0 <=? x / y)%float = true /\ (x / y <=? 1)%float = true.
Proof.
  intros Hx Hxy Hy Hfin.
  apply nonneg_fval in Hx as (a & Ha & Ha0).
  apply pos_fval in Hy as (b & Hb & Hb0).
  apply finite_fval in Hfin as (b' & Hb' & Hbfin).
  rewrite Hb in Hb'. apply Some_inj in Hb'. subst b'.
  apply leb_true_iff in Hxy as (a' & b' & Ha' & Hb' & Hab).
  rewrite Ha in Ha'. rewrite Hb in Hb'. apply Some_inj in Ha', Hb'. subst a' b'.
  destruct (div_fval x y a b Ha Hb Ha0 ltac:(lia)) as (c & Hc & Hc0 & Hle).
  split; [apply nonneg_fval; now exists c|].
  apply leb_true_iff. exists c, (2 ^ 1074). split; [exact Hc|].
  split; [exact fval_one|].
  pose proof unit_lt_top as HU.
  apply (Hle ltac:(lia) 1%float); [exact fval_one | exact HU |].
  remember (2 ^ 1074) as U. rewrite Z.mul_comm.
  apply Z.mul_le_mono_nonneg_l; lia.
Qed.

(** [x / y] for [0 <= x], [y] finite and positive. *)
Lemma div_nonneg (x y : float) :
  (0 <=? x)%float = true ->
  (0 <? y)%float = true -> (y <? infinity)%float = true ->
  (0 <=? x / y)%float = true.
Proof.
  intros Hx Hy Hfin.
  apply nonneg_fval in Hx as (a & Ha & Ha0).
  apply pos_fval in Hy as (b & Hb & Hb0).
  apply finite_fval in Hfin as (b' & Hb' & Hbfin).
  rewrite Hb in Hb'. apply Some_inj in Hb'. subst b'.
  destruct (div_fval x y a b Ha Hb Ha0 ltac:(lia)) as (c & Hc & Hc0 & _).
  apply nonneg_fval. now exists c.
Qed.

(** [x * y] for [0 <= x <= 1] and [0 <= y <= h], [h] finite and positive. *)
Lemma mul_unit (x y h : float) :
  (0 <=? x)%float = true -> (x <=? 1)%float = true ->
  (0 <=? y)%float = true -> (y <=? h)%float = true ->
  (0 <? h)%float = true -> (h <? infinity)%float = true ->
  (0 <=? x * y)%float = true /\ (x * y <=? h)%float = true.
Proof.
  intros Hx Hx1 Hy Hyh Hh Hfin.
  apply nonneg_fval in Hx as (a & Ha & Ha0).
  apply nonneg_fval in Hy as (b & Hb & Hb0).
  apply pos_fval in Hh as (vh & Hvh & Hh0).
  apply finite_fval in Hfin as (vh' & Hvh' & Hhfin).
  rewrite Hvh in Hvh'. apply Some_inj in Hvh'. subst vh'.
  apply leb_true_iff in Hx1 as (a' & o & Ha' & Ho & Hao).
  rewrite Ha in Ha'. rewrite fval_one in Ho. apply Some_inj in Ha', Ho. subst a' o.
  apply leb_true_iff in Hyh as (b' & vh' & Hb' & Hvh' & Hbh).
  rewrite Hb in Hb'. rewrite Hvh in Hvh'. apply Some_inj in Hb', Hvh'. subst b' vh'.
  pose proof unit_lt_top as HU. remember (2 ^ 1074) as U.
  destruct (mul_fval x y a b Ha Hb ltac:(lia) ltac:(lia)) as (c & Hc & Hc0 & Hle).
  split; [apply nonneg_fval; now exists c|].
  apply leb_true_iff. exists c, vh. split; [exact Hc|]. split; [exact Hvh|].
  apply (Hle h vh Hvh ltac:(lia)).
  rewrite <- HeqU, (Z.mul_comm vh).
  apply Z.mul_le_mono_nonneg; lia.
Qed.

(** [x * y] for finite non-negative [x] and [y]. *)
Lemma mul_nonneg (x y : float) :
  (0 <=? x)%float = true -> (x <? infinity)%float = true ->
  (0 <=? y)%float = true -> (y <? infinity)%float = true ->
  (0 <=? x * y)%float = true.
Proof.
  intros Hx Hxf Hy Hyf.
  apply nonneg_fval in Hx as (a & Ha & Ha0).
  apply nonneg_fval in Hy as (b & Hb & Hb0).
  apply finite_fval in Hxf as (a' & Ha' & Haf).
  apply finite_fval in Hyf as (b' & Hb' & Hbf).
  rewrite Ha in Ha'. rewrite Hb in Hb'. apply Some_inj in Ha', Hb'. subst a' b'.
  destruct (mul_fval x y a b Ha Hb ltac:(lia) ltac:(lia)) as (c & Hc & Hc0 & _).
  apply nonneg_fval. now exists c.
Qed.

(** [x - y] for [0 <= y <= y']. *)
Lemma sub_range (x y y' lo : float) :
  (0 <=? y)%float = true -> (y <=? y')%float = true ->
  sub_side x y' lo = true ->
  (lo <=? x - y)%float = true /\ (x - y <=? x)%float = true.
Proof.
  intros Hy Hyy Hside. unfold sub_side in Hside.
  apply nonneg_fval in Hy as (b & Hb & Hb0).
  apply leb_true_iff in Hyy as (b1 & b' & Hb1 & Hb' & Hbb).
  rewrite Hb in Hb1. apply Some_inj in Hb1. subst b1.
  rewrite Hb' in Hside.
  destruct (fval x) as [a | ] eqn:Ha; [|discriminate].
  destruct (fval lo) as [l | ] eqn:Hl; [|discriminate].
  apply andb_prop in Hside as [Hside Hafin].
  apply andb_prop in Hside as [Hl0 Hsum].
  apply Z.ltb_lt in Hl0, Hafin. apply Z.leb_le in Hsum.
  destruct (sub_fval x y lo x a b l a Ha Hb Hl Ha Hb0 Hafin Hl0 Hafin ltac:(lia))
    as (c & Hc & Hcr).
  split; apply leb_true_iff.
  - exists l, c. split; [assumption|]. split; [assumption | lia].
  - exists c, a. split; [assumption|]. split; [assumption | lia].
Qed.

(** *** Addition of positive finite floats *)

Section Add.

Variables (mx my : positive) (ex ey : Z).
Hypothesis Hx : bounded prec emax mx ex = true.
Hypothesis Hy : bounded prec emax my ey = true.

Lemma SFadd_finite_eq :
  exists p : positive,
    SFadd prec emax (S754_finite false mx ex) (S754_finite false my ey)
      = binary_round prec emax false p (Z.min ex ey) /\
    Zpos p * 2 ^ (Z.min ex ey + 1074)
      = Zpos mx * 2 ^ (ex + 1074) + Zpos my * 2 ^ (ey + 1074).
Proof.
  pose proof (bounded_inv _ _ Hx) as (Hex & _).
  pose proof (bounded_inv _ _ Hy) as (Hey & _).
  cbn [SFadd cond_Zopp].
  destruct (shl_align_spec mx ex (Z.min ex ey)) as [_ Hmx].
  destruct (shl_align_spec my ey (Z.min ex ey)) as [_ Hmy].
  rewrite Hmx, Hmy.
  rewrite (Z.min_r ex (Z.min ex ey)), (Z.min_r ey (Z.min ex ey)) by lia.
  set (ez := Z.min ex ey).
  assert (Hez : -1074 <= ez) by (unfold ez; lia).
  pose proof (pow2_pos (ex - ez) ltac:(unfold ez; lia)) as HX.
  pose proof (pow2_pos (ey - ez) ltac:(unfold ez; lia)) as HY.
  assert (Hval : (Zpos mx * 2 ^ (ex - ez) + Zpos my * 2 ^ (ey - ez)) * 2 ^ (ez + 1074)
                 = Zpos mx * 2 ^ (ex + 1074) + Zpos my * 2 ^ (ey + 1074)).
  { rewrite Z.mul_add_distr_r, <- !Z.mul_assoc, <- !Z.pow_add_r by (unfold ez; lia).
    f_equal; f_equal; f_equal; lia. }
  destruct (Zpos mx * 2 ^ (ex - ez) + Zpos my * 2 ^ (ey - ez)) as [ | p | p] eqn:HM.
  - exfalso. nia.
  - exists p. split; [reflexivity | exact Hval].
  - exfalso. nia.
Qed.

Lemma SFadd_finite_le (mH : positive) (eH : Z) :
  bounded prec emax mH eH = true ->
  Zpos mx * 2 ^ (ex + 1074) + Zpos my * 2 ^ (ey + 1074)
    <= Zpos mH * 2 ^ (eH + 1074) ->
  sign_of (SFadd prec emax (S754_finite false mx ex) (S754_finite false my ey)) = false /\
  exists v,
    mag (SFadd prec emax (S754_finite false mx ex) (S754_finite false my ey)) = Some v /\
    v <= Zpos mH * 2 ^ (eH + 1074).
Proof.
  intros HH Hle.
  pose proof (bounded_inv _ _ Hx) as (Hex & _).
  pose proof (bounded_inv _ _ Hy) as (Hey & _).
  destruct SFadd_finite_eq as (p & -> & Hp).
  assert (Hez : -1074 <= Z.min ex ey) by lia.
  destruct (binary_round_valid false p (Z.min ex ey) Hez) as (_ & Hs & _).
  split; [exact Hs|].
  apply binary_round_le; [exact Hez | exact HH |]. rewrite Hp. exact Hle.
Qed.

End Add.

(** A sum of finite non-negative floats below a finite positive float. *)
Lemma add_fval (x y h : float) (a b vh : Z) :
  fval x = Some a -> fval y = Some b -> fval h = Some vh ->
  0 <= a -> 0 <= b -> 0 < vh < top -> a + b <= vh ->
  exists c, fval (x + y) = Some c /\ 0 <= c <= vh.
Proof.
  intros Hx Hy Hh Ha Hb Hvh Hle.
  pose proof (add_spec x y) as Hs. unfold SF64add in Hs.
  destruct (fval_nonneg_inv h vh Hh ltac:(lia)) as [? ? ? | mH eH HpH HbH HvH _ | ? ?];
    [lia | | lia].
  destruct (fval_nonneg_inv x a Hx Ha) as [sx Hpx Ha0 | mx ex Hpx Hbx Hax Har | Hpx Hax];
    [| | lia];
  (destruct (fval_nonneg_inv y b Hy Hb) as [sy Hpy Hb0 | my ey Hpy Hby Hbe Hbr | Hpy Hbx'];
    [| | lia]);
  rewrite Hpx, Hpy in Hs.
  - exists 0. split; [|lia]. unfold fval. rewrite Hs.
    destruct sx, sy; reflexivity.
  - exists b. split; [|lia]. unfold fval. rewrite Hs. cbn [SFadd].
    rewrite <- Hpy. exact Hy.
  - exists a. split; [|lia]. unfold fval. rewrite Hs. cbn [SFadd].
    rewrite <- Hpx. exact Hx.
  - destruct (SFadd_finite_le mx my ex ey Hbx Hby mH eH HbH) as (Hsign & c & Hc & Hcle);
      [lia|].
    exists c. split; [exact (fval_of_mag _ _ _ Hs Hsign Hc)|].
    split; [exact (mag_nonneg _ _ Hc) | lia].
Qed.

Lemma add_range (x y hx hy h : float) :
  (0 <=? x)%float = true -> (x <=? hx)%float = true ->
  (0 <=? y)%float = true -> (y <=? hy)%float = true ->
  add_side hx hy h = true ->
  (0 <=? x + y)%float = true /\ (x + y <=? h)%float = true.
Proof.
  intros Hx Hxh Hy Hyh Hside. unfold add_side in Hside.
  apply nonneg_fval in Hx as (a & Ha & Ha0).
  apply nonneg_fval in Hy as (b & Hb & Hb0).
  apply leb_true_iff in Hxh as (a1 & a' & Ha1 & Ha' & Haa).
  apply leb_true_iff in Hyh as (b1 & b' & Hb1 & Hb' & Hbb).
  rewrite Ha in Ha1. rewrite Hb in Hb1. apply Some_inj in Ha1, Hb1. subst a1 b1.
  rewrite Ha', Hb' in Hside.
  destruct (fval h) as [c | ] eqn:Hc; [|discriminate].
  apply andb_prop in Hside as [Hside Hfin].
  apply andb_prop in Hside as [Hsum Hc0].
  apply Z.ltb_lt in Hc0, Hfin. apply Z.leb_le in Hsum.
  destruct (add_fval x y h a b c Ha Hb Hc Ha0 Hb0 ltac:(lia) ltac:(lia))
    as (v & Hv & Hvr).
  split; [apply nonneg_fval; exists v; split; [assumption|lia]|].
  apply leb_true_iff. exists v, c. split; [assumption|]. split; [assumption|lia].
Qed.

(** A float between 0 and a finite float is finite. *)
Lemma bounded_is_finite (x h : float) :
  (0 <=? x)%float = true -> (x <=? h)%float = true ->
  (h <? infinity)%float = true -> is_finite x = true.
Proof.
  intros Hx Hxh Hh.
  apply nonneg_fval in Hx as (a & Ha & Ha0).
  apply leb_true_iff in Hxh as (a1 & c & Ha1 & Hc & Hac).
  apply finite_fval in Hh as (c1 & Hc1 & Hfin).
  rewrite Ha in Ha1. rewrite Hc in Hc1. apply Some_inj in Ha1, Hc1. subst a1 c1.
  unfold is_finite, is_nan, is_infinity. rewrite !eqb_spec, abs_spec.
  replace (Prim2SF infinity) with (S754_infinity false) by reflexivity.
  destruct (fval_nonneg_inv x a Ha Ha0) as [s Hp _ | m e Hp Hb _ _ | Hp Hinf];
    [| | lia]; rewrite Hp; cbn [SFabs SFeqb SFcompare].
  - reflexivity.
  - rewrite Pos.compare_cont_refl, Z.compare_refl. reflexivity.
Qed.

(** *** Rounding to nearest, ties to even

    The bounds above hold for any faithful rounding.  That the
    operations are monotone needs more: the mantissa that
    [binary_round_aux] builds is the nearest one. *)

Lemma rne_bounds (M D : Z) : M / D <= rne M D <= M / D + 1.
Proof.
  unfold rne, frac_loc, round_nearest_even.
  destruct (M mod D =? 0); [lia|].
  destruct (2 * (M mod D) ?= D); try destruct (Z.even (M / D)); lia.
Qed.

Lemma rne_exact (M D : Z) : M mod D = 0 -> rne M D = M / D.
Proof.
  intros H. unfold rne, frac_loc. rewrite H. reflexivity.
Qed.

(** Rounding to the nearest integer is monotone. *)
Lemma rne_mono (M1 D1 M2 D2 : Z) :
  0 < D1 -> 0 < D2 -> M1 * D2 <= M2 * D1 -> rne M1 D1 <= rne M2 D2.
Proof.
  intros HD1 HD2 Hle.
  pose proof (Z.div_mod M1 D1 ltac:(lia)) as E1.
  pose proof (Z.div_mod M2 D2 ltac:(lia)) as E2.
  pose proof (Z.mod_pos_bound M1 D1 HD1) as B1.
  pose proof (Z.mod_pos_bound M2 D2 HD2) as B2.
  pose proof (rne_bounds M1 D1) as R1. pose proof (rne_bounds M2 D2) as R2.
  remember (M1 / D1) as q1. remember (M2 / D2) as q2.
  remember (M1 mod D1) as r1. remember (M2 mod D2) as r2.
  assert (Hq : q1 <= q2).
  { destruct (Z_le_gt_dec q1 q2) as [ | Hgt]; [assumption|]. exfalso.
    assert (q2 + 1 <= q1) by lia.
    assert (M2 * D1 < (q2 + 1) * D2 * D1) by nia.
    assert ((q2 + 1) * D2 * D1 <= q1 * D1 * D2) by nia.
    nia. }
  destruct (Z.eq_dec q1 q2) as [Heq | Hne]; [|lia].
  subst q2.
  assert (Hr : r1 * D2 <= r2 * D1) by nia.
  unfold rne, frac_loc, round_nearest_even in *.
  rewrite <- Heqq1, <- Heqr1, <- Heq, <- Heqr2 in *.
  destruct (Z.eqb_spec r1 0) as [H1 | H1].
  { destruct (r2 =? 0); [lia|].
    destruct (2 * r2 ?= D2); try destruct (Z.even q1); lia. }
  destruct (Z.eqb_spec r2 0) as [H2 | H2]; [nia|].
  destruct (Z.compare_spec (2 * r1) D1) as [C1 | C1 | C1];
    destruct (Z.compare_spec (2 * r2) D2) as [C2 | C2 | C2];
    try destruct (Z.even q1); try lia; exfalso; nia.
Qed.
Lemma loc_of_shr_record_of_loc (m : Z) (l : location) :
  loc_of_shr_record (shr_record_of_loc m l) = l /\
  shr_m (shr_record_of_loc m l) = m.
Proof. destruct l as [ | [ | | ]]; split; reflexivity. Qed.

(** One shift halves the fraction, and keeps its location up to date. *)
Lemma shr_1_loc (M D : Z) (mrs : shr_record) :
  0 <= M -> 0 < D -> shr_loc M D mrs -> shr_loc M (D * 2) (shr_1 mrs).
Proof.
  intros HM HD [Hm Hl]. destruct mrs as [m r s]. cbn [shr_m] in Hm.
  assert (0 <= m) by (subst m; apply Z.div_pos; lia).
  rewrite shr_1_nonneg by assumption.
  split; cbn [shr_m].
  - subst m. apply Z.div_div; lia.
  - unfold frac_loc in *. rewrite Z.rem_mul_r by lia.
    rewrite <- Hm, Zmod_odd.
    pose proof (Z.mod_pos_bound M D HD) as Hx.
    remember (M mod D) as x eqn:Hxd. clear Hxd Hm.
    destruct (Z.eqb_spec x 0) as [Hx0 | Hx0].
    + destruct r, s; try discriminate. subst x.
      destruct (Z.odd m); cbn [orb loc_of_shr_record].
      * replace (0 + D * 1 =? 0) with false by (symmetry; apply Z.eqb_neq; lia).
        f_equal. symmetry. apply Z.compare_eq_iff. lia.
      * rewrite Z.mul_0_r. reflexivity.
    + assert (Hrs : r || s = true) by (destruct r, s; try reflexivity; discriminate).
      rewrite Hrs. clear Hl Hrs.
      destruct (Z.odd m); cbn [loc_of_shr_record].
      * replace (x + D * 1 =? 0) with false by (symmetry; apply Z.eqb_neq; lia).
        f_equal. symmetry. apply Z.compare_gt_iff. lia.
      * replace (x + D * 0 =? 0) with false by (symmetry; apply Z.eqb_neq; lia).
        f_equal. symmetry. apply Z.compare_lt_iff. lia.
Qed.

Lemma iter_pos_shr_1_loc (p : positive) :
  forall (M D : Z) (mrs : shr_record),
  0 <= M -> 0 < D -> shr_loc M D mrs ->
  shr_loc M (D * 2 ^ Zpos p) (iter_pos shr_1 p mrs).
Proof.
  induction p as [p IH | p IH | ]; intros M D mrs HM HD Hinv; cbn [iter_pos].
  - pose proof (pow2_pos (Zpos p) ltac:(lia)) as Hp.
    replace (D * 2 ^ Zpos p~1) with (D * 2 * 2 ^ Zpos p * 2 ^ Zpos p).
    + apply IH; [lia | nia |]. apply IH; [lia | lia |]. now apply shr_1_loc.
    + replace (Zpos p~1) with (1 + Zpos p + Zpos p) by lia.
      rewrite !Z.pow_add_r by lia. change (2 ^ 1) with 2. lia.
  - pose proof (pow2_pos (Zpos p) ltac:(lia)) as Hp.
    replace (D * 2 ^ Zpos p~0) with (D * 2 ^ Zpos p * 2 ^ Zpos p).
    + apply IH; [lia | nia |]. now apply IH.
    + replace (Zpos p~0) with (Zpos p + Zpos p) by lia.
      rewrite !Z.pow_add_r by lia. lia.
  - change (2 ^ 1) with 2. now apply shr_1_loc.
Qed.

Lemma shr_loc_shift (M D : Z) (mrs : shr_record) (e n : Z) :
  0 <= M -> 0 < D -> shr_loc M D mrs ->
  shr_loc M (D * 2 ^ Z.max n 0) (fst (shr mrs e n)) /\
  snd (shr mrs e n) = e + Z.max n 0.
Proof.
  intros HM HD Hinv. destruct n as [ | p | p]; cbn [shr fst snd].
  - change (Z.max 0 0) with 0. rewrite Z.mul_1_r, Z.add_0_r. now split.
  - rewrite Z.max_l by lia. split; [|reflexivity].
    now apply iter_pos_shr_1_loc.
  - rewrite Z.max_r by lia. change (2 ^ 0) with 1.
    rewrite Z.mul_1_r, Z.add_0_r. now split.
Qed.

Lemma huge_lt_top : 0 < huge < top.
Proof.
  unfold huge, top. split; [apply pow2_pos; lia|]. apply Z.pow_lt_mono_r; lia.
Qed.

Lemma clip_small (v : Z) : v < huge -> clip v = v.
Proof. intros H. unfold clip. now apply Z.ltb_lt in H as ->. Qed.

Lemma clip_big (v : Z) : huge <= v -> clip v = top.
Proof. intros H. unfold clip. now apply Z.ltb_ge in H as ->. Qed.

Lemma huge_split_hi : huge = 2 ^ 53 * 2 ^ 2045.
Proof. reflexivity. Qed.

Lemma huge_split_lo : huge = 2 ^ 52 * 2 ^ 2046.
Proof. reflexivity. Qed.

Lemma clip_mono (a b : Z) : a <= b -> clip a <= clip b.
Proof.
  intros H. unfold clip. pose proof huge_lt_top.
  destruct (Z.ltb_spec a huge), (Z.ltb_spec b huge); lia.
Qed.

(** The float [binary_round_aux s (M / D) e l] when [l] is the location of
    the fraction: its magnitude is the fraction rounded to the nearest
    integer, ties to even, at the canonical exponent [E]. *)
Lemma binary_round_aux_nearest (s : bool) (M D e : Z) :
  0 <= M -> 0 < D -> e <= fexp64 (Zdigits2 (M / D) + e) ->
  exists E : Z,
    e <= E /\ -1074 <= E /\
    M / (D * 2 ^ (E - e)) < 2 ^ 53 /\
    (-1074 < E -> 2 ^ 52 <= M / (D * 2 ^ (E - e))) /\
    mag (binary_round_aux prec emax s (M / D) e (frac_loc M D))
      = Some (clip (rne M (D * 2 ^ (E - e)) * 2 ^ (E + 1074))).
Proof.
  intros HM HD Hpre.
  assert (Hm0 : 0 <= M / D) by (apply Z.div_pos; lia).
  unfold binary_round_aux, shr_fexp. change (fexp prec emax) with fexp64.
  pose proof (Zdigits2_bounds (M / D)) as Hdig.
  assert (Hdig0 : M / D = 0 -> Zdigits2 (M / D) = 0) by (now intros ->).
  remember (Zdigits2 (M / D)) as d0 eqn:Hd0. clear Hd0.
  unfold fexp64 in Hpre |- *.
  remember (Z.max (d0 + e - 53) (-1074) - e) as n1 eqn:Hn1.
  assert (Hinit : shr_loc M D (shr_record_of_loc (M / D) (frac_loc M D))).
  { split; apply loc_of_shr_record_of_loc. }
  destruct (shr_loc_shift M D _ e n1 HM HD Hinit) as [Hinv1 He1].
  destruct (shr (shr_record_of_loc (M / D) (frac_loc M D)) e n1) as [mrs1 e1].
  cbn [fst snd] in Hinv1, He1. subst e1.
  assert (Hk1 : Z.max n1 0 = n1) by (clear - Hn1 Hpre; lia).
  rewrite Hk1 in *.
  assert (Hn1' : 0 <= n1) by (clear - Hn1 Hpre; lia).
  pose proof (pow2_pos n1 Hn1') as Hp1.
  destruct Hinv1 as [Hm1 Hl1].
  rewrite Hm1, Hl1. fold (rne M (D * 2 ^ n1)).
  pose proof (rne_bounds M (D * 2 ^ n1)) as Hr2.
  remember (rne M (D * 2 ^ n1)) as m2 eqn:Hm2d.
  assert (HDD : M / (D * 2 ^ n1) = M / D / 2 ^ n1) by (symmetry; apply Z.div_div; lia).
  assert (Hm1lo : 0 <= M / (D * 2 ^ n1)) by (apply Z.div_pos; nia).
  assert (Hm1hi : M / (D * 2 ^ n1) < 2 ^ 53).
  { rewrite HDD. destruct (Z.eq_dec (M / D) 0) as [H0 | H0].
    - rewrite H0, Z.div_0_l by lia. reflexivity.
    - destruct (Hdig ltac:(lia)) as [_ Hhi].
      apply div_pow2_lt; try lia.
      apply Z.lt_le_trans with (1 := Hhi).
      apply Z.pow_le_mono_r; lia. }
  assert (Hm1n : -1074 < e + n1 -> 2 ^ 52 <= M / (D * 2 ^ n1)).
  { intros Hn. rewrite HDD.
    destruct (Z.eq_dec (M / D) 0) as [H0 | H0].
    - exfalso. specialize (Hdig0 H0). lia.
    - destruct (Hdig ltac:(lia)) as [Hlo _].
      apply div_pow2_ge; try lia.
      apply Z.le_trans with (2 := Hlo).
      apply Z.pow_le_mono_r; lia. }
  exists (e + n1). replace (e + n1 - e) with n1 by lia. rewrite <- Hm2d.
  split; [lia|]. split; [clear - Hn1; lia|]. split; [exact Hm1hi|].
  split; [exact Hm1n|].
  clear Hm1 Hl1 Hinit Hm2d HDD Hdig Hdig0.
  remember (M / (D * 2 ^ n1)) as m1 eqn:Hm1d. clear Hm1d.
  assert (Hm2 : 0 <= m2) by lia.
  pose proof (Zdigits2_bounds m2) as Hdig2.
  assert (Hdig20 : m2 = 0 -> Zdigits2 m2 = 0) by (now intros ->).
  remember (Zdigits2 m2) as d2 eqn:Hd2. clear Hd2.
  remember (Z.max (d2 + (e + n1) - 53) (-1074) - (e + n1)) as n2 eqn:Hn2.
  destruct (shr_inv_shift m2 1 (shr_record_of_loc m2 loc_Exact) (e + n1) n2 Hm2
              ltac:(lia)) as [Hinv2 He2].
  { pose proof (shr_record_of_loc_inv m2 1 loc_Exact (fun _ => eq_refl)) as H.
    now rewrite Z.div_1_r in H. }
  destruct (shr (shr_record_of_loc m2 loc_Exact) (e + n1) n2) as [mrs2 e2].
  cbn [fst snd] in Hinv2, He2. subst e2.
  destruct Hinv2 as [Hm3 _]. rewrite Z.mul_1_l in Hm3. rewrite Hm3. clear Hm3.
  assert (HE : -1074 <= e + n1) by (clear - Hn1; lia).
  remember (e + n1) as E eqn:HEd.
  clear HEd Hn1 Hpre Hk1 Hn1' Hp1 HM HD Hm0 mrs1 mrs2.
  assert (H52 : 0 < 2 ^ 52) by reflexivity.
  change (emax - prec) with 971.
  pose proof (pow2_pos (E + 1074) ltac:(lia)) as HQ.
  destruct (Z.eq_dec m2 0) as [H0 | H0].
  { specialize (Hdig20 H0).
    assert (Z.max n2 0 = 0) as -> by lia.
    rewrite H0, Z.mul_0_l. change (0 / 2 ^ 0) with 0. cbv iota.
    rewrite clip_small by apply huge_lt_top. reflexivity. }
  destruct (Hdig2 ltac:(lia)) as [Hlo Hhi].
  destruct (Z_le_gt_dec d2 53) as [Hd | Hd].
  - assert (Z.max n2 0 = 0) as -> by lia.
    rewrite Z.add_0_r. change (2 ^ 0) with 1. rewrite Z.div_1_r.
    assert (Hm253 : m2 < 2 ^ 53).
    { apply Z.lt_le_trans with (1 := Hhi). apply Z.pow_le_mono_r; lia. }
    destruct m2 as [ | p | p]; [lia | | lia].
    destruct (Z.leb_spec E 971) as [HE' | HE']; cbv beta iota delta [mag].
    + rewrite clip_small; [reflexivity|].
      assert (2 ^ (E + 1074) <= 2 ^ 2045) by (apply Z.pow_le_mono_r; lia).
      rewrite huge_split_hi.
      remember (2 ^ 2045) as Y. remember (2 ^ 53) as T. remember (2 ^ (E + 1074)) as X.
      apply Z.lt_le_trans with (T * X); [nia|].
      apply Z.mul_le_mono_nonneg_l; lia.
    + rewrite clip_big; [reflexivity|].
      specialize (Hm1n ltac:(lia)).
      assert (2 ^ 2046 <= 2 ^ (E + 1074)) by (apply Z.pow_le_mono_r; lia).
      rewrite huge_split_lo.
      remember (2 ^ 2046) as Y. remember (2 ^ 52) as T. remember (2 ^ (E + 1074)) as X.
      assert (0 <= Y) by (subst Y; apply Z.pow_nonneg; lia).
      apply Z.mul_le_mono_nonneg; lia.
  - assert (H53 : 2 ^ 53 <= m2).
    { apply Z.le_trans with (2 := Hlo). apply Z.pow_le_mono_r; lia. }
    assert (Hm2eq : m2 = 2 ^ 53) by lia.
    assert (Hd54 : d2 = 54).
    { assert (d2 - 1 <= 53); [|lia].
      apply (Z.pow_le_mono_r_iff 2); lia. }
    assert (Z.max n2 0 = 1) as -> by lia.
    rewrite Hm2eq. change (2 ^ 53 / 2 ^ 1) with (Zpos (Pos.pow 2 52)).
    cbv iota.
    assert (HX : 2 ^ 53 * 2 ^ (E + 1074) = Zpos (Pos.pow 2 52) * 2 ^ (E + 1 + 1074)).
    { change (Zpos (Pos.pow 2 52)) with (2 ^ 52).
      rewrite <- !Z.pow_add_r by lia. f_equal. lia. }
    destruct (Z.leb_spec (E + 1) 971) as [HE' | HE']; cbv beta iota delta [mag].
    + rewrite clip_small.
      * rewrite HX. reflexivity.
      * unfold huge. rewrite <- Z.pow_add_r by lia.
        apply Z.pow_lt_mono_r; lia.
    + rewrite clip_big; [reflexivity|].
      unfold huge. rewrite <- Z.pow_add_r by lia.
      apply Z.pow_le_mono_r; lia.
Qed.

(** Mantissas at their canonical exponents are ordered like the fractions
    they round. *)
Lemma nearest_mono (M1 D1 E1 M2 D2 E2 : Z) :
  0 <= M1 -> 0 < D1 -> 0 <= M2 -> 0 < D2 -> -1074 <= E1 -> -1074 <= E2 ->
  M1 / D1 < 2 ^ 53 -> (-1074 < E1 -> 2 ^ 52 <= M1 / D1) ->
  M2 / D2 < 2 ^ 53 -> (-1074 < E2 -> 2 ^ 52 <= M2 / D2) ->
  M1 * 2 ^ (E1 + 1074) * D2 <= M2 * 2 ^ (E2 + 1074) * D1 ->
  rne M1 D1 * 2 ^ (E1 + 1074) <= rne M2 D2 * 2 ^ (E2 + 1074).
Proof.
  intros HM1 HD1 HM2 HD2 HE1 HE2 Hh1 Hn1 Hh2 Hn2 Hle.
  pose proof (rne_bounds M1 D1) as R1. pose proof (rne_bounds M2 D2) as R2.
  pose proof (pow2_pos (E1 + 1074) ltac:(lia)) as HX1.
  pose proof (pow2_pos (E2 + 1074) ltac:(lia)) as HX2.
  assert (Hq1 : 0 <= M1 / D1) by (apply Z.div_pos; lia).
  assert (Hq2 : 0 <= M2 / D2) by (apply Z.div_pos; lia).
  change (2 ^ 53) with (2 * 2 ^ 52) in *.
  assert (HT : 0 < 2 ^ 52) by reflexivity.
  remember (2 ^ 52) as T eqn:HTd. clear HTd.
  destruct (Z.lt_trichotomy E1 E2) as [Hlt | [Heq | Hgt]].
  - specialize (Hn2 ltac:(lia)).
    assert (HX : 2 * 2 ^ (E1 + 1074) <= 2 ^ (E2 + 1074)).
    { change 2 with (2 ^ 1) at 1. rewrite <- Z.pow_add_r by lia.
      apply Z.pow_le_mono_r; lia. }
    remember (2 ^ (E1 + 1074)) as X1. remember (2 ^ (E2 + 1074)) as X2.
    apply Z.le_trans with (T * (2 * X1)); [nia|].
    apply Z.mul_le_mono_nonneg; lia.
  - subst E2. remember (2 ^ (E1 + 1074)) as X1.
    apply Z.mul_le_mono_nonneg_r; [lia|].
    apply rne_mono; try assumption. nia.
  - exfalso. specialize (Hn1 ltac:(lia)).
    assert (HX : 2 * 2 ^ (E2 + 1074) <= 2 ^ (E1 + 1074)).
    { change 2 with (2 ^ 1) at 1. rewrite <- Z.pow_add_r by lia.
      apply Z.pow_le_mono_r; lia. }
    remember (2 ^ (E1 + 1074)) as X1. remember (2 ^ (E2 + 1074)) as X2.
    assert (G1 : T * D1 <= M1).
    { apply Z.le_trans with (D1 * (M1 / D1)); [nia|]. apply Z.mul_div_le. lia. }
    assert (G2 : M2 < 2 * T * D2).
    { pose proof (Z.mul_succ_div_gt M2 D2 HD2). nia. }
    assert (L : T * D1 * (2 * X2) * D2 <= M1 * X1 * D2).
    { apply Z.mul_le_mono_nonneg_r; [lia|]. apply Z.mul_le_mono_nonneg; nia. }
    assert (U : M2 * X2 * D1 < 2 * T * D2 * X2 * D1).
    { apply Z.mul_lt_mono_pos_r; [lia|]. apply Z.mul_lt_mono_pos_r; lia. }
    nia.
Qed.

(** Rounding is monotone: of two fractions with their exponents, the
    smaller one is rounded to the smaller float. *)
Lemma round_mono (s1 s2 : bool) (M1 D1 e1 M2 D2 e2 K : Z) :
  0 <= M1 -> 0 < D1 -> 0 <= M2 -> 0 < D2 ->
  e1 <= fexp64 (Zdigits2 (M1 / D1) + e1) ->
  e2 <= fexp64 (Zdigits2 (M2 / D2) + e2) ->
  1074 <= K -> 0 <= e1 + K -> 0 <= e2 + K ->
  M1 * 2 ^ (e1 + K) * D2 <= M2 * 2 ^ (e2 + K) * D1 ->
  exists v1 v2 : Z,
    mag (binary_round_aux prec emax s1 (M1 / D1) e1 (frac_loc M1 D1)) = Some v1 /\
    mag (binary_round_aux prec emax s2 (M2 / D2) e2 (frac_loc M2 D2)) = Some v2 /\
    v1 <= v2.
Proof.
  intros HM1 HD1 HM2 HD2 Hp1 Hp2 HK HK1 HK2 Hle.
  destruct (binary_round_aux_nearest s1 M1 D1 e1 HM1 HD1 Hp1)
    as (E1 & He1 & HE1 & Hh1 & Hn1 & ->).
  destruct (binary_round_aux_nearest s2 M2 D2 e2 HM2 HD2 Hp2)
    as (E2 & He2 & HE2 & Hh2 & Hn2 & ->).
  eexists _, _. split; [reflexivity|]. split; [reflexivity|].
  apply clip_mono.
  pose proof (pow2_pos (E1 - e1) ltac:(lia)) as HA1.
  pose proof (pow2_pos (E2 - e2) ltac:(lia)) as HA2.
  apply nearest_mono; try assumption; try nia.
  pose proof (pow2_pos (K - 1074) ltac:(lia)) as HC.
  assert (Q1 : 2 ^ (e1 + K) * 2 ^ (E1 - e1) = 2 ^ (E1 + 1074) * 2 ^ (K - 1074)).
  { rewrite <- !Z.pow_add_r by lia. f_equal. lia. }
  assert (Q2 : 2 ^ (e2 + K) * 2 ^ (E2 - e2) = 2 ^ (E2 + 1074) * 2 ^ (K - 1074)).
  { rewrite <- !Z.pow_add_r by lia. f_equal. lia. }
  remember (2 ^ (E1 - e1)) as a1. remember (2 ^ (E2 - e2)) as a2.
  remember (2 ^ (e1 + K)) as p1. remember (2 ^ (e2 + K)) as p2.
  remember (2 ^ (E1 + 1074)) as X1. remember (2 ^ (E2 + 1074)) as X2.
  remember (2 ^ (K - 1074)) as c.
  apply (Z.mul_le_mono_pos_r _ _ c); [lia|].
  replace (M1 * X1 * (D2 * a2) * c) with (M1 * (X1 * c) * D2 * a2) by ring.
  replace (M2 * X2 * (D1 * a1) * c) with (M2 * (X2 * c) * D1 * a1) by ring.
  rewrite <- Q1, <- Q2.
  replace (M1 * (p1 * a1) * D2 * a2) with (M1 * p1 * D2 * (a1 * a2)) by ring.
  replace (M2 * (p2 * a2) * D1 * a1) with (M2 * p2 * D1 * (a1 * a2)) by ring.
  apply Z.mul_le_mono_nonneg_r; [nia | exact Hle].
Qed.

(** *** The rounding of a fraction to a float *)

Lemma frac_loc_int (M : Z) : frac_loc M 1 = loc_Exact.
Proof. unfold frac_loc. rewrite Z.mod_1_r. reflexivity. Qed.

Lemma round64_pre (M D : Z) : -1074 <= fexp64 (Zdigits2 (M / D) + -1074).
Proof. unfold fexp64. lia. Qed.

Lemma round64_valid (M D : Z) :
  0 <= M -> 0 < D ->
  valid_binary (round64 M D) = true /\ sign_of (round64 M D) = false /\
  exists v, mag (round64 M D) = Some v /\ 0 <= v.
Proof.
  intros HM HD.
  assert (Hl : M mod D = 0 -> frac_loc M D = loc_Exact).
  { intros H. unfold frac_loc. rewrite H. reflexivity. }
  destruct (round_valid false M D (-1074) (frac_loc M D) HM HD Hl (round64_pre M D))
    as (Hv & Hs & Hm).
  fold (round64 M D) in Hv, Hs, Hm.
  split; [exact Hv|]. split; [exact Hs|].
  destruct (mag (round64 M D)) as [v | ] eqn:Hmag; [|congruence].
  exists v. split; [reflexivity | exact (mag_nonneg _ _ Hmag)].
Qed.

(** [round64] is monotone. *)
Lemma round64_mono (M1 D1 M2 D2 : Z) :
  0 <= M1 -> 0 < D1 -> 0 <= M2 -> 0 < D2 -> M1 * D2 <= M2 * D1 ->
  exists v1 v2 : Z,
    mag (round64 M1 D1) = Some v1 /\ mag (round64 M2 D2) = Some v2 /\ v1 <= v2.
Proof.
  intros HM1 HD1 HM2 HD2 Hle.
  apply round_mono with (K := 1074); try assumption; try apply round64_pre; lia.
Qed.

(** A computation of [binary_round_aux] on a fraction of the same value
    gives the magnitude of [round64]. *)
Lemma round64_eq (s : bool) (M D e N C K : Z) :
  0 <= M -> 0 < D -> 0 <= N -> 0 < C ->
  e <= fexp64 (Zdigits2 (M / D) + e) ->
  1074 <= K -> 0 <= e + K ->
  M * 2 ^ (e + K) * C = N * 2 ^ (K - 1074) * D ->
  mag (binary_round_aux prec emax s (M / D) e (frac_loc M D)) = mag (round64 N C).
Proof.
  intros HM HD HN HC Hpre HK HeK Heq.
  destruct (round_mono s false M D e N C (-1074) K HM HD HN HC Hpre (round64_pre N C)
              HK HeK ltac:(lia)) as (v1 & v2 & H1 & H2 & H12).
  { replace (-1074 + K) with (K - 1074) by lia. lia. }
  destruct (round_mono false s N C (-1074) M D e K HN HC HM HD (round64_pre N C) Hpre
              HK ltac:(lia) HeK) as (v2' & v1' & H2' & H1' & H21).
  { replace (-1074 + K) with (K - 1074) by lia. lia. }
  fold (round64 N C) in H2, H2'.
  rewrite H1 in H1'. rewrite H2 in H2'. apply Some_inj in H1', H2'. subst v1' v2'.
  rewrite H1, H2. f_equal. lia.
Qed.

(** The value of a float rounds to itself. *)
Lemma round64_float (m : positive) (e : Z) :
  bounded prec emax m e = true ->
  mag (round64 (Zpos m * 2 ^ (e + 1074)) 1) = Some (Zpos m * 2 ^ (e + 1074)).
Proof.
  intros HB. pose proof (bounded_inv _ _ HB) as (He & _).
  pose proof (pow2_pos (e + 1074) ltac:(lia)) as HP.
  set (M := Zpos m * 2 ^ (e + 1074)).
  assert (HM : 0 <= M) by (unfold M; lia).
  assert (Hl : M mod 1 = 0 -> frac_loc M 1 = loc_Exact) by (intros _; apply frac_loc_int).
  destruct (round_le false M 1 (-1074) (frac_loc M 1) HM ltac:(lia) Hl (round64_pre M 1)
              m e 1074 HB ltac:(lia) ltac:(lia)) as (v1 & Hv1 & Hle1).
  { change (2 ^ (-1074 + 1074)) with 1. unfold M. lia. }
  destruct (round_ge false M 1 (-1074) (frac_loc M 1) HM ltac:(lia) Hl (round64_pre M 1)
              m e 1074 HB ltac:(lia) ltac:(lia)) as (v2 & Hv2 & Hle2).
  { change (2 ^ (-1074 + 1074)) with 1. unfold M. lia. }
  fold (round64 M 1) in Hv1, Hv2. rewrite Hv1 in Hv2. apply Some_inj in Hv2. subst v2.
  rewrite Hv1. f_equal. unfold M. lia.
Qed.

Lemma round64_zero (D : Z) : 0 < D -> mag (round64 0 D) = Some 0.
Proof.
  intros HD. unfold round64, frac_loc. rewrite Z.mod_0_l, Z.div_0_l by lia.
  reflexivity.
Qed.

(** The value of a non-negative finite float rounds to itself. *)
Lemma round64_fval (x : float) (a : Z) :
  fval x = Some a -> 0 <= a < top -> mag (round64 a 1) = Some a.
Proof.
  intros Hx Ha.
  destruct (fval_nonneg_inv x a Hx ltac:(lia)) as [s _ -> | m e _ Hb -> _ | _ ->];
    [apply round64_zero; lia | now apply round64_float | lia].
Qed.

(** The location that the division computes is that of the quotient. *)
Lemma new_location_frac (M D : Z) :
  0 < D -> new_location D (M mod D) = frac_loc M D.
Proof.
  intros HD. unfold new_location, new_location_even, new_location_odd, frac_loc.
  pose proof (Z.mod_pos_bound M D HD) as Hk. remember (M mod D) as k eqn:Hkd. clear Hkd.
  destruct (Z.even D) eqn:Hev; [reflexivity|].
  destruct (k =? 0); [reflexivity|]. f_equal.
  assert (Hodd : D mod 2 = 1).
  { rewrite Zmod_odd, <- Z.negb_even, Hev. reflexivity. }
  pose proof (Z.div_mod D 2 ltac:(lia)) as HD2.
  destruct (Z.compare_spec (2 * k + 1) D); symmetry;
    [apply Z.compare_lt_iff | apply Z.compare_lt_iff | apply Z.compare_gt_iff]; lia.
Qed.

(** [binary_round] on an integer mantissa rounds its value. *)
Lemma binary_round_round64 (s : bool) (m : positive) (e : Z) :
  -1074 <= e ->
  mag (binary_round prec emax s m e) = mag (round64 (Zpos m * 2 ^ (e + 1074)) 1).
Proof.
  intros He. destruct (binary_round_eq s m e He) as (mz & ez & -> & Hez & Hpre & Hv).
  pose proof (pow2_pos (e + 1074) ltac:(lia)).
  rewrite <- (frac_loc_int (Zpos mz)).
  apply round64_eq with (K := 1074); lia.
Qed.

(** *** The operations round their exact results *)

(** A product of finite non-negative floats. *)
Lemma mul_round (x y : float) (a b : Z) :
  fval x = Some a -> fval y = Some b -> 0 <= a < top -> 0 <= b < top ->
  fval (x * y) = mag (round64 (a * b) (2 ^ 1074)).
Proof.
  intros Hx Hy Ha Hb.
  pose proof (mul_spec x y) as Hs. unfold SF64mul in Hs.
  pose proof (pow2_pos 1074 ltac:(lia)) as HU.
  destruct (fval_nonneg_inv x a Hx ltac:(lia)) as [sx Hpx Ha0 | mx ex Hpx Hbx Hax _ | Hpx Hax];
    [| | lia];
  (destruct (fval_nonneg_inv y b Hy ltac:(lia)) as [sy Hpy Hb0 | my ey Hpy Hby Hbx' _ | Hpy Hbx'];
    [| | lia]);
  rewrite Hpx, Hpy in Hs; cbn [SFmul] in Hs.
  1-3: subst; rewrite ?Z.mul_0_l, ?Z.mul_0_r, round64_zero by exact HU;
       unfold fval; rewrite Hs; reflexivity.
  destruct (SFmul_finite_valid false false mx my ex ey Hbx Hby) as (_ & Hsign & Hmag).
  cbn [SFmul xorb] in Hsign, Hmag.
  destruct (mag (binary_round_aux prec emax false (Zpos (mx * my)) (ex + ey) loc_Exact))
    as [c | ] eqn:Hc; [|congruence].
  rewrite (fval_of_mag _ _ _ Hs Hsign Hc), <- Hc.
  pose proof (bounded_inv _ _ Hbx) as (Hex & _).
  pose proof (bounded_inv _ _ Hby) as (Hey & _).
  rewrite <- (Z.div_1_r (Zpos (mx * my))), <- (frac_loc_int (Zpos (mx * my))).
  apply round64_eq with (K := 2148); try lia.
  - exact (SFmul_pre mx my ex ey Hbx Hby).
  - rewrite Hax, Hbx', Pos2Z.inj_mul. change (2148 - 1074) with 1074.
    replace (ex + ey + 2148) with ((ex + 1074) + (ey + 1074)) by lia.
    rewrite (Z.pow_add_r 2 (ex + 1074) (ey + 1074)) by lia.
    ring.
Qed.

(** A quotient of a finite non-negative float by a finite positive one. *)
Lemma div_round (x y : float) (a b : Z) :
  fval x = Some a -> fval y = Some b -> 0 <= a < top -> 0 < b < top ->
  fval (x / y) = mag (round64 (a * 2 ^ 1074) b).
Proof.
  intros Hx Hy Ha Hb.
  pose proof (div_spec x y) as Hs. unfold SF64div in Hs.
  pose proof (pow2_pos 1074 ltac:(lia)) as HU.
  destruct (fval_nonneg_inv y b Hy ltac:(lia)) as [? ? ? | my ey Hpy Hby Hbe _ | ? ?];
    [lia | | lia].
  destruct (fval_nonneg_inv x a Hx ltac:(lia)) as [sx Hpx Ha0 | mx ex Hpx Hbx Hax _ | Hpx Hax];
    [| | lia]; rewrite Hpx, Hpy in Hs.
  - cbn [SFdiv] in Hs. subst a. rewrite Z.mul_0_l, round64_zero by lia.
    unfold fval. rewrite Hs. reflexivity.
  - destruct (SFdiv_finite_valid false false mx my ex ey Hbx Hby) as (_ & Hsign & Hmag).
    cbn [xorb] in Hsign.
    destruct (mag (SFdiv prec emax (S754_finite false mx ex) (S754_finite false my ey)))
      as [c | ] eqn:Hc; [|congruence].
    rewrite (fval_of_mag _ _ _ Hs Hsign Hc), <- Hc.
    pose proof (bounded_inv _ _ Hbx) as (Hex & _).
    pose proof (bounded_inv _ _ Hby) as (Hey & _).
    destruct (SFdiv_finite_eq false false mx my ex ey Hbx Hby) as (e' & -> & He' & Hpre).
    pose proof (pow2_pos (ex - ey - e') ltac:(lia)) as HS.
    rewrite new_location_frac by lia.
    apply round64_eq with (K := 2148); [nia | lia | nia | lia | exact Hpre | lia | lia |].
    rewrite Hax, Hbe. change (2148 - 1074) with 1074.
    rewrite <- (Z.mul_assoc (Zpos mx)), <- Z.pow_add_r by lia.
    replace (ex - ey - e' + (e' + 2148)) with ((ex + 1074) + 1074 - ey) by lia.
    rewrite (Z.mul_comm (Zpos my)), (Z.mul_assoc _ (2 ^ (ey + 1074))).
    rewrite <- (Z.mul_assoc (Zpos mx) _ (2 ^ (ey + 1074))), <- Z.pow_add_r by lia.
    replace (ex + 1074 + 1074 - ey + (ey + 1074)) with ((ex + 1074) + 1074 + 1074) by lia.
    rewrite !Z.pow_add_r by lia. ring.
Qed.

(** A sum of finite non-negative floats. *)
Lemma add_round (x y : float) (a b : Z) :
  fval x = Some a -> fval y = Some b -> 0 <= a < top -> 0 <= b < top ->
  fval (x + y) = mag (round64 (a + b) 1).
Proof.
  intros Hx Hy Ha Hb.
  pose proof (add_spec x y) as Hs. unfold SF64add in Hs.
  destruct (fval_nonneg_inv x a Hx ltac:(lia)) as [sx Hpx Ha0 | mx ex Hpx Hbx Hax Har | Hpx Hax];
    [| | lia];
  (destruct (fval_nonneg_inv y b Hy ltac:(lia)) as [sy Hpy Hb0 | my ey Hpy Hby Hbe Hbr | Hpy Hbx'];
    [| | lia]);
  rewrite Hpx, Hpy in Hs.
  - subst a b. rewrite round64_zero by lia. unfold fval. rewrite Hs.
    destruct sx, sy; reflexivity.
  - rewrite Ha0, Z.add_0_l, (round64_fval y b Hy Hb).
    unfold fval. rewrite Hs. cbn [SFadd]. rewrite <- Hpy. exact Hy.
  - rewrite Hb0, Z.add_0_r, (round64_fval x a Hx Ha).
    unfold fval. rewrite Hs. cbn [SFadd]. rewrite <- Hpx. exact Hx.
  - pose proof (bounded_inv _ _ Hbx) as (Hex & _).
    pose proof (bounded_inv _ _ Hby) as (Hey & _).
    destruct (SFadd_finite_eq mx my ex ey Hbx Hby) as (p & Heq & Hp).
    rewrite Heq in Hs.
    destruct (binary_round_valid false p (Z.min ex ey) ltac:(lia)) as (_ & Hsign & Hmag).
    destruct (mag (binary_round prec emax false p (Z.min ex ey))) as [c | ] eqn:Hc;
      [|congruence].
    rewrite (fval_of_mag _ _ _ Hs Hsign Hc), <- Hc.
    rewrite binary_round_round64 by lia. rewrite Hp, <- Hax, <- Hbe. reflexivity.
Qed.

(** A positive difference of finite non-negative floats. *)
Lemma sub_round (x y : float) (a b : Z) :
  fval x = Some a -> fval y = Some b -> 0 <= b < a -> a < top ->
  fval (x - y) = mag (round64 (a - b) 1).
Proof.
  intros Hx Hy Hb Ha.
  pose proof (sub_spec x y) as Hs. unfold SF64sub in Hs.
  destruct (fval_nonneg_inv x a Hx ltac:(lia)) as [? ? ? | mx ex Hpx Hbx Hax _ | ? ?];
    [lia | | lia].
  destruct (fval_nonneg_inv y b Hy ltac:(lia)) as [sy Hpy Hb0 | my ey Hpy Hby Hbe _ | ? ?];
    [ | | lia]; rewrite Hpx, Hpy in Hs.
  - cbn [SFsub] in Hs. rewrite Hb0, Z.sub_0_r, (round64_fval x a Hx ltac:(lia)).
    unfold fval. rewrite Hs, <- Hpx. exact Hx.
  - pose proof (bounded_inv _ _ Hbx) as (Hex & _).
    pose proof (bounded_inv _ _ Hby) as (Hey & _).
    destruct (SFsub_finite_eq mx my ex ey Hbx Hby ltac:(lia)) as (p & Heq & Hp).
    rewrite Heq in Hs.
    destruct (binary_round_valid false p (Z.min ex ey) ltac:(lia)) as (_ & Hsign & Hmag).
    destruct (mag (binary_round prec emax false p (Z.min ex ey))) as [c | ] eqn:Hc;
      [|congruence].
    rewrite (fval_of_mag _ _ _ Hs Hsign Hc), <- Hc.
    rewrite binary_round_round64 by lia. rewrite Hp, <- Hax, <- Hbe. reflexivity.
Qed.

(** *** The operations are monotone on finite non-negative floats *)

Lemma chain_fval (x1 x2 : float) :
  (0 <=? x1)%float = true -> (x1 <=? x2)%float = true ->
  (x2 <? infinity)%float = true ->
  exists a1 a2, fval x1 = Some a1 /\ fval x2 = Some a2 /\ 0 <= a1 <= a2 /\ a2 < top.
Proof.
  intros H0 H12 Hf.
  apply nonneg_fval in H0 as (a1 & Ha1 & Ha10).
  apply leb_true_iff in H12 as (a1' & a2 & Ha1' & Ha2 & Hle).
  apply finite_fval in Hf as (a2' & Ha2' & Hfin).
  rewrite Ha1 in Ha1'. rewrite Ha2 in Ha2'. apply Some_inj in Ha1', Ha2'. subst a1' a2'.
  exists a1, a2. repeat split; try assumption; lia.
Qed.

Lemma mag_leb (x1 x2 : float) (r1 r2 : spec_float) :
  fval x1 = mag r1 -> fval x2 = mag r2 ->
  (exists v1 v2, mag r1 = Some v1 /\ mag r2 = Some v2 /\ v1 <= v2) ->
  (x1 <=? x2)%float = true.
Proof.
  intros H1 H2 (v1 & v2 & Hv1 & Hv2 & Hle).
  apply leb_true_iff. exists v1, v2. rewrite H1, H2. repeat split; assumption.
Qed.

Lemma mul_mono (x1 y1 x2 y2 : float) :
  (0 <=? x1)%float = true -> (x1 <=? x2)%float = true ->
  (x2 <? infinity)%float = true ->
  (0 <=? y1)%float = true -> (y1 <=? y2)%float = true ->
  (y2 <? infinity)%float = true ->
  (x1 * y1 <=? x2 * y2)%float = true.
Proof.
  intros Hx0 Hx Hxf Hy0 Hy Hyf.
  destruct (chain_fval x1 x2 Hx0 Hx Hxf) as (a1 & a2 & Ha1 & Ha2 & Ha & Haf).
  destruct (chain_fval y1 y2 Hy0 Hy Hyf) as (b1 & b2 & Hb1 & Hb2 & Hb & Hbf).
  pose proof (pow2_pos 1074 ltac:(lia)) as HU.
  eapply mag_leb;
    [apply (mul_round x1 y1 a1 b1); try assumption; lia
    |apply (mul_round x2 y2 a2 b2); try assumption; lia|].
  remember (2 ^ 1074) as U.
  apply round64_mono; [nia | lia | nia | lia |].
  apply Z.mul_le_mono_nonneg_r; [lia|]. apply Z.mul_le_mono_nonneg; lia.
Qed.

Lemma div_mono (x1 y1 x2 y2 : float) :
  (0 <=? x1)%float = true -> (x1 <=? x2)%float = true ->
  (x2 <? infinity)%float = true ->
  (0 <? y2)%float = true -> (y2 <=? y1)%float = true ->
  (y1 <? infinity)%float = true ->
  (x1 / y1 <=? x2 / y2)%float = true.
Proof.
  intros Hx0 Hx Hxf Hy0 Hy Hyf.
  destruct (chain_fval x1 x2 Hx0 Hx Hxf) as (a1 & a2 & Ha1 & Ha2 & Ha & Haf).
  destruct (chain_fval y2 y1 (ltb_leb _ _ Hy0) Hy Hyf) as (b2 & b1 & Hb2 & Hb1 & Hb & Hbf).
  apply pos_fval in Hy0 as (b2' & Hb2' & Hb20).
  rewrite Hb2 in Hb2'. apply Some_inj in Hb2'. subst b2'.
  pose proof (pow2_pos 1074 ltac:(lia)) as HU.
  eapply mag_leb;
    [apply (div_round x1 y1 a1 b1); try assumption; lia
    |apply (div_round x2 y2 a2 b2); try assumption; lia|].
  remember (2 ^ 1074) as U.
  apply round64_mono; [nia | lia | nia | lia |].
  apply Z.mul_le_mono_nonneg; nia.
Qed.

Lemma add_mono (x1 y1 x2 y2 : float) :
  (0 <=? x1)%float = true -> (x1 <=? x2)%float = true ->
  (x2 <? infinity)%float = true ->
  (0 <=? y1)%float = true -> (y1 <=? y2)%float = true ->
  (y2 <? infinity)%float = true ->
  (x1 + y1 <=? x2 + y2)%float = true.
Proof.
  intros Hx0 Hx Hxf Hy0 Hy Hyf.
  destruct (chain_fval x1 x2 Hx0 Hx Hxf) as (a1 & a2 & Ha1 & Ha2 & Ha & Haf).
  destruct (chain_fval y1 y2 Hy0 Hy Hyf) as (b1 & b2 & Hb1 & Hb2 & Hb & Hbf).
  eapply mag_leb;
    [apply (add_round x1 y1 a1 b1); try assumption; lia
    |apply (add_round x2 y2 a2 b2); try assumption; lia|].
  apply round64_mono; lia.
Qed.

Lemma sub_mono (x1 y1 x2 y2 : float) :
  (x1 <=? x2)%float = true -> (x2 <? infinity)%float = true ->
  (0 <=? y2)%float = true -> (y2 <=? y1)%float = true -> (y1 <? x1)%float = true ->
  (x1 - y1 <=? x2 - y2)%float = true.
Proof.
  intros Hx Hxf Hy0 Hy Hyx.
  apply nonneg_fval in Hy0 as (b2 & Hb2 & Hb20).
  apply leb_true_iff in Hy as (b2' & b1 & Hb2' & Hb1 & Hb).
  apply ltb_true_iff in Hyx as (b1' & a1 & Hb1' & Ha1 & Hba).
  apply leb_true_iff in Hx as (a1' & a2 & Ha1' & Ha2 & Ha).
  apply finite_fval in Hxf as (a2' & Ha2' & Haf).
  rewrite Hb2 in Hb2'. rewrite Hb1 in Hb1'. rewrite Ha1 in Ha1'. rewrite Ha2 in Ha2'.
  apply Some_inj in Hb2', Hb1', Ha1', Ha2'. subst b2' b1' a1' a2'.
  eapply mag_leb;
    [apply (sub_round x1 y1 a1 b1); try assumption; lia
    |apply (sub_round x2 y2 a2 b2); try assumption; lia|].
  apply round64_mono; lia.
Qed.

(** *** Floats of the same value *)

Lemma fval_inj (x y : float) (a : Z) :
  fval x = Some a -> fval y = Some a -> 0 < a -> x = y.
Proof.
  intros Hx Hy Ha. apply Prim2SF_inj.
  destruct (fval_nonneg_inv x a Hx ltac:(lia)) as [? ? ? | mx ex Hpx Hbx Hax Hxr | Hpx Hax];
    [lia | | ];
  (destruct (fval_nonneg_inv y a Hy ltac:(lia)) as [? ? ? | my ey Hpy Hby Hay Hyr | Hpy Hay];
    [lia | | ]); try lia.
  - rewrite Hpx, Hpy.
    pose proof (compare_finite_pos mx my ex ey Hbx Hby) as Hc.
    rewrite <- Hax, <- Hay, Z.compare_refl in Hc.
    destruct (Z.compare_spec ex ey) as [-> | | ]; try discriminate.
    change (Pos.compare_cont Eq mx my) with (Pos.compare mx my) in Hc.
    apply Pos.compare_eq in Hc. subst my. reflexivity.
  - rewrite Hpx, Hpy. reflexivity.
Qed.

(** Two floats that are each below the other are the same float, unless
    they are zeros. *)
Lemma leb_antisym (x y : float) :
  (x <=? y)%float = true -> (y <=? x)%float = true -> (0 <? x)%float = true -> x = y.
Proof.
  intros H1 H2 H0.
  apply leb_true_iff in H1 as (a & b & Ha & Hb & Hab).
  apply leb_true_iff in H2 as (b' & a' & Hb' & Ha' & Hba).
  apply pos_fval in H0 as (a'' & Ha'' & Hpos).
  rewrite Ha in Ha', Ha''. rewrite Hb in Hb'. apply Some_inj in Ha', Ha'', Hb'.
  subst a' a'' b'. assert (a = b) by lia. subst b.
  exact (fval_inj x y a Ha Hb Hpos).
Qed.

End Binary64Facts.

Import Binary64 Binary64Facts.

(** ** Python's [min] and [max] on floats *)

(** [min] and [max] of Python against the mathematical ones. *)
Lemma min_fmin (x c : float) :
  fval x <> None -> fval c <> None -> Py.min x c = fmin x c.
Proof.
  unfold Py.min, fmin. rewrite ltb_fval, leb_fval.
  destruct (fval x) as [a | ], (fval c) as [b | ]; try congruence. intros _ _.
  destruct (Z.ltb_spec b a), (Z.leb_spec a b); try reflexivity; lia.
Qed.

Lemma max_fmax (x c : float) :
  fval x <> None -> fval c <> None -> Py.max x c = fmax x c.
Proof.
  unfold Py.max, fmax. rewrite ltb_fval, leb_fval.
  destruct (fval x) as [a | ], (fval c) as [b | ]; try congruence. intros _ _.
  destruct (Z.ltb_spec a b), (Z.leb_spec b a); try reflexivity; lia.
Qed.

(** [min(x, c)] and [max(a, b)] of non-negative floats. *)
Lemma min_range (x c : float) :
  (0 <=? x)%float = true -> (0 <=? c)%float = true ->
  Py.min x c = fmin x c /\
  (0 <=? Py.min x c)%float = true /\ (Py.min x c <=? c)%float = true.
Proof.
  intros Hx Hc.
  destruct (leb_comparable _ _ Hx) as [_ Hx'].
  destruct (leb_comparable _ _ Hc) as [_ Hc'].
  split; [now apply min_fmin|].
  unfold Py.min. destruct (c <? x)%float eqn:Hlt.
  - split; [exact Hc|]. apply nonneg_fval in Hc as (b & Hb & _).
    apply leb_true_iff. exists b, b. repeat split; try assumption. lia.
  - split; [exact Hx|].
    rewrite ltb_fval in Hlt. rewrite leb_fval.
    destruct (fval x) as [a | ], (fval c) as [b | ]; try congruence.
    apply Z.ltb_ge in Hlt. now apply Z.leb_le.
Qed.

Lemma max_range (a b c : float) :
  (0 <=? a)%float = true -> (a <=? c)%float = true ->
  (0 <=? b)%float = true -> (b <=? c)%float = true ->
  Py.max a b = fmax a b /\
  (0 <=? Py.max a b)%float = true /\ (Py.max a b <=? c)%float = true.
Proof.
  intros Ha Hac Hb Hbc.
  destruct (leb_comparable _ _ Ha) as [_ Ha'].
  destruct (leb_comparable _ _ Hb) as [_ Hb'].
  split; [now apply max_fmax|].
  unfold Py.max. destruct (a <? b)%float; split; assumption.
Qed.

(** ** Payment history *)

Lemma payment_history_in_range (p d : float) :
  (0 <=? p)%float = true -> (p <=? 100)%float = true -> (0 <=? d)%float = true ->
  calculate_payment_history_score p d = payment_history_spec p d /\
  in_unit (calculate_payment_history_score p d).
Proof.
  intros Hp0 Hp1 Hd.
  destruct (div_unit p 100 Hp0 Hp1 eq_refl eq_refl) as [Hb0 Hb1].
  unfold calculate_payment_history_score, payment_history_spec, in_unit.
  destruct (0 <? d)%float eqn:Hd0.
  - pose proof (div_nonneg d 90 Hd eq_refl eq_refl) as Hx0.
    destruct (min_range (d / 90) 1 Hx0 eq_refl) as (Hmin & Hl0 & Hl1).
    destruct (mul_unit (Py.min (d / 90) 1) 0.5 0.5 Hl0 Hl1 eq_refl eq_refl eq_refl eq_refl)
      as [Hh0 Hh1].
    destruct (sub_range 1 (Py.min (d / 90) 1 * 0.5) 0.5 0.5 Hh0 Hh1 eq_refl)
      as [Hm0 Hm1].
    destruct (mul_unit (p / 100) (1 - Py.min (d / 90) 1 * 0.5) 1 Hb0 Hb1
                (leb_trans 0 0.5 _ eq_refl Hm0) Hm1 eq_refl eq_refl) as [Hr0 Hr1].
    rewrite <- Hmin. repeat split; assumption.
  - repeat split; assumption.
Qed.

(** C2: for every onTimePaymentsPercent in [0,100] and every daysLateAvg >= 0
    the payment-history sub-score is (p/100) * (1 - min(d/90, 1) * 0.5) when
    d > 0 and p/100 otherwise, and it lies in [0,1]; PH(100,0) = 1.00,
    PH(100,90) = 0.50 and PH(100,180) = 0.50. *)
Theorem payment_history_score_spec (p d : float) :
  (0 <=? p)%float = true -> (p <=? 100)%float = true -> (0 <=? d)%float = true ->
  calculate_payment_history_score p d = payment_history_spec p d /\
  (0 <=? calculate_payment_history_score p d)%float = true /\
  (calculate_payment_history_score p d <=? 1)%float = true /\
  calculate_payment_history_score 100 0 = 1.00%float /\
  calculate_payment_history_score 100 90 = 0.50%float /\
  calculate_payment_history_score 100 180 = 0.50%float.
Proof.
  intros Hp0 Hp1 Hd.
  destruct (payment_history_in_range p d Hp0 Hp1 Hd) as (Heq & H0 & H1).
  repeat split; try assumption; reflexivity.
Qed.

Lemma payment_history_score_spec_witness :
  calculate_payment_history_score 95 5 = payment_history_spec 95 5 /\
  (0 <=? calculate_payment_history_score 95 5)%float = true /\
  (calculate_payment_history_score 95 5 <=? 1)%float = true /\
  calculate_payment_history_score 100 0 = 1.00%float /\
  calculate_payment_history_score 100 90 = 0.50%float /\
  calculate_payment_history_score 100 180 = 0.50%float.
Proof.
  apply (payment_history_score_spec 95 5); reflexivity.
Defined.

(** ** Credit utilization *)

(** A float that is not at most a threshold, but is comparable, exceeds it. *)
Lemma above_threshold (u t t' : float) :
  (u <=? t)%float = false -> (u <=? t')%float = true -> (t <=? t)%float = true ->
  (t <? u)%float = true.
Proof.
  intros H1 H2 Ht. apply not_leb_ltb; [exact H1 | | ].
  - exact (proj1 (leb_comparable _ _ H2)).
  - exact (proj1 (leb_comparable _ _ Ht)).
Qed.

(** C3: the utilization sub-score is the step function with inclusive upper
    bounds: 0.95 for u <= 10, 1.00 for 10 < u <= 30, 0.85 for 30 < u <= 50,
    0.60 for 50 < u <= 75 and 0.30 otherwise (in no bucket, a NaN included);
    U(10) = 0.95, U(10.01) = 1.00, U(30) = 1.00 and U(30.01) = 0.85. *)
Theorem utilization_score_buckets (u : float) :
  ((u <=? 10)%float = true -> calculate_credit_utilization_score u = 0.95%float) /\
  ((10 <? u)%float = true -> (u <=? 30)%float = true ->
   calculate_credit_utilization_score u = 1.00%float) /\
  ((30 <? u)%float = true -> (u <=? 50)%float = true ->
   calculate_credit_utilization_score u = 0.85%float) /\
  ((50 <? u)%float = true -> (u <=? 75)%float = true ->
   calculate_credit_utilization_score u = 0.60%float) /\
  ((u <=? 10)%float = false ->
   ((10 <? u) && (u <=? 30))%float = false ->
   ((30 <? u) && (u <=? 50))%float = false ->
   ((50 <? u) && (u <=? 75))%float = false ->
   calculate_credit_utilization_score u = 0.30%float) /\
  calculate_credit_utilization_score 10 = 0.95%float /\
  calculate_credit_utilization_score 10.01 = 1.00%float /\
  calculate_credit_utilization_score 30 = 1.00%float /\
  calculate_credit_utilization_score 30.01 = 0.85%float.
Proof.
  unfold calculate_credit_utilization_score.
  split; [intros ->; reflexivity|].
  split.
  { intros H10 H30. rewrite (ltb_not_leb _ _ H10), H30. reflexivity. }
  split.
  { intros H30 H50.
    rewrite (ltb_not_leb _ _ (ltb_trans 10 30 u eq_refl H30)).
    rewrite (ltb_not_leb _ _ H30), H50. reflexivity. }
  split.
  { intros H50 H75.
    rewrite (ltb_not_leb _ _ (ltb_trans 10 50 u eq_refl H50)).
    rewrite (ltb_not_leb _ _ (ltb_trans 30 50 u eq_refl H50)).
    rewrite (ltb_not_leb _ _ H50), H75. reflexivity. }
  split; [|repeat split; reflexivity].
  intros H10 B2 B3 B4. rewrite H10.
  destruct (u <=? 30)%float eqn:H30.
  { rewrite (above_threshold u 10 30 H10 H30 eq_refl) in B2. discriminate. }
  destruct (u <=? 50)%float eqn:H50.
  { rewrite (above_threshold u 30 50 H30 H50 eq_refl) in B3. discriminate. }
  destruct (u <=? 75)%float eqn:H75.
  { rewrite (above_threshold u 50 75 H50 H75 eq_refl) in B4. discriminate. }
  reflexivity.
Qed.



(** ** Credit mix *)

Lemma no_products (ns nu : Z) (c : bool) :
  0 <= ns -> 0 <= nu ->
  (ns + nu + Z.b2z c =? 0) = (ns =? 0) && (nu =? 0) && negb c.
Proof.
  intros Hs Hu.
  destruct c; cbn [Z.b2z negb];
    destruct (Z.eqb_spec (ns + nu + 1) 0), (Z.eqb_spec (ns + nu + 0) 0),
             (Z.eqb_spec ns 0), (Z.eqb_spec nu 0); cbn; try reflexivity; lia.
Qed.

Lemma credit_mix_refines (ns nu : Z) (c : bool) :
  0 <= ns -> 0 <= nu ->
  calculate_credit_mix_score ns nu c = Ok (credit_mix_spec ns nu c).
Proof.
  intros Hs Hu.
  unfold calculate_credit_mix_score, credit_mix_spec.
  rewrite (no_products ns nu c Hs Hu).
  destruct ((ns =? 0) && (nu =? 0) && negb c); [reflexivity|].
  assert (Hms : Z.min ns 2 = 0 \/ Z.min ns 2 = 1 \/ Z.min ns 2 = 2) by lia.
  assert (Hmu : Z.min nu 2 = 0 \/ Z.min nu 2 = 1 \/ Z.min nu 2 = 2) by lia.
  destruct Hms as [-> | [-> | ->]], Hmu as [-> | [-> | ->]], c;
    vm_compute; reflexivity.
Qed.


(** C4: for non-negative loan counts the credit-mix sub-score is 0.30 when
    both counts are zero and there is no card, and otherwise
    min(min(s,2)*0.3 + min(u,2)*0.2 + (card?1:0)*0.2, 1.0);
    M(0,0,false) = 0.30 and M(5,5,true) = 1.00. *)
Theorem credit_mix_score_spec (ns nu : Z) (c : bool) :
  0 <= ns -> 0 <= nu ->
  calculate_credit_mix_score ns nu c = Ok (credit_mix_spec ns nu c) /\
  calculate_credit_mix_score 0 0 false = Ok 0.30%float /\
  calculate_credit_mix_score 5 5 true = Ok 1.00%float.
Proof.
  intros Hs Hu. split; [now apply credit_mix_refines|]. split; reflexivity.
Qed.

Lemma credit_mix_score_spec_witness :
  calculate_credit_mix_score 1 1 true = Ok (credit_mix_spec 1 1 true) /\
  calculate_credit_mix_score 0 0 false = Ok 0.30%float /\
  calculate_credit_mix_score 5 5 true = Ok 1.00%float.
Proof.
  apply (credit_mix_score_spec 1 1 true); lia.
Defined.

(** C10: with one unsecured loan, no secured loan and no card the credit-mix
    sub-score is exactly 0.20, below the 0.30 of an account with no product:
    0.30 is not a lower bound of the function. *)
Theorem credit_mix_below_floor :
  calculate_credit_mix_score 0 1 false = Ok 0.20%float /\
  (0.20 <? 0.30)%float = true /\
  calculate_credit_mix_score 0 0 false = Ok 0.30%float /\
  exists (ns nu : Z) (c : bool) (score : float),
    0 <= ns /\ 0 <= nu /\ 0 < ns + nu + Z.b2z c /\
    calculate_credit_mix_score ns nu c = Ok score /\
    (score <? 0.30)%float = true.
Proof.
  repeat split; try reflexivity.
  exists 0, 1, false, 0.20%float. repeat split; try reflexivity; lia.
Qed.

(** ** New credit *)

Lemma float_of_int_raises (n : Z) (e : exn) :
  Py.float_of_int n = Raise e -> e = OverflowError.
Proof.
  unfold Py.float_of_int.
  destruct (binary_normalize prec emax n 0 false); congruence.
Qed.

(** [float(n)] of a non-negative [int] up to the largest float. *)
Lemma float_of_int_range (n : Z) :
  0 <= n <= max_float_int ->
  exists i, Py.float_of_int n = Ok i /\
            (0 <=? i)%float = true /\ (i <? infinity)%float = true.
Proof.
  intros [Hn0 Hn]. unfold Py.float_of_int.
  destruct n as [ | p | p]; [| | lia].
  - exists 0%float. repeat split; reflexivity.
  - cbn [binary_normalize].
    destruct (binary_round_valid false p 0 ltac:(lia)) as (Hv & Hs & _).
    assert (HB : bounded prec emax 9007199254740991 971 = true) by reflexivity.
    destruct (binary_round_le false p 0 ltac:(lia) _ _ HB) as (v & Hm & Hle).
    { rewrite Z.add_0_l. replace (971 + 1074) with (1074 + 971) by lia.
      rewrite (Z.pow_add_r 2 1074 971) by lia.
      unfold max_float_int in Hn. change (2 ^ 53 - 1) with 9007199254740991 in Hn.
      pose proof (pow2_pos 1074 ltac:(lia)).
      remember (2 ^ 1074) as U. remember (2 ^ 971) as V.
      rewrite (Z.mul_comm U V), Z.mul_assoc.
      apply Z.mul_le_mono_nonneg_r; lia. }
    pose proof (sval_finite_bound false _ _ HB) as HvB.
    pose proof (mag_nonneg _ _ Hm) as Hv0.
    remember (binary_round prec emax false p 0) as r eqn:Hr.
    assert (Hf : fval (SF2Prim r) = Some v).
    { apply fval_of_mag with r; [now apply Prim2SF_SF2Prim | exact Hs | exact Hm]. }
    assert (Hi : (0 <=? SF2Prim r)%float = true /\ (SF2Prim r <? infinity)%float = true).
    { split; [apply nonneg_fval | apply finite_fval]; exists v;
        (split; [assumption | lia]). }
    destruct r as [s | s | | s m e]; try (eexists; split; [reflexivity | exact Hi]).
    exfalso. cbv beta iota delta [mag] in Hm. apply Some_inj in Hm. lia.
Qed.

Lemma mag_lt_top (r : spec_float) (v : Z) :
  valid_binary r = true -> mag r = Some v ->
  (v < top -> forall s, r <> S754_infinity s) /\
  (top <= v -> exists s, r = S754_infinity s).
Proof.
  intros Hv Hm. pose proof unit_lt_top as HU.
  destruct r as [s | s | | s m e]; cbv beta iota delta [mag] in Hm;
    try discriminate; apply Some_inj in Hm; subst v.
  - split; [intros _ s'; discriminate | lia].
  - split; [lia | intros _; now exists s].
  - cbn [valid_binary SpecFloat.valid_binary] in Hv.
    pose proof (sval_finite_bound s m e Hv).
    split; [intros _ s'; discriminate | lia].
Qed.

(** The magnitude of [float(n)], or of the infinity that makes it raise. *)
Lemma binary_normalize_mag (n : Z) :
  valid_binary (binary_normalize prec emax n 0 false) = true /\
  mag (binary_normalize prec emax n 0 false) = mag (round64 (Z.abs n * 2 ^ 1074) 1).
Proof.
  destruct n as [ | p | p]; cbn [binary_normalize Z.abs].
  - split; [reflexivity|]. rewrite Z.mul_0_l, round64_zero by lia. reflexivity.
  - split; [exact (proj1 (binary_round_valid false p 0 ltac:(lia)))|].
    now rewrite binary_round_round64 by lia.
  - split; [exact (proj1 (binary_round_valid true p 0 ltac:(lia)))|].
    now rewrite binary_round_round64 by lia.
Qed.

Lemma round64_limit :
  mag (round64 (float_limit * 2 ^ 1074) 1) = Some top /\
  mag (round64 ((float_limit - 1) * 2 ^ 1074) 1) = Some (max_float_int * 2 ^ 1074).
Proof. split; vm_compute; reflexivity. Qed.

Lemma max_float_lt_top : max_float_int * 2 ^ 1074 < top.
Proof. vm_compute. reflexivity. Qed.

(** [float(n)] raises exactly from [float_limit] on. *)
Lemma float_of_int_overflow (n : Z) :
  (float_limit <= Z.abs n -> Py.float_of_int n = Raise OverflowError) /\
  (Z.abs n < float_limit -> exists i, Py.float_of_int n = Ok i).
Proof.
  unfold Py.float_of_int.
  destruct (binary_normalize_mag n) as [Hv Hm].
  destruct round64_limit as [Htop Hmax].
  pose proof (pow2_pos 1074 ltac:(lia)) as HU.
  pose proof max_float_lt_top as HF.
  remember (2 ^ 1074) as U.
  split; intros Hn.
  - destruct (round64_mono (float_limit * U) 1 (Z.abs n * U) 1) as (v1 & v2 & H1 & H2 & Hle);
      [unfold float_limit; lia | lia | lia | lia | nia |].
    rewrite Htop in H1. apply Some_inj in H1. subst v1.
    rewrite H2 in Hm.
    destruct (proj2 (mag_lt_top _ _ Hv Hm) Hle) as (s & ->). reflexivity.
  - destruct (round64_mono (Z.abs n * U) 1 ((float_limit - 1) * U) 1)
      as (v1 & v2 & H1 & H2 & Hle);
      [lia | lia | unfold float_limit; lia | lia | nia |].
    rewrite Hmax in H2. apply Some_inj in H2. subst v2.
    rewrite H1 in Hm.
    pose proof (proj1 (mag_lt_top _ _ Hv Hm) ltac:(lia)) as Hfin.
    destruct (binary_normalize prec emax n 0 false) as [s | s | | s m e];
      try (eexists; reflexivity).
    exfalso. exact (Hfin s eq_refl).
Qed.

(** The value of [float(n)] for a non-negative [n]. *)
Lemma float_of_int_fval (n : Z) (i : float) :
  0 <= n -> Py.float_of_int n = Ok i ->
  fval i = mag (round64 (n * 2 ^ 1074) 1) /\
  (0 <=? i)%float = true /\ (i <? infinity)%float = true.
Proof.
  intros Hn Hi. unfold Py.float_of_int in Hi.
  destruct (binary_normalize_mag n) as [Hv Hm].
  rewrite Z.abs_eq in Hm by lia.
  assert (Hs : sign_of (binary_normalize prec emax n 0 false) = false).
  { destruct n as [ | p | p]; [reflexivity | | lia].
    exact (proj1 (proj2 (binary_round_valid false p 0 ltac:(lia)))). }
  pose proof (pow2_pos 1074 ltac:(lia)) as HU.
  destruct (round64_valid (n * 2 ^ 1074) 1 ltac:(lia) ltac:(lia)) as (_ & _ & v & Hmv & Hv0).
  rewrite Hmv in Hm.
  remember (binary_normalize prec emax n 0 false) as r eqn:Hr.
  assert (Hi' : i = SF2Prim r) by (destruct r; congruence).
  assert (Hfv : fval i = Some v).
  { apply fval_of_mag with r; [subst i; now apply Prim2SF_SF2Prim | exact Hs | exact Hm]. }
  assert (Hfin : v < top).
  { destruct (Z_lt_le_dec v top) as [ | Hge]; [assumption|]. exfalso.
    destruct (proj2 (mag_lt_top _ _ Hv Hm) Hge) as (s & ->). discriminate. }
  rewrite Hmv. split; [exact Hfv|].
  split; [apply nonneg_fval | apply finite_fval]; exists v; split; assumption.
Qed.

Lemma float_of_int_mono (n m : Z) (i j : float) :
  0 <= n <= m -> Py.float_of_int n = Ok i -> Py.float_of_int m = Ok j ->
  (i <=? j)%float = true.
Proof.
  intros Hnm Hi Hj.
  destruct (float_of_int_fval n i ltac:(lia) Hi) as (Hfi & _).
  destruct (float_of_int_fval m j ltac:(lia) Hj) as (Hfj & _).
  pose proof (pow2_pos 1074 ltac:(lia)) as HU. remember (2 ^ 1074) as U.
  eapply mag_leb; [exact Hfi | exact Hfj |].
  apply round64_mono; try lia; nia.
Qed.

(** [float(n)] of a non-negative [int] below [float_limit]. *)
Lemma float_of_int_below_limit (n : Z) :
  0 <= n < float_limit ->
  exists i, Py.float_of_int n = Ok i /\
            (0 <=? i)%float = true /\ (i <? infinity)%float = true.
Proof.
  intros Hn.
  destruct (proj2 (float_of_int_overflow n) ltac:(lia)) as (i & Hi).
  exists i. split; [exact Hi|].
  exact (proj2 (float_of_int_fval n i ltac:(lia) Hi)).
Qed.

Lemma new_credit_refines (n m : Z) :
  0 <= n <= max_float_int -> 0 <= m <= max_float_int ->
  exists i a : float,
    Py.float_of_int n = Ok i /\ Py.float_of_int m = Ok a /\
    calculate_new_credit_score n m = Ok (new_credit_spec i a) /\
    (0.40 <=? new_credit_spec i a)%float = true /\
    (new_credit_spec i a <=? 1.0)%float = true.
Proof.
  intros Hn Hm.
  destruct (float_of_int_range n Hn) as (i & Hi & Hi0 & Hif).
  destruct (float_of_int_range m Hm) as (a & Ha & Ha0 & Haf).
  exists i, a. split; [exact Hi|]. split; [exact Ha|].
  pose proof (mul_nonneg i 0.15 Hi0 Hif eq_refl eq_refl) as Hx.
  pose proof (mul_nonneg a 0.20 Ha0 Haf eq_refl eq_refl) as Hy.
  destruct (min_range (i * 0.15) 0.60 Hx eq_refl) as (Hp1 & Hp10 & Hp11).
  destruct (min_range (a * 0.20) 0.60 Hy eq_refl) as (Hp2 & Hp20 & Hp21).
  destruct (max_range _ _ 0.60 Hp10 Hp11 Hp20 Hp21) as (Hpm & Hpm0 & Hpm1).
  destruct (sub_range 1.0 _ 0.60 0.40 Hpm0 Hpm1 eq_refl) as [Hlo Hhi].
  unfold calculate_new_credit_score, new_credit_spec.
  rewrite Hi, Ha. cbn [bind].
  rewrite <- Hp1, <- Hp2, <- Hpm.
  repeat split; try assumption; reflexivity.
Qed.

(** The same for every pair of counts below [float_limit]. *)
Lemma new_credit_refines_limit (n m : Z) :
  0 <= n < float_limit -> 0 <= m < float_limit ->
  exists i a : float,
    Py.float_of_int n = Ok i /\ Py.float_of_int m = Ok a /\
    calculate_new_credit_score n m = Ok (new_credit_spec i a) /\
    (0.40 <=? new_credit_spec i a)%float = true /\
    (new_credit_spec i a <=? 1.0)%float = true.
Proof.
  intros Hn Hm.
  destruct (float_of_int_below_limit n Hn) as (i & Hi & Hi0 & Hif).
  destruct (float_of_int_below_limit m Hm) as (a & Ha & Ha0 & Haf).
  exists i, a. split; [exact Hi|]. split; [exact Ha|].
  pose proof (mul_nonneg i 0.15 Hi0 Hif eq_refl eq_refl) as Hx.
  pose proof (mul_nonneg a 0.20 Ha0 Haf eq_refl eq_refl) as Hy.
  destruct (min_range (i * 0.15) 0.60 Hx eq_refl) as (Hp1 & Hp10 & Hp11).
  destruct (min_range (a * 0.20) 0.60 Hy eq_refl) as (Hp2 & Hp20 & Hp21).
  destruct (max_range _ _ 0.60 Hp10 Hp11 Hp20 Hp21) as (Hpm & Hpm0 & Hpm1).
  destruct (sub_range 1.0 _ 0.60 0.40 Hpm0 Hpm1 eq_refl) as [Hlo Hhi].
  unfold calculate_new_credit_score, new_credit_spec.
  rewrite Hi, Ha. cbn [bind].
  rewrite <- Hp1, <- Hp2, <- Hpm.
  repeat split; try assumption; reflexivity.
Qed.

(** C5, as amended: for every pair of non-negative counts below
    2^1024 - 2^970, the least integer that has no float, the new-credit
    sub-score is 1.0 - max(min(i*0.15, 0.60), min(a*0.20, 0.60)) on the
    counts as floats (the larger penalty alone applies) and lies in
    [0.40, 1.0]; when a count is 2^1024 - 2^970 or more the call raises
    OverflowError; N(4,0) = 0.40, N(0,4) = 0.40 and N(2,2) = 0.60. *)
Theorem new_credit_score_spec (n m : Z) :
  0 <= n -> 0 <= m ->
  (n < float_limit -> m < float_limit ->
   exists i a : float,
     Py.float_of_int n = Ok i /\ Py.float_of_int m = Ok a /\
     calculate_new_credit_score n m = Ok (new_credit_spec i a) /\
     (0.40 <=? new_credit_spec i a)%float = true /\
     (new_credit_spec i a <=? 1.0)%float = true) /\
  (float_limit <= n \/ float_limit <= m ->
   calculate_new_credit_score n m = Raise OverflowError) /\
  calculate_new_credit_score 4 0 = Ok 0.40%float /\
  calculate_new_credit_score 0 4 = Ok 0.40%float /\
  calculate_new_credit_score 2 2 = Ok 0.60%float.
Proof.
  intros Hn Hm.
  split; [intros Hn' Hm'; apply new_credit_refines_limit; lia|].
  split; [|repeat split; reflexivity].
  intros Hbig. unfold calculate_new_credit_score.
  destruct (Z_lt_le_dec n float_limit) as [Hn' | Hn'].
  - destruct (float_of_int_below_limit n ltac:(lia)) as (i & -> & _). cbn [bind].
    rewrite (proj1 (float_of_int_overflow m)) by lia. reflexivity.
  - rewrite (proj1 (float_of_int_overflow n)) by lia. reflexivity.
Qed.

(** A pair of counts between the largest float and [float_limit]: both
    convert, to the largest float, and the sub-score is the floor 0.40. *)
Lemma new_credit_score_spec_witness :
  max_float_int < float_limit - 1 /\
  exists i a : float,
    Py.float_of_int (float_limit - 1) = Ok i /\
    Py.float_of_int (max_float_int + 1) = Ok a /\
    calculate_new_credit_score (float_limit - 1) (max_float_int + 1)
      = Ok (new_credit_spec i a) /\
    (0.40 <=? new_credit_spec i a)%float = true /\
    (new_credit_spec i a <=? 1.0)%float = true.
Proof.
  split; [unfold max_float_int, float_limit; lia|].
  apply (new_credit_score_spec (float_limit - 1) (max_float_int + 1));
    unfold max_float_int, float_limit; lia.
Defined.

(** A non-negative count beyond the range of floats has no sub-score: the
    product with 0.15 raises [OverflowError]. *)
Lemma new_credit_score_overflow :
  0 <= 2 ^ 1024 /\
  calculate_new_credit_score (2 ^ 1024) 0 = Raise OverflowError.
Proof.
  split; [apply Z.pow_nonneg; lia|]. vm_compute. reflexivity.
Qed.

(** ** The aggregator and the entry point *)

Lemma calculate_final_score_five (ph cu ca cm nc : float) :
  calculate_final_score (components_of ph cu ca cm nc) =
    (final_score <- Py.round (total_score ph cu ca cm nc + MIN_SCORE_f) ;;
     Ok (clamp final_score, contributions ph cu ca cm nc)).
Proof. reflexivity. Qed.

Lemma clamp_range (z : Z) : MIN_SCORE <= clamp z <= MAX_SCORE.
Proof. unfold clamp, MIN_SCORE, MAX_SCORE. lia. Qed.

Lemma round_raises (x : float) (e : exn) :
  Py.round x = Raise e -> e = ValueError \/ e = OverflowError.
Proof.
  unfold Py.round. destruct (Prim2SF x); intros H; try discriminate;
    injection H as <-; auto.
Qed.

Lemma round_finite (x : float) :
  is_finite x = true -> exists z, Py.round x = Ok z.
Proof.
  unfold is_finite, is_nan, is_infinity, Py.round.
  rewrite !eqb_spec, abs_spec.
  destruct (Prim2SF x) as [s | s | | s m e]; try (intros _; eexists; reflexivity).
  - replace (Prim2SF infinity) with (S754_infinity false) by reflexivity.
    rewrite orb_comm. cbn. discriminate.
  - cbn. discriminate.
Qed.

Lemma credit_mix_raises (ns nu : Z) (c : bool) (e : exn) :
  calculate_credit_mix_score ns nu c = Raise e -> e = OverflowError.
Proof.
  unfold calculate_credit_mix_score.
  destruct (ns + nu + Z.b2z c =? 0); [discriminate|].
  destruct (Py.float_of_int (Z.min ns 2)) as [s | e1] eqn:H1; cbn [bind];
    [|intros H; injection H as <-; exact (float_of_int_raises _ _ H1)].
  destruct (Py.float_of_int (Z.min nu 2)) as [u | e2] eqn:H2; cbn [bind];
    [|intros H; injection H as <-; exact (float_of_int_raises _ _ H2)].
  destruct (Py.float_of_int (Z.b2z c)) as [k | e3] eqn:H3; cbn [bind];
    [discriminate|intros H; injection H as <-; exact (float_of_int_raises _ _ H3)].
Qed.

Lemma new_credit_raises (ni nn : Z) (e : exn) :
  calculate_new_credit_score ni nn = Raise e -> e = OverflowError.
Proof.
  unfold calculate_new_credit_score.
  destruct (Py.float_of_int ni) as [i | e1] eqn:H1; cbn [bind];
    [|intros H; injection H as <-; exact (float_of_int_raises _ _ H1)].
  destruct (Py.float_of_int nn) as [a | e2] eqn:H2; cbn [bind];
    [discriminate|intros H; injection H as <-; exact (float_of_int_raises _ _ H2)].
Qed.

(** The entry point, unfolded: the two sub-scores that convert an [int], then
    the rounding of [total_score + MIN_SCORE] and the clamp. *)
Lemma calculate_score_unfold
    (p d u y : float) (ns nu : Z) (c : bool) (ni nn : Z) :
  calculate_score p d u y ns nu c ni nn =
    (cm <- calculate_credit_mix_score ns nu c ;;
     nc <- calculate_new_credit_score ni nn ;;
     final_score <-
       Py.round (total_score (calculate_payment_history_score p d)
                             (calculate_credit_utilization_score u)
                             (calculate_credit_age_score y) cm nc
                 + MIN_SCORE_f) ;;
     Ok (clamp final_score,
         contributions (calculate_payment_history_score p d)
                       (calculate_credit_utilization_score u)
                       (calculate_credit_age_score y) cm nc)).
Proof. reflexivity. Qed.

Lemma calculate_score_outcome
    (p d u y : float) (ns nu : Z) (c : bool) (ni nn : Z) :
  match calculate_score p d u y ns nu c ni nn with
  | Ok (final_score, _) => MIN_SCORE <= final_score <= MAX_SCORE
  | Raise e => e = OverflowError \/ e = ValueError
  end.
Proof.
  rewrite calculate_score_unfold.
  destruct (calculate_credit_mix_score ns nu c) as [cm | e1] eqn:H1; cbn [bind];
    [|left; exact (credit_mix_raises _ _ _ _ H1)].
  destruct (calculate_new_credit_score ni nn) as [nc | e2] eqn:H2; cbn [bind];
    [|left; exact (new_credit_raises _ _ _ H2)].
  destruct (Py.round _) as [z | e3] eqn:H3; cbn [bind].
  - apply clamp_range.
  - destruct (round_raises _ _ H3); auto.
Qed.

(** A weighted contribution [score * weight * SCORE_RANGE] of a sub-score in
    [0, 1] lies in [0, 600]. *)
Lemma contribution_range (score w : float) :
  in_unit score -> in_unit w ->
  (0 <=? score * w * 600)%float = true /\ (score * w * 600 <=? 600)%float = true.
Proof.
  intros [Hs0 Hs1] [Hw0 Hw1].
  destruct (mul_unit score w 1 Hs0 Hs1 Hw0 Hw1 eq_refl eq_refl) as [H0 H1].
  exact (mul_unit (score * w) 600 600 H0 H1 eq_refl eq_refl eq_refl eq_refl).
Qed.

(** With five sub-scores in [0, 1] the total is at most 3000, and finite
    after the addition of [MIN_SCORE]. *)
Lemma total_score_finite (ph cu ca cm nc : float) :
  in_unit ph -> in_unit cu -> in_unit ca -> in_unit cm -> in_unit nc ->
  is_finite (total_score ph cu ca cm nc + MIN_SCORE_f) = true.
Proof.
  intros Hph Hcu Hca Hcm Hnc. unfold total_score.
  destruct (contribution_range ph 0.35 Hph (conj eq_refl eq_refl)) as [A0 A1].
  destruct (contribution_range cu 0.30 Hcu (conj eq_refl eq_refl)) as [B0 B1].
  destruct (contribution_range ca 0.15 Hca (conj eq_refl eq_refl)) as [C0 C1].
  destruct (contribution_range cm 0.10 Hcm (conj eq_refl eq_refl)) as [D0 D1].
  destruct (contribution_range nc 0.10 Hnc (conj eq_refl eq_refl)) as [E0 E1].
  destruct (add_range 0 _ 0 600 600 eq_refl eq_refl A0 A1 eq_refl) as [T1 T1'].
  destruct (add_range _ _ 600 600 1200 T1 T1' B0 B1 eq_refl) as [T2 T2'].
  destruct (add_range _ _ 1200 600 1800 T2 T2' C0 C1 eq_refl) as [T3 T3'].
  destruct (add_range _ _ 1800 600 2400 T3 T3' D0 D1 eq_refl) as [T4 T4'].
  destruct (add_range _ _ 2400 600 3000 T4 T4' E0 E1 eq_refl) as [T5 T5'].
  destruct (add_range _ MIN_SCORE_f 3000 300 3300 T5 T5' eq_refl eq_refl eq_refl)
    as [T6 T6'].
  exact (bounded_is_finite _ 3300 T6 T6' eq_refl).
Qed.





(** ** A hand-assembled mapping passed to the aggregator *)

Lemma weigh_raises (items : Py.dict) :
  forall (ws : Py.dict) (t : float) (e : exn),
  weigh items ws t = Raise e ->
  exists k, e = KeyError k /\ In k (Py.keys items) /\ Py.get weights k = None.
Proof.
  induction items as [ | [k v] items IH]; intros ws t e; cbn [weigh]; [discriminate|].
  destruct (Py.get weights k) as [w | ] eqn:Hk.
  - intros H. destruct (IH _ _ _ H) as (k' & He & Hin & Hget).
    exists k'. repeat split; [assumption | right; assumption | assumption].
  - intros H. injection H as <-. exists k. repeat split; [left; reflexivity | assumption].
Qed.

Lemma weigh_known (items : Py.dict) :
  forall (ws : Py.dict) (t : float) (st : Py.dict * float),
  weigh items ws t = Ok st ->
  forall k, In k (Py.keys items) -> Py.get weights k <> None.
Proof.
  induction items as [ | [k' v] items IH]; intros ws t st H k Hin;
    cbn [weigh Py.keys map fst In] in *; [contradiction|].
  destruct (Py.get weights k') as [w | ] eqn:Hk'; [|discriminate].
  destruct Hin as [<- | Hin]; [congruence|].
  exact (IH _ _ _ H k Hin).
Qed.

Lemma set_absent (ws : Py.dict) (k : string) (v : float) :
  ~ In k (Py.keys ws) -> Py.set ws k v = ws ++ [(k, v)].
Proof.
  induction ws as [ | [k' v'] ws IH]; cbn [Py.set Py.keys map fst In app]; intros Hn.
  - reflexivity.
  - destruct (String.eqb_spec k' k) as [-> | Hne]; [exfalso; auto|].
    f_equal. apply IH. intros Hin. apply Hn. right. exact Hin.
Qed.

Lemma keys_app (d1 d2 : Py.dict) :
  Py.keys (d1 ++ d2) = Py.keys d1 ++ Py.keys d2.
Proof. apply map_app. Qed.

Lemma weigh_keys (items : Py.dict) :
  forall (ws ws' : Py.dict) (t t' : float),
  NoDup (Py.keys ws ++ Py.keys items) ->
  weigh items ws t = Ok (ws', t') ->
  Py.keys ws' = Py.keys ws ++ Py.keys items.
Proof.
  induction items as [ | [k v] items IH]; intros ws ws' t t' Hnd; cbn [weigh].
  - intros H. injection H as <- _. cbn. now rewrite app_nil_r.
  - destruct (Py.get weights k) as [w | ]; [|discriminate].
    change (Py.keys ((k, v) :: items)) with (k :: Py.keys items) in *.
    assert (Hk : ~ In k (Py.keys ws)).
    { intros Hin. apply NoDup_remove_2 in Hnd. apply Hnd.
      apply in_or_app. left. exact Hin. }
    rewrite (set_absent ws k _ Hk). intros H.
    assert (Hnd' : NoDup (Py.keys (ws ++ [(k, (v * w * SCORE_RANGE_f)%float)])
                          ++ Py.keys items)).
    { rewrite keys_app, <- app_assoc. exact Hnd. }
    rewrite (IH _ _ _ _ Hnd' H), keys_app, <- app_assoc. reflexivity.
Qed.

(** C6, as amended: calculate_final_score fails with a KeyError exactly when
    the mapping has a key that is not one of the five component names; a
    mapping that lacks some of them is aggregated over the keys it has, and
    the contributions returned have the keys of the mapping, in its order. *)
Theorem final_score_key_lookup (components : Py.dict) :
  ((exists k, In k (Py.keys components) /\ Py.get weights k = None) <->
   (exists k, calculate_final_score components = Raise (KeyError k))) /\
  (forall (final_score : Z) (weighted_scores : Py.dict),
     NoDup (Py.keys components) ->
     calculate_final_score components = Ok (final_score, weighted_scores) ->
     Py.keys weighted_scores = Py.keys components) /\
  calculate_final_score [("payment_history", 1%float)]
    = Ok (510, [("payment_history", 210%float)]) /\
  calculate_final_score [("payment_history", 1%float); ("income", 1%float)]
    = Raise (KeyError "income").
Proof.
  unfold calculate_final_score.
  split; [split|split; [|split; reflexivity]].
  - intros (k & Hin & Hget).
    destruct (weigh components [] 0) as [[ws t] | e] eqn:Hw.
    + exfalso. exact (weigh_known _ _ _ _ Hw k Hin Hget).
    + destruct (weigh_raises _ _ _ _ Hw) as (k' & -> & _). exists k'. reflexivity.
  - intros (k & H).
    destruct (weigh components [] 0) as [[ws t] | e] eqn:Hw; cbn [bind] in H.
    + destruct (Py.round (t + MIN_SCORE_f)) as [z | e] eqn:Hr; cbn [bind] in H;
        [discriminate|].
      injection H as ->. destruct (round_raises _ _ Hr); discriminate.
    + injection H as ->.
      destruct (weigh_raises _ _ _ _ Hw) as (k' & He & Hin & Hget).
      exists k'. split; assumption.
  - intros s w Hnd H.
    destruct (weigh components [] 0) as [[ws t] | e] eqn:Hw; cbn [bind] in H;
      [|discriminate].
    destruct (Py.round (t + MIN_SCORE_f)) as [z | e]; cbn [bind] in H; [|discriminate].
    injection H as _ <-.
    exact (weigh_keys components [] ws 0 t Hnd Hw).
Qed.

(** A mapping that lacks four of the five components is aggregated without
    an error: the call returns 510 and the one contribution. *)
Lemma final_score_of_partial_mapping :
  calculate_final_score [("payment_history", 1%float)]
    = Ok (510, [("payment_history", 210%float)]).
Proof. reflexivity. Qed.

(** ** The weights *)



(** ** The sample call *)

(** C9: on the sample input (95, 5, 25, 3, 1, 1, true, 1, 0) the component
    scores are payment_history = 0.95 * (1 - (5/90) * 0.5), about 0.9236,
    credit_utilization = 1.00, credit_age = 0.85, credit_mix = 0.70 and
    new_credit = 0.85, the weighted contributions are about 193.9583, 180.0,
    76.5, 42.0 and 51.0, and the final score is 843, the rounding of about
    543.4583 + 300. *)
Theorem sample_call :
  calculate_payment_history_score 95 5 = (0.95 * (1 - 5 / 90 * 0.5))%float /\
  within 0.92355 (calculate_payment_history_score 95 5) 0.92365 = true /\
  calculate_credit_utilization_score 25 = 1.00%float /\
  calculate_credit_age_score 3 = 0.85%float /\
  calculate_credit_mix_score 1 1 true = Ok 0.70%float /\
  calculate_new_credit_score 1 0 = Ok 0.85%float /\
  calculate_score 95 5 25 3 1 1 true 1 0
    = Ok (843, contributions (calculate_payment_history_score 95 5) 1.00 0.85 0.70 0.85) /\
  (let w := contributions (calculate_payment_history_score 95 5) 1.00 0.85 0.70 0.85 in
   match Py.values w with
   | [a; b; c; d; e] =>
       within 193.95825 a 193.95835 && within 179.99995 b 180.00005
       && within 76.49995 c 76.50005 && within 41.99995 d 42.00005
       && within 50.99995 e 51.00005
   | _ => false
   end = true) /\
  within 543.45825 (total_score (calculate_payment_history_score 95 5) 1.00 0.85 0.70 0.85)
         543.45835 = true /\
  Py.round (total_score (calculate_payment_history_score 95 5) 1.00 0.85 0.70 0.85
            + MIN_SCORE_f) = Ok 843.
Proof. repeat split; vm_compute; reflexivity. Qed.

(** * Further properties of the calculator

    What the code shows beyond its specification: each sub-score is
    monotone in its inputs and reaches its cap or floor where the code says
    so, the aggregator returns the contributions it sums, and within the
    contract the final score lies in [426, 900] and grows with the quality
    of the profile.  The lemmas come first, function by function; the
    properties are stated at the end. *)

(** ** Order and rounding *)

(** Scaling a fraction does not change its rounding. *)
Lemma rne_scale (M D c : Z) : 0 < D -> 0 < c -> rne (M * c) (D * c) = rne M D.
Proof.
  intros HD Hc. unfold rne, frac_loc.
  rewrite Z.div_mul_cancel_r, Z.mul_mod_distr_r by lia.
  pose proof (Z.mod_pos_bound M D HD) as Hr. remember (M mod D) as r. clear Heqr.
  destruct (Z.eqb_spec r 0) as [-> | Hr0]; [reflexivity|].
  replace (r * c =? 0) with false by (symmetry; apply Z.eqb_neq; nia).
  rewrite Z.mul_assoc, <- Zmult_compare_compat_r by lia. reflexivity.
Qed.

(** [round_half_even] rounds the value of the float, in units of
    [2^-1074]. *)
Lemma round_half_even_rne (m : positive) (e : Z) :
  -1074 <= e ->
  Py.round_half_even (Zpos m) e = rne (Zpos m * 2 ^ (e + 1074)) (2 ^ 1074).
Proof.
  intros He. unfold Py.round_half_even.
  destruct (Z.leb_spec 0 e) as [H0 | H0].
  - rewrite Z.pow_add_r by lia. rewrite Z.mul_assoc.
    pose proof (pow2_pos 1074 ltac:(lia)). remember (2 ^ 1074) as U.
    rewrite rne_exact by (apply Z.mod_mul; lia).
    rewrite Z.div_mul by lia. reflexivity.
  - pose proof (pow2_pos (e + 1074) ltac:(lia)) as Hc.
    pose proof (pow2_pos (- e) ltac:(lia)) as Hd.
    replace (2 ^ 1074) with (2 ^ (- e) * 2 ^ (e + 1074))
      by (rewrite <- Z.pow_add_r by lia; f_equal; lia).
    rewrite rne_scale by lia.
    cbv zeta. unfold rne, frac_loc, round_nearest_even.
    pose proof (Z.mod_pos_bound (Zpos m) (2 ^ (- e)) Hd) as Hr.
    remember (2 ^ (- e)) as d. remember (Zpos m mod d) as r. remember (Zpos m / d) as q.
    destruct (Z.eqb_spec r 0) as [-> | Hr0].
    + assert (Hlt : (2 * 0 ?= d) = Lt) by (apply Z.compare_lt_iff; lia).
      rewrite Hlt. reflexivity.
    + destruct (2 * r ?= d); reflexivity.
Qed.

(** [round(x)] of a finite non-negative float is its value rounded to the
    nearest integer, ties to even. *)
Lemma round_nonneg (x : float) (a : Z) :
  fval x = Some a -> 0 <= a < top -> Py.round x = Ok (rne a (2 ^ 1074)).
Proof.
  intros Hx Ha. unfold Py.round.
  destruct (fval_nonneg_inv x a Hx ltac:(lia)) as [s -> -> | m e -> Hb -> _ | _ ->];
    [| | lia].
  - rewrite rne_exact by (apply Z.mod_0_l; lia). rewrite Z.div_0_l by lia. reflexivity.
  - pose proof (bounded_inv _ _ Hb) as (He & _).
    cbn [cond_Zopp]. rewrite round_half_even_rne by lia. reflexivity.
Qed.

Lemma round_float_mono (x1 x2 : float) :
  (0 <=? x1)%float = true -> (x1 <=? x2)%float = true ->
  (x2 <? infinity)%float = true ->
  exists z1 z2, Py.round x1 = Ok z1 /\ Py.round x2 = Ok z2 /\ 0 <= z1 <= z2.
Proof.
  intros H0 H12 Hf.
  destruct (chain_fval x1 x2 H0 H12 Hf) as (a1 & a2 & Ha1 & Ha2 & Ha & Haf).
  pose proof (pow2_pos 1074 ltac:(lia)) as HU.
  exists (rne a1 (2 ^ 1074)), (rne a2 (2 ^ 1074)).
  split; [apply round_nonneg; [assumption | lia]|].
  split; [apply round_nonneg; [assumption | lia]|].
  remember (2 ^ 1074) as U. split.
  - pose proof (rne_bounds a1 U). pose proof (Z.div_pos a1 U ltac:(lia) ltac:(lia)). lia.
  - apply rne_mono; [lia | lia | apply Z.mul_le_mono_nonneg_r; lia].
Qed.

Lemma leb_refl (x : float) : fval x <> None -> (x <=? x)%float = true.
Proof.
  intros H. rewrite leb_fval. destruct (fval x); [apply Z.leb_refl | congruence].
Qed.

(** A quotient by a finite float that is at least 1 does not exceed the
    dividend. *)
Lemma div_le_self (x y : float) :
  (0 <=? x)%float = true -> (x <? infinity)%float = true ->
  (1 <=? y)%float = true -> (y <? infinity)%float = true ->
  (0 <=? x / y)%float = true /\ (x / y <=? x)%float = true.
Proof.
  intros Hx Hxf Hy Hyf.
  apply nonneg_fval in Hx as (a & Ha & Ha0).
  apply finite_fval in Hxf as (a' & Ha' & Haf).
  destruct (chain_fval 1 y eq_refl Hy Hyf) as (o & b & Ho & Hb & Hob & Hbf).
  rewrite Ha in Ha'. rewrite fval_one in Ho. apply Some_inj in Ha', Ho. subst a' o.
  pose proof (pow2_pos 1074 ltac:(lia)) as HU.
  pose proof (div_round x y a b Ha Hb ltac:(lia) ltac:(lia)) as Hq.
  pose proof (round64_fval x a Ha ltac:(lia)) as Hs.
  remember (2 ^ 1074) as U.
  destruct (round64_mono (a * U) b a 1) as (v1 & v2 & Hv1 & Hv2 & Hle);
    [nia | lia | lia | lia | nia |].
  rewrite Hs in Hv2. apply Some_inj in Hv2. subst v2.
  destruct (round64_valid (a * U) b ltac:(nia) ltac:(lia)) as (_ & _ & v & Hv & Hv0).
  rewrite Hv1 in Hv. apply Some_inj in Hv. subst v.
  rewrite Hv1 in Hq.
  split; [apply nonneg_fval; now exists v1|].
  apply leb_true_iff. now exists v1, a.
Qed.

(** A product by a float of [0, 1] does not exceed the other factor. *)
Lemma mul_le_self (x y : float) :
  (0 <=? x)%float = true -> (x <? infinity)%float = true ->
  (0 <=? y)%float = true -> (y <=? 1)%float = true ->
  (0 <=? x * y)%float = true /\ (x * y <=? x)%float = true.
Proof.
  intros Hx Hxf Hy Hy1.
  apply nonneg_fval in Hx as (a & Ha & Ha0).
  apply finite_fval in Hxf as (a' & Ha' & Haf).
  destruct (chain_fval y 1 Hy Hy1 eq_refl) as (b & o & Hb & Ho & Hbo & _).
  rewrite Ha in Ha'. rewrite fval_one in Ho. apply Some_inj in Ha', Ho. subst a' o.
  pose proof unit_lt_top as HU.
  pose proof (mul_round x y a b Ha Hb ltac:(lia) ltac:(lia)) as Hq.
  pose proof (round64_fval x a Ha ltac:(lia)) as Hs.
  remember (2 ^ 1074) as U.
  destruct (round64_mono (a * b) U a 1) as (v1 & v2 & Hv1 & Hv2 & Hle);
    [nia | lia | lia | lia | nia |].
  rewrite Hs in Hv2. apply Some_inj in Hv2. subst v2.
  destruct (round64_valid (a * b) U ltac:(nia) ltac:(lia)) as (_ & _ & v & Hv & Hv0).
  rewrite Hv1 in Hv. apply Some_inj in Hv. subst v.
  rewrite Hv1 in Hq.
  split; [apply nonneg_fval; now exists v1|].
  apply leb_true_iff. now exists v1, a.
Qed.

Lemma min_mono (a1 a2 c : float) :
  (a1 <=? a2)%float = true -> fval c <> None ->
  (Py.min a1 c <=? Py.min a2 c)%float = true.
Proof.
  intros H Hc. apply leb_true_iff in H as (v1 & v2 & H1 & H2 & Hle).
  unfold Py.min. rewrite !ltb_fval, H1, H2.
  destruct (fval c) as [vc | ] eqn:Hvc; [|congruence].
  destruct (Z.ltb_spec vc v1), (Z.ltb_spec vc v2); apply leb_true_iff.
  - exists vc, vc. repeat split; try assumption; lia.
  - exists vc, v2. repeat split; try assumption; lia.
  - exists v1, vc. repeat split; try assumption; lia.
  - exists v1, v2. repeat split; try assumption; lia.
Qed.

Lemma max_mono (a1 b1 a2 b2 : float) :
  (a1 <=? a2)%float = true -> (b1 <=? b2)%float = true ->
  (Py.max a1 b1 <=? Py.max a2 b2)%float = true.
Proof.
  intros Ha Hb.
  apply leb_true_iff in Ha as (u1 & u2 & Hu1 & Hu2 & Hu).
  apply leb_true_iff in Hb as (w1 & w2 & Hw1 & Hw2 & Hw).
  unfold Py.max. rewrite !ltb_fval, Hu1, Hu2, Hw1, Hw2.
  destruct (Z.ltb_spec u1 w1), (Z.ltb_spec u2 w2); apply leb_true_iff.
  - exists w1, w2. repeat split; try assumption; lia.
  - exists w1, u2. repeat split; try assumption; lia.
  - exists u1, w2. repeat split; try assumption; lia.
  - exists u1, u2. repeat split; try assumption; lia.
Qed.

(** The float above every other one. *)
Lemma not_finite_infinity (x : float) :
  fval x <> None -> (0 <=? x)%float = true -> (x <? infinity)%float = false ->
  x = infinity.
Proof.
  intros Hn H0 Hf.
  apply nonneg_fval in H0 as (a & Ha & Ha0).
  rewrite ltb_fval, Ha, fval_infinity in Hf. apply Z.ltb_ge in Hf.
  destruct (fval_nonneg_inv x a Ha Ha0) as [? ? ? | m e Hp Hb Hv Hr | Hp Hv].
  - pose proof unit_lt_top. lia.
  - lia.
  - apply Prim2SF_inj. rewrite Hp. reflexivity.
Qed.

(** ** Payment history: the penalty *)

(** The factor [1 - min(d / 90, 1) * 0.5] of a late payment lies in
    [0.5, 1]. *)
Lemma late_factor_range (d : float) :
  (0 <=? d)%float = true ->
  (0.5 <=? 1 - Py.min (d / 90) 1 * 0.5)%float = true /\
  (1 - Py.min (d / 90) 1 * 0.5 <=? 1)%float = true.
Proof.
  intros Hd.
  pose proof (div_nonneg d 90 Hd eq_refl eq_refl) as Hx0.
  destruct (min_range (d / 90) 1 Hx0 eq_refl) as (_ & Hl0 & Hl1).
  destruct (mul_unit (Py.min (d / 90) 1) 0.5 0.5 Hl0 Hl1 eq_refl eq_refl eq_refl eq_refl)
    as [Hh0 Hh1].
  exact (sub_range 1 (Py.min (d / 90) 1 * 0.5) 0.5 0.5 Hh0 Hh1 eq_refl).
Qed.

(** A minimum with a positive float that the other argument reaches. *)
Lemma min_saturates (x c : float) :
  (c <=? x)%float = true -> (0 <? c)%float = true -> Py.min x c = c.
Proof.
  intros H Hc. unfold Py.min. destruct (c <? x)%float eqn:Hlt; [reflexivity|].
  symmetry. apply leb_antisym; [exact H | | exact Hc].
  rewrite ltb_fval in Hlt. rewrite leb_fval.
  destruct (leb_comparable _ _ H) as [Ho Hq].
  destruct (fval c) as [o | ], (fval x) as [q | ]; try congruence.
  apply Z.ltb_ge in Hlt. now apply Z.leb_le.
Qed.

(** From 90 days on the penalty is the largest one. *)
Lemma late_factor_saturates (d : float) :
  (90 <=? d)%float = true -> Py.min (d / 90) 1 = 1%float.
Proof.
  intros Hd. apply min_saturates; [|reflexivity].
  destruct (d <? infinity)%float eqn:Hf.
  - change 1%float with (90 / 90)%float at 1.
    apply div_mono; try reflexivity; assumption.
  - rewrite (not_finite_infinity d); try reflexivity; try assumption.
    + exact (proj2 (leb_comparable _ _ Hd)).
    + exact (leb_trans 0 90 d eq_refl Hd).
Qed.

Lemma payment_history_bounds (p d : float) :
  (0 <=? p)%float = true -> (p <? infinity)%float = true ->
  (0 <=? p / 100)%float = true /\ (p / 100 <? infinity)%float = true /\
  (p / 100 * 0.5 <=? calculate_payment_history_score p d)%float = true /\
  (calculate_payment_history_score p d <=? p / 100)%float = true.
Proof.
  intros Hp Hpf.
  destruct (div_le_self p 100 Hp Hpf eq_refl eq_refl) as [Hb0 Hbp].
  assert (Hbf : (p / 100 <? infinity)%float = true) by exact (leb_ltb_trans _ _ _ Hbp Hpf).
  assert (Hbb : (p / 100 <=? p / 100)%float = true).
  { apply leb_refl. exact (proj2 (leb_comparable _ _ Hb0)). }
  split; [exact Hb0|]. split; [exact Hbf|].
  unfold calculate_payment_history_score.
  destruct (0 <? d)%float eqn:Hd.
  - destruct (late_factor_range d (ltb_leb _ _ Hd)) as [Hlo Hhi].
    split.
    + apply mul_mono; try assumption; try reflexivity.
      exact (leb_ltb_trans _ 1 infinity Hhi eq_refl).
    + apply mul_le_self; try assumption.
      exact (leb_trans 0 0.5 _ eq_refl Hlo).
  - split; [|exact Hbb].
    apply (mul_le_self (p / 100) 0.5 Hb0 Hbf eq_refl eq_refl).
Qed.

(** More days late never raise the factor. *)
Lemma late_factor_antitone (d1 d2 : float) :
  (0 <? d1)%float = true -> (d1 <=? d2)%float = true ->
  (1 - Py.min (d2 / 90) 1 * 0.5 <=? 1 - Py.min (d1 / 90) 1 * 0.5)%float = true.
Proof.
  intros H1 H12.
  pose proof (ltb_leb _ _ H1) as H10.
  pose proof (leb_trans _ _ _ H10 H12) as H20.
  destruct (d2 <? infinity)%float eqn:Hf.
  - pose proof (div_nonneg d1 90 H10 eq_refl eq_refl) as Hq1.
    pose proof (div_mono d1 90 d2 90 H10 H12 Hf eq_refl eq_refl eq_refl) as Hq.
    destruct (min_range (d1 / 90) 1 Hq1 eq_refl) as (_ & Hm10 & Hm11).
    destruct (min_range (d2 / 90) 1 (leb_trans _ _ _ Hq1 Hq) eq_refl) as (_ & Hm20 & Hm21).
    pose proof (min_mono (d1 / 90) (d2 / 90) 1 Hq ltac:(discriminate)) as Hm.
    pose proof (mul_mono _ 0.5 _ 0.5 Hm10 Hm (leb_ltb_trans _ 1 infinity Hm21 eq_refl)
                  eq_refl eq_refl eq_refl) as Hh.
    destruct (mul_unit (Py.min (d1 / 90) 1) 0.5 0.5 Hm10 Hm11 eq_refl eq_refl eq_refl eq_refl)
      as [Hh10 Hh11].
    destruct (mul_unit (Py.min (d2 / 90) 1) 0.5 0.5 Hm20 Hm21 eq_refl eq_refl eq_refl eq_refl)
      as [Hh20 Hh21].
    apply sub_mono; try reflexivity; try assumption.
    exact (leb_ltb_trans _ 0.5 1 Hh21 eq_refl).
  - rewrite (not_finite_infinity d2 (proj2 (leb_comparable _ _ H12)) H20 Hf).
    exact (proj1 (late_factor_range d1 H10)).
Qed.

(** The payment-history sub-score grows with the share of payments on
    time and shrinks with the days late. *)
Lemma payment_history_mono (p1 d1 p2 d2 : float) :
  (0 <=? p1)%float = true -> (p1 <=? p2)%float = true ->
  (p2 <? infinity)%float = true ->
  d1 = d2 \/ (d2 <=? d1)%float = true ->
  (calculate_payment_history_score p1 d1 <=? calculate_payment_history_score p2 d2)%float
    = true.
Proof.
  intros Hp0 Hp Hpf Hd.
  pose proof (leb_trans _ _ _ Hp0 Hp) as Hp20.
  pose proof (leb_ltb_trans _ _ _ Hp Hpf) as Hp1f.
  destruct (payment_history_bounds p1 d1 Hp0 Hp1f) as (Hb10 & Hb1f & _ & Hu1).
  destruct (payment_history_bounds p2 d2 Hp20 Hpf) as (Hb20 & Hb2f & _ & _).
  pose proof (div_mono p1 100 p2 100 Hp0 Hp Hpf eq_refl eq_refl eq_refl) as Hb.
  unfold calculate_payment_history_score in *.
  destruct (0 <? d2)%float eqn:H2.
  - assert (H1 : (0 <? d1)%float = true).
    { destruct Hd as [-> | Hd]; [exact H2 | exact (ltb_leb_trans _ _ _ H2 Hd)]. }
    rewrite H1 in *.
    destruct (late_factor_range d1 (ltb_leb _ _ H1)) as [Hlo1 Hhi1].
    destruct (late_factor_range d2 (ltb_leb _ _ H2)) as [Hlo2 Hhi2].
    apply mul_mono; try assumption.
    + exact (leb_trans 0 0.5 _ eq_refl Hlo1).
    + destruct Hd as [-> | Hd].
      * apply leb_refl. exact (proj1 (leb_comparable _ _ Hhi2)).
      * now apply late_factor_antitone.
    + exact (leb_ltb_trans _ 1 infinity Hhi2 eq_refl).
  - exact (leb_trans _ _ _ Hu1 Hb).
Qed.


(** ** Utilization and credit age: the order of the buckets *)

Lemma utilization_range (u : float) :
  (0.30 <=? calculate_credit_utilization_score u)%float = true /\
  (calculate_credit_utilization_score u <=? 1)%float = true.
Proof.
  unfold calculate_credit_utilization_score.
  repeat match goal with |- context [if ?b then _ else _] => destruct b end;
    split; reflexivity.
Qed.

Lemma utilization_antitone (u v : float) :
  (10 <? u)%float = true -> (u <=? v)%float = true ->
  (calculate_credit_utilization_score v <=? calculate_credit_utilization_score u)%float
    = true.
Proof.
  intros H10 Huv. unfold calculate_credit_utilization_score.
  rewrite (ltb_not_leb _ _ H10), (ltb_not_leb _ _ (ltb_leb_trans _ _ _ H10 Huv)).
  destruct (v <=? 30)%float eqn:V30;
    [rewrite (leb_trans _ _ _ Huv V30); reflexivity|].
  destruct (u <=? 30)%float eqn:U30;
    [repeat match goal with |- context [if ?b then _ else _] => destruct b end;
     reflexivity|].
  destruct (v <=? 50)%float eqn:V50;
    [rewrite (leb_trans _ _ _ Huv V50); reflexivity|].
  destruct (u <=? 50)%float eqn:U50;
    [repeat match goal with |- context [if ?b then _ else _] => destruct b end;
     reflexivity|].
  destruct (v <=? 75)%float eqn:V75;
    [rewrite (leb_trans _ _ _ Huv V75); reflexivity|].
  destruct (u <=? 75)%float; reflexivity.
Qed.

Lemma credit_age_range (y : float) :
  (0.40 <=? calculate_credit_age_score y)%float = true /\
  (calculate_credit_age_score y <=? 1)%float = true.
Proof.
  unfold calculate_credit_age_score.
  repeat match goal with |- context [if ?b then _ else _] => destruct b end;
    split; reflexivity.
Qed.

Lemma credit_age_monotone (y1 y2 : float) :
  (y1 <=? y2)%float = true ->
  (calculate_credit_age_score y1 <=? calculate_credit_age_score y2)%float = true.
Proof.
  intros H. unfold calculate_credit_age_score.
  destruct (5 <=? y1)%float eqn:A5;
    [rewrite (leb_trans _ _ _ A5 H); reflexivity|].
  destruct (5 <=? y2)%float eqn:B5;
    [repeat match goal with |- context [if ?b then _ else _] => destruct b end;
     reflexivity|].
  destruct (3 <=? y1)%float eqn:A3;
    [rewrite (leb_trans _ _ _ A3 H); reflexivity|].
  destruct (3 <=? y2)%float eqn:B3;
    [repeat match goal with |- context [if ?b then _ else _] => destruct b end;
     reflexivity|].
  destruct (1 <=? y1)%float eqn:A1;
    [rewrite (leb_trans _ _ _ A1 H); reflexivity|].
  destruct (1 <=? y2)%float; reflexivity.
Qed.

(** ** Credit mix: the grid of capped counts *)

(** The counts enter the score through their caps at 2. *)
Lemma credit_mix_capped (ns nu : Z) (c : bool) :
  0 <= ns -> 0 <= nu ->
  credit_mix_spec ns nu c = credit_mix_spec (Z.min ns 2) (Z.min nu 2) c.
Proof.
  intros Hs Hu. unfold credit_mix_spec.
  rewrite (Z.min_l (Z.min ns 2) 2), (Z.min_l (Z.min nu 2) 2) by lia.
  replace (Z.min ns 2 =? 0) with (ns =? 0)
    by (destruct (Z.eqb_spec ns 0), (Z.eqb_spec (Z.min ns 2) 0); try reflexivity; lia).
  replace (Z.min nu 2 =? 0) with (nu =? 0)
    by (destruct (Z.eqb_spec nu 0), (Z.eqb_spec (Z.min nu 2) 0); try reflexivity; lia).
  reflexivity.
Qed.

Lemma cap_cases (n : Z) : 0 <= n -> Z.min n 2 = 0 \/ Z.min n 2 = 1 \/ Z.min n 2 = 2.
Proof. lia. Qed.

Lemma credit_mix_range (ns nu : Z) (c : bool) :
  0 <= ns -> 0 <= nu ->
  (0.20 <=? credit_mix_spec ns nu c)%float = true /\
  (credit_mix_spec ns nu c <=? 1)%float = true.
Proof.
  intros Hs Hu. rewrite (credit_mix_capped ns nu c Hs Hu).
  destruct (cap_cases ns Hs) as [-> | [-> | ->]],
           (cap_cases nu Hu) as [-> | [-> | ->]], c; split; reflexivity.
Qed.

Lemma credit_mix_monotone (ns nu ns' nu' : Z) (c c' : bool) :
  0 <= ns <= ns' -> 0 <= nu <= nu' -> implb c c' = true ->
  0 < ns + nu + Z.b2z c ->
  (credit_mix_spec ns nu c <=? credit_mix_spec ns' nu' c')%float = true.
Proof.
  intros Hs Hu Hc Hp.
  rewrite (credit_mix_capped ns nu c), (credit_mix_capped ns' nu' c') by lia.
  assert (Hs' : Z.min ns 2 <= Z.min ns' 2) by lia.
  assert (Hu' : Z.min nu 2 <= Z.min nu' 2) by lia.
  assert (Hp' : 0 < Z.min ns 2 + Z.min nu 2 + Z.b2z c) by (destruct c; cbn [Z.b2z] in *; lia).
  destruct (cap_cases ns ltac:(lia)) as [E1 | [E1 | E1]],
           (cap_cases nu ltac:(lia)) as [E2 | [E2 | E2]],
           (cap_cases ns' ltac:(lia)) as [E3 | [E3 | E3]],
           (cap_cases nu' ltac:(lia)) as [E4 | [E4 | E4]];
    rewrite E1, E2, E3, E4 in *; try lia;
    destruct c, c'; try discriminate; cbn [Z.b2z] in Hp'; try lia; reflexivity.
Qed.

(** ** New credit: the penalties *)


(** A penalty [min(count * rate, 0.60)] lies in [0, 0.60] and grows with
    the count. *)
Lemma penalty_range (i rate : float) :
  (0 <=? i)%float = true -> (i <? infinity)%float = true ->
  (0 <=? rate)%float = true -> (rate <? infinity)%float = true ->
  (0 <=? Py.min (i * rate) 0.60)%float = true /\
  (Py.min (i * rate) 0.60 <=? 0.60)%float = true.
Proof.
  intros Hi Hif Hr Hrf.
  pose proof (mul_nonneg i rate Hi Hif Hr Hrf) as Hx.
  exact (proj2 (min_range (i * rate) 0.60 Hx eq_refl)).
Qed.

Lemma penalty_mono (i j rate : float) :
  (0 <=? i)%float = true -> (i <=? j)%float = true -> (j <? infinity)%float = true ->
  (0 <=? rate)%float = true -> (rate <? infinity)%float = true ->
  (Py.min (i * rate) 0.60 <=? Py.min (j * rate) 0.60)%float = true.
Proof.
  intros Hi Hij Hjf Hr Hrf.
  apply min_mono; [|discriminate].
  apply mul_mono; try assumption.
  apply leb_refl. exact (proj2 (leb_comparable _ _ Hr)).
Qed.

Lemma new_credit_unfold (n m : Z) (i a : float) :
  Py.float_of_int n = Ok i -> Py.float_of_int m = Ok a ->
  calculate_new_credit_score n m
    = Ok (1.0 - Py.max (Py.min (i * 0.15) 0.60) (Py.min (a * 0.20) 0.60))%float.
Proof.
  intros Hi Ha. unfold calculate_new_credit_score. rewrite Hi, Ha. reflexivity.
Qed.

(** More inquiries or new accounts never raise the new-credit
    sub-score. *)
Lemma new_credit_order (n m n' m' : Z) :
  0 <= n <= n' -> n' <= max_float_int -> 0 <= m <= m' -> m' <= max_float_int ->
  exists s s' : float,
    calculate_new_credit_score n m = Ok s /\
    calculate_new_credit_score n' m' = Ok s' /\
    (s' <=? s)%float = true.
Proof.
  intros Hn Hn' Hm Hm'.
  destruct (float_of_int_range n ltac:(lia)) as (i & Hi & Hi0 & Hif).
  destruct (float_of_int_range n' ltac:(lia)) as (i' & Hi' & Hi0' & Hif').
  destruct (float_of_int_range m ltac:(lia)) as (a & Ha & Ha0 & Haf).
  destruct (float_of_int_range m' ltac:(lia)) as (a' & Ha' & Ha0' & Haf').
  eexists _, _.
  split; [exact (new_credit_unfold n m i a Hi Ha)|].
  split; [exact (new_credit_unfold n' m' i' a' Hi' Ha')|].
  pose proof (float_of_int_mono n n' i i' Hn Hi Hi') as Hii.
  pose proof (float_of_int_mono m m' a a' Hm Ha Ha') as Haa.
  destruct (penalty_range i 0.15 Hi0 Hif eq_refl eq_refl) as [P0 P1].
  destruct (penalty_range a 0.20 Ha0 Haf eq_refl eq_refl) as [Q0 Q1].
  destruct (penalty_range i' 0.15 Hi0' Hif' eq_refl eq_refl) as [P0' P1'].
  destruct (penalty_range a' 0.20 Ha0' Haf' eq_refl eq_refl) as [Q0' Q1'].
  pose proof (penalty_mono i i' 0.15 Hi0 Hii Hif' eq_refl eq_refl) as HP.
  pose proof (penalty_mono a a' 0.20 Ha0 Haa Haf' eq_refl eq_refl) as HQ.
  destruct (max_range _ _ 0.60 P0 P1 Q0 Q1) as (_ & M0 & M1).
  destruct (max_range _ _ 0.60 P0' P1' Q0' Q1') as (_ & M0' & M1').
  apply sub_mono; try reflexivity; try assumption.
  - now apply max_mono.
  - exact (leb_ltb_trans _ 0.60 1.0 M1' eq_refl).
Qed.



(** ** The aggregator on an arbitrary mapping *)

Lemma fval_le_top (x : float) (a : Z) : fval x = Some a -> a <= top.
Proof.
  intros Hx. pose proof unit_lt_top.
  destruct (Z_lt_le_dec a 0) as [ | Ha]; [lia|].
  destruct (fval_nonneg_inv x a Hx Ha) as [? ? ? | ? ? ? ? ? ? | ? ?]; lia.
Qed.

(** A sum of non-negative floats, infinite or not, is a non-negative
    float. *)
Lemma add_nonneg (x y : float) :
  (0 <=? x)%float = true -> (0 <=? y)%float = true -> (0 <=? x + y)%float = true.
Proof.
  intros Hx Hy.
  apply nonneg_fval in Hx as (a & Ha & Ha0).
  apply nonneg_fval in Hy as (b & Hb & Hb0).
  apply nonneg_fval.
  pose proof (fval_le_top x a Ha) as Hat. pose proof (fval_le_top y b Hb) as Hbt.
  destruct (Z.eq_dec a top) as [Hai | Haf].
  - exists top. split; [|lia].
    pose proof (add_spec x y) as Hs. unfold SF64add in Hs.
    destruct (fval_nonneg_inv x a Ha Ha0) as [? ? ? | ? ? ? ? ? ? | Hpx _];
      [pose proof unit_lt_top; lia | lia |].
    rewrite Hpx in Hs. unfold fval. rewrite Hs.
    destruct (fval_nonneg_inv y b Hb Hb0) as [s Hpy _ | m e Hpy _ _ _ | Hpy _];
      rewrite Hpy; reflexivity.
  - destruct (Z.eq_dec b top) as [Hbi | Hbf].
    + exists top. split; [|lia].
      pose proof (add_spec x y) as Hs. unfold SF64add in Hs.
      destruct (fval_nonneg_inv y b Hb Hb0) as [? ? ? | ? ? ? ? ? ? | Hpy _];
        [pose proof unit_lt_top; lia | lia |].
      rewrite Hpy in Hs. unfold fval. rewrite Hs.
      destruct (fval_nonneg_inv x a Ha Ha0) as [s Hpx _ | m e Hpx _ _ _ | Hpx _];
        rewrite Hpx; reflexivity.
    + rewrite (add_round x y a b Ha Hb) by lia.
      destruct (round64_valid (a + b) 1 ltac:(lia) ltac:(lia)) as (_ & _ & v & Hv & Hv0).
      now exists v.
Qed.

Lemma add_infinity (y : float) :
  (0 <=? y)%float = true -> fval (infinity + y) = Some top.
Proof.
  intros Hy. apply nonneg_fval in Hy as (b & Hb & Hb0).
  pose proof (add_spec infinity y) as Hs. unfold SF64add in Hs.
  change (Prim2SF infinity) with (S754_infinity false) in Hs.
  unfold fval. rewrite Hs.
  destruct (fval_nonneg_inv y b Hb Hb0) as [s Hpy _ | m e Hpy _ _ _ | Hpy _];
    rewrite Hpy; reflexivity.
Qed.

(** Addition is monotone on non-negative floats, the first one infinite or
    not. *)
Lemma add_mono_any (x1 y1 x2 y2 : float) :
  (0 <=? x1)%float = true -> (x1 <=? x2)%float = true ->
  (0 <=? y1)%float = true -> (y1 <=? y2)%float = true ->
  (y2 <? infinity)%float = true ->
  (x1 + y1 <=? x2 + y2)%float = true.
Proof.
  intros Hx0 Hx Hy0 Hy Hyf.
  destruct (x2 <? infinity)%float eqn:Hxf; [now apply add_mono|].
  pose proof (leb_trans _ _ _ Hx0 Hx) as Hx20.
  rewrite (not_finite_infinity x2 (proj2 (leb_comparable _ _ Hx)) Hx20 Hxf).
  pose proof (add_nonneg x1 y1 Hx0 Hy0) as Hs.
  apply nonneg_fval in Hs as (c & Hc & Hc0).
  apply leb_true_iff. exists c, top. split; [exact Hc|].
  split; [apply add_infinity; exact (leb_trans _ _ _ Hy0 Hy) | exact (fval_le_top _ _ Hc)].
Qed.

(** Every weight lies in [0, 1]. *)
Lemma weights_in_unit (k : string) (w : float) :
  Py.get weights k = Some w -> in_unit w.
Proof.
  unfold weights. cbn [Py.get].
  repeat match goal with
         | |- context [String.eqb ?a ?b] => destruct (String.eqb a b)
         end;
    intros H; try discriminate; apply Some_inj in H; subst w; split; reflexivity.
Qed.

(** The loop keeps the order of the running totals. *)
Lemma weigh_mono (c1 c2 : Py.dict) :
  below c1 c2 ->
  forall (ws1 ws2 ws1' ws2' : Py.dict) (t1 t2 t1' t2' : float),
  (0 <=? t1)%float = true -> (t1 <=? t2)%float = true ->
  weigh c1 ws1 t1 = Ok (ws1', t1') -> weigh c2 ws2 t2 = Ok (ws2', t2') ->
  (0 <=? t1')%float = true /\ (t1' <=? t2')%float = true.
Proof.
  induction 1 as [ | [k1 v1] [k2 v2] c1 c2 (Hk & Hv0 & Hv & Hv1) Hrest IH];
    intros ws1 ws2 ws1' ws2' t1 t2 t1' t2' Ht0 Ht; cbn [weigh fst snd] in *.
  - intros H1 H2. injection H1 as _ <-. injection H2 as _ <-. now split.
  - subst k2. destruct (Py.get weights k1) as [w | ] eqn:Hw; [|discriminate].
    destruct (weights_in_unit k1 w Hw) as [Hw0 Hw1].
    assert (Hww : (w <=? w)%float = true).
    { apply leb_refl. exact (proj2 (leb_comparable _ _ Hw0)). }
    assert (Hwf : (w <? infinity)%float = true) by exact (leb_ltb_trans _ 1 infinity Hw1 eq_refl).
    pose proof (leb_trans _ _ _ Hv0 Hv) as Hv20.
    pose proof (leb_trans _ _ _ Hv Hv1) as Hv11.
    assert (Hv2f : (v2 <? infinity)%float = true) by exact (leb_ltb_trans _ 1 infinity Hv1 eq_refl).
    destruct (mul_unit v1 w 1 Hv0 Hv11 Hw0 Hw1 eq_refl eq_refl) as [Hp10 Hp11].
    destruct (mul_unit v2 w 1 Hv20 Hv1 Hw0 Hw1 eq_refl eq_refl) as [Hp20 Hp21].
    pose proof (mul_mono v1 w v2 w Hv0 Hv Hv2f Hw0 Hww Hwf) as Hp.
    destruct (contribution_range v1 w (conj Hv0 Hv11) (conj Hw0 Hw1)) as [Hc10 Hc11].
    destruct (contribution_range v2 w (conj Hv20 Hv1) (conj Hw0 Hw1)) as [Hc20 Hc21].
    assert (Hc : (v1 * w * SCORE_RANGE_f <=? v2 * w * SCORE_RANGE_f)%float = true).
    { apply mul_mono; try assumption; try reflexivity.
      exact (leb_ltb_trans _ 1 infinity Hp21 eq_refl). }
    apply IH.
    + now apply add_nonneg.
    + apply add_mono_any; try assumption.
      exact (leb_ltb_trans _ 600 infinity Hc21 eq_refl).
Qed.

Lemma round_ok_finite (x : float) (z : Z) :
  Py.round x = Ok z -> (0 <=? x)%float = true -> (x <? infinity)%float = true.
Proof.
  intros Hr Hx. apply nonneg_fval in Hx as (a & Ha & Ha0).
  apply finite_fval. exists a. split; [exact Ha|].
  destruct (fval_nonneg_inv x a Ha Ha0) as [? ? ? | ? ? ? ? ? ? | Hp _];
    [pose proof unit_lt_top; lia | lia |].
  unfold Py.round in Hr. rewrite Hp in Hr. discriminate.
Qed.

Lemma clamp_mono (z1 z2 : Z) : z1 <= z2 -> clamp z1 <= clamp z2.
Proof. unfold clamp. lia. Qed.

(** The order of the sub-scores carries over to the rounded totals. *)
Lemma final_round_mono (c1 c2 ws1 ws2 : Py.dict) (t1 t2 : float) (z1 z2 : Z) :
  below c1 c2 ->
  weigh c1 [] 0 = Ok (ws1, t1) -> weigh c2 [] 0 = Ok (ws2, t2) ->
  Py.round (t1 + MIN_SCORE_f) = Ok z1 -> Py.round (t2 + MIN_SCORE_f) = Ok z2 ->
  0 <= z1 <= z2.
Proof.
  intros Hb H1 H2 Hr1 Hr2.
  destruct (weigh_mono c1 c2 Hb [] [] ws1 ws2 0 0 t1 t2 eq_refl eq_refl H1 H2) as [Ht0 Ht].
  pose proof (add_nonneg t1 MIN_SCORE_f Ht0 eq_refl) as Hs0.
  pose proof (add_mono_any t1 MIN_SCORE_f t2 MIN_SCORE_f Ht0 Ht eq_refl eq_refl eq_refl) as Hs.
  pose proof (round_ok_finite _ _ Hr2 (leb_trans _ _ _ Hs0 Hs)) as Hf.
  destruct (round_float_mono _ _ Hs0 Hs Hf) as (y1 & y2 & Hy1 & Hy2 & Hy).
  rewrite Hr1 in Hy1. rewrite Hr2 in Hy2. injection Hy1 as ->. injection Hy2 as ->.
  exact Hy.
Qed.

Lemma final_score_inv (c : Py.dict) (s : Z) (w : Py.dict) :
  calculate_final_score c = Ok (s, w) ->
  exists (t : float) (z : Z),
    weigh c [] 0 = Ok (w, t) /\ Py.round (t + MIN_SCORE_f) = Ok z /\ s = clamp z.
Proof.
  unfold calculate_final_score. intros H.
  destruct (weigh c [] 0) as [[w' t] | e]; cbn [bind] in H; [|discriminate].
  destruct (Py.round (t + MIN_SCORE_f)) as [z | e] eqn:Hr; cbn [bind] in H; [|discriminate].
  injection H as <- <-. exists t, z. repeat split. exact Hr.
Qed.

(** What the loop returns: the contributions, appended in the order of the
    mapping, and their sum from left to right. *)
Lemma weigh_spec (items : Py.dict) :
  forall (ws ws' : Py.dict) (t t' : float),
  NoDup (Py.keys ws ++ Py.keys items) ->
  weigh items ws t = Ok (ws', t') ->
  exists cs : Py.dict,
    ws' = ws ++ cs /\
    Forall2 (fun kv kc : string * float =>
               fst kc = fst kv /\
               exists w, Py.get weights (fst kv) = Some w /\
                         snd kc = (snd kv * w * SCORE_RANGE_f)%float) items cs /\
    t' = fold_left PrimFloat.add (Py.values cs) t.
Proof.
  induction items as [ | [k v] items IH]; intros ws ws' t t' Hnd; cbn [weigh].
  - intros H. injection H as <- <-. exists []. rewrite app_nil_r.
    repeat split. constructor.
  - destruct (Py.get weights k) as [w | ] eqn:Hw; [|discriminate].
    change (Py.keys ((k, v) :: items)) with (k :: Py.keys items) in *.
    assert (Hk : ~ In k (Py.keys ws)).
    { intros Hin. apply NoDup_remove_2 in Hnd. apply Hnd.
      apply in_or_app. left. exact Hin. }
    rewrite (set_absent ws k _ Hk). intros H.
    assert (Hnd' : NoDup (Py.keys (ws ++ [(k, (v * w * SCORE_RANGE_f)%float)])
                          ++ Py.keys items)).
    { rewrite keys_app, <- app_assoc. exact Hnd. }
    destruct (IH _ _ _ _ Hnd' H) as (cs & -> & Hf & ->).
    exists ((k, (v * w * SCORE_RANGE_f)%float) :: cs).
    rewrite <- app_assoc. repeat split.
    constructor; [|exact Hf]. cbn [fst snd]. split; [reflexivity|].
    exists w. now split.
Qed.

Lemma contributions_get (items cs : Py.dict) :
  Forall2 (fun kv kc : string * float =>
             fst kc = fst kv /\
             exists w, Py.get weights (fst kv) = Some w /\
                       snd kc = (snd kv * w * SCORE_RANGE_f)%float) items cs ->
  forall k : string,
  Py.get cs k =
    match Py.get items k, Py.get weights k with
    | Some v, Some w => Some (v * w * SCORE_RANGE_f)%float
    | _, _ => None
    end.
Proof.
  induction 1 as [ | [k1 v] [k2 c] items cs (Hk & w & Hw & Hc) Hrest IH]; intros k;
    cbn [Py.get fst snd] in *.
  - reflexivity.
  - subst k2 c. destruct (String.eqb_spec k1 k) as [-> | Hne].
    + rewrite Hw. reflexivity.
    + apply IH.
Qed.

(** ** The entry point within its contract *)

Lemma five_below (a1 b1 c1 d1 e1 a2 b2 c2 d2 e2 : float) :
  ((0 <=? a1) && (a1 <=? a2) && (a2 <=? 1))%float = true ->
  ((0 <=? b1) && (b1 <=? b2) && (b2 <=? 1))%float = true ->
  ((0 <=? c1) && (c1 <=? c2) && (c2 <=? 1))%float = true ->
  ((0 <=? d1) && (d1 <=? d2) && (d2 <=? 1))%float = true ->
  ((0 <=? e1) && (e1 <=? e2) && (e2 <=? 1))%float = true ->
  below (components_of a1 b1 c1 d1 e1) (components_of a2 b2 c2 d2 e2).
Proof.
  intros Ha Hb Hc Hd He.
  repeat match goal with
         | H : (_ && _)%bool = true |- _ => apply andb_prop in H as [? ?]
         end.
  unfold below, components_of.
  repeat (constructor; [cbn [fst snd]; repeat split; assumption|]).
  constructor.
Qed.

Lemma and3 (a b c : bool) : a = true -> b = true -> c = true -> a && b && c = true.
Proof. now intros -> -> ->. Qed.

Lemma calculate_score_inv
    (p d u y : float) (ns nu : Z) (c : bool) (ni nn : Z) (s : Z) (w : Py.dict) :
  calculate_score p d u y ns nu c ni nn = Ok (s, w) ->
  exists (cm nc : float) (z : Z),
    calculate_credit_mix_score ns nu c = Ok cm /\
    calculate_new_credit_score ni nn = Ok nc /\
    Py.round (total_score (calculate_payment_history_score p d)
                          (calculate_credit_utilization_score u)
                          (calculate_credit_age_score y) cm nc + MIN_SCORE_f) = Ok z /\
    s = clamp z /\
    w = contributions (calculate_payment_history_score p d)
                      (calculate_credit_utilization_score u)
                      (calculate_credit_age_score y) cm nc.
Proof.
  rewrite calculate_score_unfold. intros H.
  destruct (calculate_credit_mix_score ns nu c) as [cm | e]; cbn [bind] in H; [|discriminate].
  destruct (calculate_new_credit_score ni nn) as [nc | e]; cbn [bind] in H; [|discriminate].
  destruct (Py.round _) as [z | e] eqn:Hr; cbn [bind] in H; [|discriminate].
  injection H as <- <-. exists cm, nc, z. repeat split. exact Hr.
Qed.

(** The five sub-scores of a call within the contract. *)
Lemma sub_scores_in_contract
    (p d u y : float) (ns nu : Z) (c : bool) (ni nn : Z) :
  (0 <=? p)%float = true -> (p <=? 100)%float = true -> (0 <=? d)%float = true ->
  0 <= ns -> 0 <= nu ->
  0 <= ni <= max_float_int -> 0 <= nn <= max_float_int ->
  exists cm nc : float,
    calculate_credit_mix_score ns nu c = Ok cm /\
    calculate_new_credit_score ni nn = Ok nc /\
    in_unit (calculate_payment_history_score p d) /\
    (0.20 <=? cm)%float = true /\ (cm <=? 1)%float = true /\
    (0.40 <=? nc)%float = true /\ (nc <=? 1)%float = true.
Proof.
  intros Hp0 Hp1 Hd Hs Hu Hi Hn.
  destruct (payment_history_in_range p d Hp0 Hp1 Hd) as (_ & Hph).
  destruct (new_credit_refines ni nn Hi Hn) as (i & a & _ & _ & Hnew & Hn0 & Hn1).
  destruct (credit_mix_range ns nu c Hs Hu) as [Hm0 Hm1].
  exists (credit_mix_spec ns nu c), (new_credit_spec i a).
  split; [now apply credit_mix_refines|]. split; [exact Hnew|].
  split; [exact Hph|]. repeat split; assumption.
Qed.

(** The rounded total of five sub-scores in [0, 1] lies between those of
    sub-scores below and above them. *)
Lemma five_round_mono (a1 b1 c1 d1 e1 a2 b2 c2 d2 e2 : float) (z1 z2 : Z) :
  below (components_of a1 b1 c1 d1 e1) (components_of a2 b2 c2 d2 e2) ->
  Py.round (total_score a1 b1 c1 d1 e1 + MIN_SCORE_f) = Ok z1 ->
  Py.round (total_score a2 b2 c2 d2 e2 + MIN_SCORE_f) = Ok z2 ->
  0 <= z1 <= z2.
Proof.
  intros Hb H1 H2.
  exact (final_round_mono _ _ (contributions a1 b1 c1 d1 e1) (contributions a2 b2 c2 d2 e2)
           _ _ z1 z2 Hb eq_refl eq_refl H1 H2).
Qed.

Lemma contract_round
    (p d u y : float) (ns nu : Z) (c : bool) (ni nn : Z) :
  (0 <=? p)%float = true -> (p <=? 100)%float = true -> (0 <=? d)%float = true ->
  0 <= ns -> 0 <= nu ->
  0 <= ni <= max_float_int -> 0 <= nn <= max_float_int ->
  exists (cm nc : float) (z : Z),
    calculate_credit_mix_score ns nu c = Ok cm /\
    calculate_new_credit_score ni nn = Ok nc /\
    Py.round (total_score (calculate_payment_history_score p d)
                          (calculate_credit_utilization_score u)
                          (calculate_credit_age_score y) cm nc + MIN_SCORE_f) = Ok z /\
    426 <= z <= 900.
Proof.
  intros Hp0 Hp1 Hd Hs Hu Hi Hn.
  destruct (sub_scores_in_contract p d u y ns nu c ni nn Hp0 Hp1 Hd Hs Hu Hi Hn)
    as (cm & nc & Hcm & Hnc & [Hph0 Hph1] & Hm0 & Hm1 & Hn0 & Hn1).
  destruct (utilization_range u) as [Hu0 Hu1].
  destruct (credit_age_range y) as [Hy0 Hy1].
  exists cm, nc.
  destruct (round_finite
              (total_score (calculate_payment_history_score p d)
                           (calculate_credit_utilization_score u)
                           (calculate_credit_age_score y) cm nc + MIN_SCORE_f))
    as (z & Hz).
  { apply total_score_finite; try (split; assumption).
    - split; [exact (leb_trans 0 0.30 _ eq_refl Hu0) | exact Hu1].
    - split; [exact (leb_trans 0 0.40 _ eq_refl Hy0) | exact Hy1].
    - split; [exact (leb_trans 0 0.20 _ eq_refl Hm0) | exact Hm1].
    - split; [exact (leb_trans 0 0.40 _ eq_refl Hn0) | exact Hn1]. }
  exists z. split; [exact Hcm|]. split; [exact Hnc|]. split; [exact Hz|].
  split.
  - refine (proj2 (five_round_mono 0 0.30 0.40 0.20 0.40 _ _ _ _ _ 426 z _ eq_refl Hz)).
    apply five_below; apply and3; try reflexivity; assumption.
  - refine (proj2 (five_round_mono _ _ _ _ _ 1 1 1 1 1 z 900 _ Hz eq_refl)).
    apply five_below; apply and3; try reflexivity; try assumption.
    + exact (leb_trans 0 0.30 _ eq_refl Hu0).
    + exact (leb_trans 0 0.40 _ eq_refl Hy0).
    + exact (leb_trans 0 0.20 _ eq_refl Hm0).
    + exact (leb_trans 0 0.40 _ eq_refl Hn0).
Qed.

(** A contribution grows with its sub-score. *)
Lemma contribution_mono (s1 s2 w : float) :
  (0 <=? s1)%float = true -> (s1 <=? s2)%float = true -> (s2 <=? 1)%float = true ->
  in_unit w ->
  (s1 * w * 600 <=? s2 * w * 600)%float = true.
Proof.
  intros H0 H12 H1 [Hw0 Hw1].
  assert (Hww : (w <=? w)%float = true).
  { apply leb_refl. exact (proj2 (leb_comparable _ _ Hw0)). }
  pose proof (leb_trans _ _ _ H0 H12) as H20.
  pose proof (leb_trans _ _ _ H12 H1) as H11.
  destruct (mul_unit s1 w 1 H0 H11 Hw0 Hw1 eq_refl eq_refl) as [Hp10 _].
  destruct (mul_unit s2 w 1 H20 H1 Hw0 Hw1 eq_refl eq_refl) as [_ Hp21].
  apply mul_mono; try assumption; try reflexivity.
  - apply mul_mono; try assumption.
    + exact (leb_ltb_trans _ 1 infinity H1 eq_refl).
    + exact (leb_ltb_trans _ 1 infinity Hw1 eq_refl).
  - exact (leb_ltb_trans _ 1 infinity Hp21 eq_refl).
Qed.

(** A contribution of a sub-score in [lo, 1] lies between that of [lo]
    and its share of the 600 points. *)
Lemma contribution_between (lo score w : float) :
  (0 <=? lo)%float = true -> (lo <=? score)%float = true ->
  (score <=? 1)%float = true -> in_unit w ->
  (lo * w * 600 <=? score * w * 600)%float = true /\
  (score * w * 600 <=? 1 * w * 600)%float = true.
Proof.
  intros H0 Hlo H1 Hw. split.
  - now apply contribution_mono.
  - apply contribution_mono; try assumption; try reflexivity.
    exact (leb_trans _ _ _ H0 Hlo).
Qed.

(** ** The properties, function by function *)

(** *** Payment history *)

(** X1: for a finite non-negative share of payments on time and any value
    of days late (negative, infinite or a NaN included) the sub-score is at
    most the base [p / 100] and at least half of it: the penalty takes away
    at most one half. *)
Theorem payment_history_penalty_bounded (p d : float) :
  (0 <=? p)%float = true -> (p <? infinity)%float = true ->
  (p / 100 * 0.5 <=? calculate_payment_history_score p d)%float = true /\
  (calculate_payment_history_score p d <=? p / 100)%float = true.
Proof.
  intros Hp Hpf. exact (proj2 (proj2 (payment_history_bounds p d Hp Hpf))).
Qed.

Lemma payment_history_penalty_bounded_witness :
  (95 / 100 * 0.5 <=? calculate_payment_history_score 95 5)%float = true /\
  (calculate_payment_history_score 95 5 <=? 95 / 100)%float = true.
Proof. apply (payment_history_penalty_bounded 95 5); reflexivity. Defined.

(** X2: from 90 days late on, an infinite delay included, the penalty is
    at its cap: the sub-score is [p / 100 * 0.5], whatever [p] is. *)
Theorem payment_history_saturates (p d : float) :
  (90 <=? d)%float = true ->
  calculate_payment_history_score p d = (p / 100 * 0.5)%float.
Proof.
  intros Hd. unfold calculate_payment_history_score.
  rewrite (ltb_leb_trans 0 90 d eq_refl Hd), (late_factor_saturates d Hd).
  reflexivity.
Qed.

Lemma payment_history_saturates_witness :
  calculate_payment_history_score 80 120 = (80 / 100 * 0.5)%float.
Proof. apply (payment_history_saturates 80 120); reflexivity. Defined.

(** X3: with the days late fixed (any value), a larger share of payments on
    time never gives a smaller sub-score. *)
Theorem payment_history_monotone (p1 p2 d : float) :
  (0 <=? p1)%float = true -> (p1 <=? p2)%float = true ->
  (p2 <? infinity)%float = true ->
  (calculate_payment_history_score p1 d <=? calculate_payment_history_score p2 d)%float
    = true.
Proof.
  intros H0 H12 Hf. apply payment_history_mono; try assumption. now left.
Qed.

Lemma payment_history_monotone_witness :
  (calculate_payment_history_score 60 30 <=? calculate_payment_history_score 95 30)%float
    = true.
Proof. apply (payment_history_monotone 60 95 30); reflexivity. Defined.

(** X4: with the share of payments on time fixed, finite and non-negative,
    more days late never give a larger sub-score. *)
Theorem payment_history_antitone_days (p d1 d2 : float) :
  (0 <=? p)%float = true -> (p <? infinity)%float = true ->
  (d1 <=? d2)%float = true ->
  (calculate_payment_history_score p d2 <=? calculate_payment_history_score p d1)%float
    = true.
Proof.
  intros H0 Hf Hd. apply payment_history_mono; try assumption.
  - apply leb_refl. exact (proj2 (leb_comparable _ _ H0)).
  - now right.
Qed.

Lemma payment_history_antitone_days_witness :
  (calculate_payment_history_score 95 45 <=? calculate_payment_history_score 95 5)%float
    = true.
Proof. apply (payment_history_antitone_days 95 5 45); reflexivity. Defined.

(** *** Credit utilization *)

(** X5: the utilization sub-score of every float, a NaN included, lies
    within [0.30, 1.00], and above 10 percent a higher utilization never
    gives a larger sub-score. *)
Theorem utilization_score_antitone (u v : float) :
  ((10 <? u)%float = true -> (u <=? v)%float = true ->
   (calculate_credit_utilization_score v
      <=? calculate_credit_utilization_score u)%float = true) /\
  (0.30 <=? calculate_credit_utilization_score u)%float = true /\
  (calculate_credit_utilization_score u <=? 1.00)%float = true.
Proof.
  split; [intros H10 Huv; now apply utilization_antitone|].
  exact (utilization_range u).
Qed.

Lemma utilization_score_antitone_witness :
  (calculate_credit_utilization_score 60 <=? calculate_credit_utilization_score 25)%float
    = true.
Proof. apply (proj1 (utilization_score_antitone 25 60)); reflexivity. Defined.

(** *** Credit age *)

(** X6: the credit-age sub-score of every float, a NaN included, lies
    within [0.40, 1.00], and a longer credit history never gives a smaller
    sub-score. *)
Theorem credit_age_score_monotone (y1 y2 : float) :
  ((y1 <=? y2)%float = true ->
   (calculate_credit_age_score y1 <=? calculate_credit_age_score y2)%float = true) /\
  (0.40 <=? calculate_credit_age_score y1)%float = true /\
  (calculate_credit_age_score y1 <=? 1.00)%float = true.
Proof.
  split; [intros Hy; now apply credit_age_monotone|].
  exact (credit_age_range y1).
Qed.

Lemma credit_age_score_monotone_witness :
  (calculate_credit_age_score 2 <=? calculate_credit_age_score 4)%float = true.
Proof. apply (proj1 (credit_age_score_monotone 2 4)); reflexivity. Defined.

(** *** Credit mix *)

(** X7: for non-negative counts the credit-mix sub-score is returned and
    lies within [0.20, 1.00]. *)
Theorem credit_mix_score_range (ns nu : Z) (c : bool) :
  0 <= ns -> 0 <= nu ->
  exists score : float,
    calculate_credit_mix_score ns nu c = Ok score /\
    (0.20 <=? score)%float = true /\ (score <=? 1.00)%float = true.
Proof.
  intros Hs Hu. exists (credit_mix_spec ns nu c).
  split; [now apply credit_mix_refines | now apply credit_mix_range].
Qed.

Lemma credit_mix_score_range_witness :
  exists score : float,
    calculate_credit_mix_score 7 0 true = Ok score /\
    (0.20 <=? score)%float = true /\ (score <=? 1.00)%float = true.
Proof. apply (credit_mix_score_range 7 0 true); lia. Defined.

(** X8: loans beyond the second of a kind do not count: the sub-score of
    non-negative counts is that of the counts capped at 2, and with two
    loans of each kind it is 1.00, with or without a card. *)
Theorem credit_mix_score_capped (ns nu : Z) (c : bool) :
  0 <= ns -> 0 <= nu ->
  calculate_credit_mix_score ns nu c
    = calculate_credit_mix_score (Z.min ns 2) (Z.min nu 2) c /\
  (2 <= ns -> 2 <= nu -> calculate_credit_mix_score ns nu c = Ok 1.00%float).
Proof.
  intros Hs Hu.
  rewrite (credit_mix_refines ns nu c Hs Hu).
  rewrite (credit_mix_refines (Z.min ns 2) (Z.min nu 2) c) by lia.
  rewrite (credit_mix_capped ns nu c Hs Hu). split; [reflexivity|].
  intros H2s H2u. rewrite !Z.min_r by lia. destruct c; reflexivity.
Qed.

Lemma credit_mix_score_capped_witness :
  calculate_credit_mix_score 5 3 false
    = calculate_credit_mix_score (Z.min 5 2) (Z.min 3 2) false /\
  (2 <= 5 -> 2 <= 3 -> calculate_credit_mix_score 5 3 false = Ok 1.00%float).
Proof. apply (credit_mix_score_capped 5 3 false); lia. Defined.

(** X9: once there is at least one product, one more loan of either kind,
    or a card, never lowers the credit-mix sub-score. *)
Theorem credit_mix_score_monotone (ns nu ns' nu' : Z) (c c' : bool) :
  0 <= ns <= ns' -> 0 <= nu <= nu' -> implb c c' = true ->
  0 < ns + nu + Z.b2z c ->
  exists score score' : float,
    calculate_credit_mix_score ns nu c = Ok score /\
    calculate_credit_mix_score ns' nu' c' = Ok score' /\
    (score <=? score')%float = true.
Proof.
  intros Hs Hu Hc Hp.
  exists (credit_mix_spec ns nu c), (credit_mix_spec ns' nu' c').
  split; [apply credit_mix_refines; lia|].
  split; [apply credit_mix_refines; lia|].
  now apply credit_mix_monotone.
Qed.

Lemma credit_mix_score_monotone_witness :
  exists score score' : float,
    calculate_credit_mix_score 1 0 false = Ok score /\
    calculate_credit_mix_score 1 1 true = Ok score' /\
    (score <=? score')%float = true.
Proof.
  apply (credit_mix_score_monotone 1 0 1 1 false true); try reflexivity; cbn; lia.
Defined.

(** *** New credit *)





(** X12: the new-credit sub-score raises OverflowError exactly when one of
    the two counts has a magnitude of at least [2^1024 - 2^970], the least
    integer that has no float; otherwise it is returned. *)
Theorem new_credit_score_raises (n m : Z) :
  (calculate_new_credit_score n m = Raise OverflowError <->
   float_limit <= Z.abs n \/ float_limit <= Z.abs m) /\
  ((exists score, calculate_new_credit_score n m = Ok score) <->
   Z.abs n < float_limit /\ Z.abs m < float_limit).
Proof.
  destruct (float_of_int_overflow n) as [Hn1 Hn2].
  destruct (float_of_int_overflow m) as [Hm1 Hm2].
  unfold calculate_new_credit_score.
  destruct (Z_lt_le_dec (Z.abs n) float_limit) as [Hn | Hn].
  - destruct (Hn2 Hn) as (i & ->). cbn [bind].
    destruct (Z_lt_le_dec (Z.abs m) float_limit) as [Hm | Hm].
    + destruct (Hm2 Hm) as (a & ->). cbn [bind].
      split; split; try discriminate; try lia.
      intros _. eexists. reflexivity.
    + rewrite (Hm1 Hm). cbn [bind].
      split; split; try lia; try tauto.
      intros (s & H). discriminate.
  - rewrite (Hn1 Hn). cbn [bind].
    split; split; try lia; try tauto.
    intros (s & H). discriminate.
Qed.

(** *** The aggregator *)

(** X13: whatever mapping it is given, the aggregator returns a final
    score within [300, 900] or raises KeyError, ValueError or
    OverflowError; on the empty mapping it returns 300 and no
    contribution. *)
Theorem final_score_in_range (components : Py.dict) :
  match calculate_final_score components with
  | Ok (final_score, _) => 300 <= final_score <= 900
  | Raise e =>
      (exists k, e = KeyError k /\ In k (Py.keys components) /\
                 Py.get weights k = None) \/
      e = ValueError \/ e = OverflowError
  end /\
  calculate_final_score [] = Ok (300, []).
Proof.
  split; [|reflexivity]. unfold calculate_final_score.
  destruct (weigh components [] 0) as [[ws t] | e] eqn:Hw; cbn [bind].
  - destruct (Py.round (t + MIN_SCORE_f)) as [z | e] eqn:Hr; cbn [bind].
    + apply clamp_range.
    + right. exact (round_raises _ _ Hr).
  - left. exact (weigh_raises _ _ _ _ Hw).
Qed.

(** X14: when the aggregator returns, the contribution stored under each
    key of the mapping is its sub-score times its weight times 600, and
    nothing is stored under another key. *)
Theorem final_score_contributions
    (components : Py.dict) (final_score : Z) (weighted_scores : Py.dict) :
  NoDup (Py.keys components) ->
  calculate_final_score components = Ok (final_score, weighted_scores) ->
  forall k : string,
    Py.get weighted_scores k =
      match Py.get components k, Py.get weights k with
      | Some score, Some w => Some (score * w * 600)%float
      | _, _ => None
      end.
Proof.
  intros Hnd H.
  destruct (final_score_inv _ _ _ H) as (t & z & Hw & _ & _).
  destruct (weigh_spec components [] weighted_scores 0 t Hnd Hw) as (cs & -> & Hf & _).
  exact (contributions_get components cs Hf).
Qed.

Lemma final_score_contributions_witness :
  Py.get [("credit_age", 45%float); ("credit_mix", 60%float)] "credit_mix" =
    match Py.get [("credit_age", 0.5%float); ("credit_mix", 1%float)] "credit_mix",
          Py.get weights "credit_mix" with
    | Some score, Some w => Some (score * w * 600)%float
    | _, _ => None
    end.
Proof.
  apply (final_score_contributions
           [("credit_age", 0.5%float); ("credit_mix", 1%float)] 405).
  - repeat constructor; cbn; intuition discriminate.
  - reflexivity.
Defined.

(** X15: when the aggregator returns, the final score is the sum of the
    returned contributions, added from left to right as floats, plus 300,
    rounded and clamped. *)
Theorem final_score_from_contributions
    (components : Py.dict) (final_score : Z) (weighted_scores : Py.dict) :
  NoDup (Py.keys components) ->
  calculate_final_score components = Ok (final_score, weighted_scores) ->
  exists z : Z,
    Py.round (Py.sum (Py.values weighted_scores) + MIN_SCORE_f) = Ok z /\
    final_score = clamp z.
Proof.
  intros Hnd H.
  destruct (final_score_inv _ _ _ H) as (t & z & Hw & Hr & Hs).
  destruct (weigh_spec components [] weighted_scores 0 t Hnd Hw) as (cs & -> & _ & Ht).
  exists z. split; [|exact Hs]. unfold Py.sum. cbn [app]. rewrite <- Ht. exact Hr.
Qed.

Lemma final_score_from_contributions_witness :
  exists z : Z,
    Py.round (Py.sum (Py.values [("credit_age", 45%float); ("credit_mix", 60%float)])
              + MIN_SCORE_f) = Ok z /\
    405 = clamp z.
Proof.
  apply (final_score_from_contributions
           [("credit_age", 0.5%float); ("credit_mix", 1%float)]).
  - repeat constructor; cbn; intuition discriminate.
  - reflexivity.
Defined.

(** X16: of two mappings with the same keys in the same order and
    sub-scores in [0, 1], the one whose sub-scores are all at most the
    other's gets at most the other's final score. *)
Theorem final_score_monotone
    (c1 c2 : Py.dict) (s1 s2 : Z) (w1 w2 : Py.dict) :
  below c1 c2 ->
  calculate_final_score c1 = Ok (s1, w1) ->
  calculate_final_score c2 = Ok (s2, w2) ->
  s1 <= s2.
Proof.
  intros Hb H1 H2.
  destruct (final_score_inv _ _ _ H1) as (t1 & z1 & Hw1 & Hr1 & ->).
  destruct (final_score_inv _ _ _ H2) as (t2 & z2 & Hw2 & Hr2 & ->).
  apply clamp_mono.
  exact (proj2 (final_round_mono c1 c2 w1 w2 t1 t2 z1 z2 Hb Hw1 Hw2 Hr1 Hr2)).
Qed.

Lemma final_score_monotone_witness :
  calculate_final_score [("credit_age", 0.5%float); ("credit_mix", 0.6%float)]
    = Ok (381, [("credit_age", 45%float); ("credit_mix", (0.6 * 0.10 * 600)%float)]) /\
  calculate_final_score [("credit_age", 0.5%float); ("credit_mix", 1%float)]
    = Ok (405, [("credit_age", 45%float); ("credit_mix", 60%float)]) /\
  381 <= 405.
Proof.
  split; [reflexivity|]. split; [reflexivity|].
  apply (final_score_monotone
           [("credit_age", 0.5%float); ("credit_mix", 0.6%float)]
           [("credit_age", 0.5%float); ("credit_mix", 1%float)]
           381 405
           [("credit_age", 45%float); ("credit_mix", (0.6 * 0.10 * 600)%float)]
           [("credit_age", 45%float); ("credit_mix", 60%float)]).
  - repeat constructor.
  - reflexivity.
  - reflexivity.
Defined.

(** *** The entry point *)



(** X18: within the contract a profile that is at least as good on every
    input (more payments on time, fewer days late, a utilization that is
    the same or lower but above 10 percent, a longer history, more
    products, fewer inquiries and new accounts) gets at least the same
    final score. *)
Theorem calculate_score_monotone
    (p1 d1 u1 y1 : float) (ns1 nu1 : Z) (c1 : bool) (ni1 nn1 : Z)
    (p2 d2 u2 y2 : float) (ns2 nu2 : Z) (c2 : bool) (ni2 nn2 : Z) :
  (0 <=? p1)%float = true -> (p1 <=? p2)%float = true -> (p2 <=? 100)%float = true ->
  (0 <=? d2)%float = true -> (d2 <=? d1)%float = true ->
  u1 = u2 \/ ((10 <? u2)%float = true /\ (u2 <=? u1)%float = true) ->
  (y1 <=? y2)%float = true ->
  0 <= ns1 <= ns2 -> 0 <= nu1 <= nu2 -> implb c1 c2 = true ->
  0 < ns1 + nu1 + Z.b2z c1 ->
  0 <= ni2 <= ni1 -> ni1 <= max_float_int ->
  0 <= nn2 <= nn1 -> nn1 <= max_float_int ->
  exists (s1 s2 : Z) (w1 w2 : Py.dict),
    calculate_score p1 d1 u1 y1 ns1 nu1 c1 ni1 nn1 = Ok (s1, w1) /\
    calculate_score p2 d2 u2 y2 ns2 nu2 c2 ni2 nn2 = Ok (s2, w2) /\
    s1 <= s2.
Proof.
  intros Hp0 Hp Hp1 Hd0 Hd Hu Hy Hs Hn Hc Hpos Hi Hi' Ha Ha'.
  pose proof (leb_trans _ _ _ Hp0 Hp) as Hp20.
  pose proof (leb_trans _ _ _ Hp Hp1) as Hp11.
  pose proof (leb_trans _ _ _ Hd0 Hd) as Hd10.
  destruct (contract_round p1 d1 u1 y1 ns1 nu1 c1 ni1 nn1 Hp0 Hp11 Hd10)
    as (cm1 & nc1 & z1 & Hcm1 & Hnc1 & Hz1 & _); try lia.
  destruct (contract_round p2 d2 u2 y2 ns2 nu2 c2 ni2 nn2 Hp20 Hp1 Hd0)
    as (cm2 & nc2 & z2 & Hcm2 & Hnc2 & Hz2 & _); try lia.
  exists (clamp z1), (clamp z2). eexists _, _.
  rewrite !calculate_score_unfold, Hcm1, Hnc1, Hcm2, Hnc2. cbn [bind].
  rewrite Hz1, Hz2. cbn [bind].
  split; [reflexivity|]. split; [reflexivity|].
  apply clamp_mono.
  refine (proj2 (five_round_mono _ _ _ _ _ _ _ _ _ _ z1 z2 _ Hz1 Hz2)).
  (* the five sub-scores, one by one *)
  destruct (payment_history_in_range p1 d1 Hp0 Hp11 Hd10) as (_ & [Hph0 _]).
  destruct (payment_history_in_range p2 d2 Hp20 Hp1 Hd0) as (_ & [_ Hph1]).
  destruct (utilization_range u1) as [Hu10 _]. destruct (utilization_range u2) as [_ Hu21].
  destruct (credit_age_range y1) as [Hy10 _]. destruct (credit_age_range y2) as [_ Hy21].
  rewrite (credit_mix_refines ns1 nu1 c1) in Hcm1 by lia.
  rewrite (credit_mix_refines ns2 nu2 c2) in Hcm2 by lia.
  injection Hcm1 as <-. injection Hcm2 as <-.
  destruct (credit_mix_range ns1 nu1 c1 ltac:(lia) ltac:(lia)) as [Hm0 _].
  destruct (credit_mix_range ns2 nu2 c2 ltac:(lia) ltac:(lia)) as [_ Hm1].
  destruct (new_credit_order ni2 nn2 ni1 nn1 Hi Hi' Ha Ha') as (t2 & t1 & Ht2 & Ht1 & Ht).
  rewrite Hnc2 in Ht2. rewrite Hnc1 in Ht1. injection Ht2 as <-. injection Ht1 as <-.
  destruct (new_credit_refines ni1 nn1 ltac:(lia) ltac:(lia))
    as (i1 & a1 & _ & _ & Hnew1 & Hn0 & _).
  destruct (new_credit_refines ni2 nn2 ltac:(lia) ltac:(lia))
    as (i2 & a2 & _ & _ & Hnew2 & _ & Hn1).
  rewrite Hnc1 in Hnew1. rewrite Hnc2 in Hnew2.
  injection Hnew1 as Hnew1. injection Hnew2 as Hnew2.
  rewrite <- Hnew1 in Hn0. rewrite <- Hnew2 in Hn1.
  apply five_below; apply and3; try assumption.
  - apply payment_history_mono; try assumption; [|now right].
    exact (leb_ltb_trans _ 100 infinity Hp1 eq_refl).
  - exact (leb_trans 0 0.30 _ eq_refl Hu10).
  - destruct Hu as [-> | [H10 Hle]]; [|now apply utilization_antitone].
    apply leb_refl. exact (proj1 (leb_comparable _ _ Hu21)).
  - exact (leb_trans 0 0.40 _ eq_refl Hy10).
  - now apply credit_age_monotone.
  - exact (leb_trans 0 0.20 _ eq_refl Hm0).
  - apply credit_mix_monotone; assumption.
  - exact (leb_trans 0 0.40 _ eq_refl Hn0).
Qed.

Lemma calculate_score_monotone_witness :
  exists (s1 s2 : Z) (w1 w2 : Py.dict),
    calculate_score 80 30 60 2 1 0 false 3 1 = Ok (s1, w1) /\
    calculate_score 95 5 25 3 1 1 true 1 0 = Ok (s2, w2) /\
    s1 <= s2.
Proof.
  apply (calculate_score_monotone 80 30 60 2 1 0 false 3 1 95 5 25 3 1 1 true 1 0);
    try reflexivity; try (unfold max_float_int; cbn [Z.b2z]; lia).
  right. split; reflexivity.
Defined.

(** X19: within the contract the entry point returns the five
    contributions in the order of the weights, each within its share of the
    600 points: payment history in [0, 210], utilization in [54, 180],
    credit age in [36, 90], credit mix in [12, 60] and new credit in
    [24, 60]. *)
Theorem contributions_within_shares
    (p d u y : float) (ns nu : Z) (c : bool) (ni nn : Z) :
  (0 <=? p)%float = true -> (p <=? 100)%float = true -> (0 <=? d)%float = true ->
  0 <= ns -> 0 <= nu ->
  0 <= ni <= max_float_int -> 0 <= nn <= max_float_int ->
  exists (final_score : Z) (ph cu ca cm nc : float),
    calculate_score p d u y ns nu c ni nn
      = Ok (final_score, components_of ph cu ca cm nc) /\
    ((0 <=? ph) && (ph <=? 210))%float = true /\
    ((54 <=? cu) && (cu <=? 180))%float = true /\
    ((36 <=? ca) && (ca <=? 90))%float = true /\
    ((12 <=? cm) && (cm <=? 60))%float = true /\
    ((24 <=? nc) && (nc <=? 60))%float = true.
Proof.
  intros Hp0 Hp1 Hd Hs Hu Hi Hn.
  destruct (contract_round p d u y ns nu c ni nn Hp0 Hp1 Hd Hs Hu Hi Hn)
    as (cm & nc & z & Hcm & Hnc & Hz & _).
  destruct (sub_scores_in_contract p d u y ns nu c ni nn Hp0 Hp1 Hd Hs Hu Hi Hn)
    as (cm' & nc' & Hcm' & Hnc' & [Hph0 Hph1] & Hm0 & Hm1 & Hn0 & Hn1).
  rewrite Hcm in Hcm'. rewrite Hnc in Hnc'. injection Hcm' as <-. injection Hnc' as <-.
  destruct (utilization_range u) as [Hu0 Hu1].
  destruct (credit_age_range y) as [Hy0 Hy1].
  exists (clamp z). eexists _, _, _, _, _.
  rewrite calculate_score_unfold, Hcm, Hnc. cbn [bind]. rewrite Hz. cbn [bind].
  unfold contributions.
  split; [reflexivity|].
  destruct (contribution_between 0 _ 0.35 eq_refl Hph0 Hph1 (conj eq_refl eq_refl))
    as [A0 A1].
  destruct (contribution_between 0.30 _ 0.30 eq_refl Hu0 Hu1 (conj eq_refl eq_refl))
    as [B0 B1].
  destruct (contribution_between 0.40 _ 0.15 eq_refl Hy0 Hy1 (conj eq_refl eq_refl))
    as [C0 C1].
  destruct (contribution_between 0.20 _ 0.10 eq_refl Hm0 Hm1 (conj eq_refl eq_refl))
    as [D0 D1].
  destruct (contribution_between 0.40 _ 0.10 eq_refl Hn0 Hn1 (conj eq_refl eq_refl))
    as [E0 E1].
  repeat split; apply andb_true_intro; split;
    first [ exact A0 | exact A1 | exact B0 | exact B1 | exact C0 | exact C1
          | exact D1 | exact E1
          | exact (leb_trans 12 (0.20 * 0.10 * 600) _ eq_refl D0)
          | exact (leb_trans 24 (0.40 * 0.10 * 600) _ eq_refl E0) ].
Qed.

Lemma contributions_within_shares_witness :
  exists (final_score : Z) (ph cu ca cm nc : float),
    calculate_score 95 5 25 3 1 1 true 1 0
      = Ok (final_score, components_of ph cu ca cm nc) /\
    ((0 <=? ph) && (ph <=? 210))%float = true /\
    ((54 <=? cu) && (cu <=? 180))%float = true /\
    ((36 <=? ca) && (ca <=? 90))%float = true /\
    ((12 <=? cm) && (cm <=? 60))%float = true /\
    ((24 <=? nc) && (nc <=? 60))%float = true.
Proof.
  apply (contributions_within_shares 95 5 25 3 1 1 true 1 0);
    try reflexivity; unfold max_float_int; lia.
Defined.

(** * Payment history above 100 percent

    Beyond the contract the sub-score is not clamped; what the entry point
    then returns rests on the order and the rounding established above. *)

Lemma fval_hundred :
  fval 100 = Some (25 * 2 ^ 1076) /\
  fval (next_up 100) = Some (25 * 2 ^ 1076 + 2 ^ 1028).
Proof. split; vm_compute; reflexivity. Qed.

(** The floats above 100 start at the successor of 100. *)
Lemma above_hundred (p : float) :
  (100 <? p)%float = true -> (next_up 100 <=? p)%float = true.
Proof.
  intros H. destruct fval_hundred as [H100 Hnext].
  apply ltb_true_iff in H as (c & a & Hc & Ha & Hlt).
  rewrite H100 in Hc. apply Some_inj in Hc. subst c.
  apply leb_true_iff. exists (25 * 2 ^ 1076 + 2 ^ 1028), a.
  split; [exact Hnext|]. split; [exact Ha|].
  pose proof (pow2_pos 1076 ltac:(lia)) as H1076.
  destruct (fval_nonneg_inv p a Ha ltac:(lia)) as [? ? ? | m e _ Hb Hv _ | _ Hv];
    [lia | | ].
  - apply bounded_inv in Hb as (He & Hm & Hn). subst a.
    change (2 ^ 53) with (2 * 2 ^ 52) in Hm.
    assert (H52 : 0 < 2 ^ 52) by reflexivity.
    destruct (Z_le_gt_dec e (-47)) as [Hlo | Hlo].
    { exfalso.
      assert (2 ^ (e + 1074) <= 2 ^ 1027) by (apply Z.pow_le_mono_r; lia).
      pose proof (pow2_pos (e + 1074) ltac:(lia)).
      assert (HX : 2 * 2 ^ 52 * 2 ^ 1027 <= 25 * 2 ^ 1076).
      { change (2 ^ 1076) with (2 ^ 49 * 2 ^ 1027).
        pose proof (pow2_pos 1027 ltac:(lia)).
        remember (2 ^ 1027) as Y.
        assert (2 * 2 ^ 52 <= 25 * 2 ^ 49) by (vm_compute; discriminate).
        rewrite Z.mul_assoc. apply Z.mul_le_mono_nonneg_r; lia. }
      remember (2 ^ (e + 1074)) as X. remember (2 ^ 1027) as Y.
      remember (2 ^ 52) as T. remember (2 ^ 1076) as W.
      assert (Zpos m * X < 2 * T * Y); [|lia].
      apply Z.lt_le_trans with (2 * T * X); [nia|].
      apply Z.mul_le_mono_nonneg_l; lia. }
    destruct (Z_le_gt_dec e 2) as [Hhi | Hhi].
    + pose proof (pow2_pos (e + 1074) ltac:(lia)) as HK.
      pose proof (pow2_pos (2 - e) ltac:(lia)) as HJ.
      assert (HW : 2 ^ 1076 = 2 ^ (2 - e) * 2 ^ (e + 1074)).
      { rewrite <- Z.pow_add_r by lia. f_equal. lia. }
      assert (HL : 2 ^ 1028 <= 2 ^ (e + 1074)) by (apply Z.pow_le_mono_r; lia).
      rewrite HW in Hlt |- *.
      remember (2 ^ (e + 1074)) as K. remember (2 ^ (2 - e)) as J.
      remember (2 ^ 1028) as L.
      assert (25 * J < Zpos m) by nia.
      assert (25 * (J * K) + K <= Zpos m * K) by nia.
      lia.
    + specialize (Hn ltac:(lia)).
      assert (2 ^ 1077 <= 2 ^ (e + 1074)) by (apply Z.pow_le_mono_r; lia).
      assert (HX : 25 * 2 ^ 1076 + 2 ^ 1028 <= 2 ^ 52 * 2 ^ 1077).
      { vm_compute. discriminate. }
      remember (2 ^ (e + 1074)) as X. remember (2 ^ 1077) as Y.
      remember (2 ^ 52) as T. remember (2 ^ 1076) as W. remember (2 ^ 1028) as L.
      apply Z.le_trans with (T * Y); [exact HX|].
      apply Z.mul_le_mono_nonneg; lia.
  - subst a. unfold top.
    assert (25 * 2 ^ 1076 + 2 ^ 1028 <= 2 ^ 2100) by (vm_compute; discriminate).
    assumption.
Qed.

(** Above 100 percent, with no day late, the sub-score is [p / 100] and
    exceeds 1. *)
Lemma payment_history_above_one (p : float) :
  (100 <? p)%float = true ->
  calculate_payment_history_score p 0 = (p / 100)%float /\
  (1.0 <? p / 100)%float = true.
Proof.
  intros H. split; [reflexivity|].
  pose proof (above_hundred p H) as Hn.
  destruct (p <? infinity)%float eqn:Hf.
  - apply (ltb_leb_trans _ (next_up 100 / 100)); [reflexivity|].
    apply div_mono; try reflexivity; assumption.
  - rewrite (not_finite_infinity p (proj2 (ltb_comparable _ _ H))
               (ltb_leb _ _ (ltb_trans 0 100 p eq_refl H)) Hf).
    reflexivity.
Qed.

(** The weighted contribution of a sub-score grows with it, beyond 1 as
    well. *)
Lemma contribution_mono_any (s1 s2 : float) :
  (0 <=? s1)%float = true -> (s1 <=? s2)%float = true ->
  (s2 <? infinity)%float = true ->
  (0 <=? s1 * 0.35 * 600)%float = true /\
  (s1 * 0.35 * 600 <=? s2 * 0.35 * 600)%float = true.
Proof.
  intros H0 H12 Hf.
  pose proof (leb_trans _ _ _ H0 H12) as H20.
  pose proof (leb_ltb_trans _ _ _ H12 Hf) as H1f.
  destruct (mul_le_self s1 0.35 H0 H1f eq_refl eq_refl) as [Hp10 Hp11].
  destruct (mul_le_self s2 0.35 H20 Hf eq_refl eq_refl) as [Hp20 Hp21].
  pose proof (mul_mono s1 0.35 s2 0.35 H0 H12 Hf eq_refl eq_refl eq_refl) as Hp.
  split.
  - apply mul_nonneg; try assumption; try reflexivity.
    exact (leb_ltb_trans _ _ _ Hp11 H1f).
  - apply mul_mono; try assumption; try reflexivity.
    exact (leb_ltb_trans _ _ _ Hp21 Hf).
Qed.

(** The total of five contributions and [MIN_SCORE] grows with each of
    them. *)
Lemma sum5_mono (a1 b1 c1 d1 e1 a2 b2 c2 d2 e2 : float) :
  ((0 <=? a1) && (a1 <=? a2) && (a2 <? infinity))%float = true ->
  ((0 <=? b1) && (b1 <=? b2) && (b2 <? infinity))%float = true ->
  ((0 <=? c1) && (c1 <=? c2) && (c2 <? infinity))%float = true ->
  ((0 <=? d1) && (d1 <=? d2) && (d2 <? infinity))%float = true ->
  ((0 <=? e1) && (e1 <=? e2) && (e2 <? infinity))%float = true ->
  (0 <=? 0 + a1 + b1 + c1 + d1 + e1 + MIN_SCORE_f)%float = true /\
  (0 + a1 + b1 + c1 + d1 + e1 + MIN_SCORE_f
     <=? 0 + a2 + b2 + c2 + d2 + e2 + MIN_SCORE_f)%float = true.
Proof.
  intros Ha Hb Hc Hd He.
  repeat match goal with
         | H : (_ && _)%bool = true |- _ => apply andb_prop in H as [? ?]
         end.
  assert (A0 : (0 <=? 0 + a1)%float = true) by (apply add_nonneg; [reflexivity | assumption]).
  assert (A : (0 + a1 <=? 0 + a2)%float = true)
    by (apply add_mono_any; try assumption; reflexivity).
  assert (B0 : (0 <=? 0 + a1 + b1)%float = true) by (apply add_nonneg; assumption).
  assert (B : (0 + a1 + b1 <=? 0 + a2 + b2)%float = true)
    by (apply add_mono_any; assumption).
  assert (C0 : (0 <=? 0 + a1 + b1 + c1)%float = true) by (apply add_nonneg; assumption).
  assert (C : (0 + a1 + b1 + c1 <=? 0 + a2 + b2 + c2)%float = true)
    by (apply add_mono_any; assumption).
  assert (D0 : (0 <=? 0 + a1 + b1 + c1 + d1)%float = true)
    by (apply add_nonneg; assumption).
  assert (D : (0 + a1 + b1 + c1 + d1 <=? 0 + a2 + b2 + c2 + d2)%float = true)
    by (apply add_mono_any; assumption).
  assert (E0 : (0 <=? 0 + a1 + b1 + c1 + d1 + e1)%float = true)
    by (apply add_nonneg; assumption).
  assert (E : (0 + a1 + b1 + c1 + d1 + e1 <=? 0 + a2 + b2 + c2 + d2 + e2)%float = true)
    by (apply add_mono_any; assumption).
  split; [apply add_nonneg; [assumption | reflexivity]|].
  apply add_mono_any; try assumption; reflexivity.
Qed.

(** Above 100 percent and up to 1e307, the other inputs within the
    contract: the total is finite, so that the rounding returns, and it
    grows with the share of payments on time. *)
Lemma unclamped_round
    (p u y : float) (ns nu : Z) (c : bool) (ni nn : Z) :
  (100 <? p)%float = true -> (p <=? 1e307)%float = true ->
  0 <= ns -> 0 <= nu ->
  0 <= ni <= max_float_int -> 0 <= nn <= max_float_int ->
  exists (cm nc : float) (z : Z),
    calculate_credit_mix_score ns nu c = Ok cm /\
    calculate_new_credit_score ni nn = Ok nc /\
    Py.round (total_score (p / 100) (calculate_credit_utilization_score u)
                          (calculate_credit_age_score y) cm nc + MIN_SCORE_f) = Ok z /\
    636 <= z /\
    (210 <? p / 100 * 0.35 * 600)%float = true /\
    ((250 <=? p)%float = true -> 951 <= z).
Proof.
  intros Hp Hmax Hs Hu Hi Hn.
  destruct (sub_scores_in_contract 0 0 u y ns nu c ni nn eq_refl eq_refl eq_refl
              Hs Hu Hi Hn) as (cm & nc & Hcm & Hnc & _ & Hm0 & Hm1 & Hn0 & Hn1).
  destruct (utilization_range u) as [Hu0 Hu1].
  destruct (credit_age_range y) as [Hy0 Hy1].
  exists cm, nc.
  pose proof (ltb_leb _ _ (ltb_trans 0 100 p eq_refl Hp)) as Hp0.
  assert (Hpf : (p <? infinity)%float = true)
    by exact (leb_ltb_trans _ 1e307 infinity Hmax eq_refl).
  destruct (div_le_self p 100 Hp0 Hpf eq_refl eq_refl) as [Hph0 Hphp].
  pose proof (above_hundred p Hp) as Hnext.
  pose proof (div_mono p 100 1e307 100 Hp0 Hmax eq_refl eq_refl eq_refl eq_refl) as Hphmax.
  pose proof (div_mono (next_up 100) 100 p 100 eq_refl Hnext Hpf eq_refl eq_refl eq_refl)
    as Hphlow.
  destruct (contribution_mono_any (p / 100) (1e307 / 100) Hph0 Hphmax eq_refl)
    as [A0 Amax].
  destruct (contribution_mono_any (next_up 100 / 100) (p / 100) eq_refl Hphlow
              (leb_ltb_trans _ _ _ Hphp Hpf)) as [_ Alow].
  destruct (contribution_between 0.30 _ 0.30 eq_refl Hu0 Hu1 (conj eq_refl eq_refl))
    as [B0 B1].
  destruct (contribution_between 0.40 _ 0.15 eq_refl Hy0 Hy1 (conj eq_refl eq_refl))
    as [C0 C1].
  destruct (contribution_between 0.20 _ 0.10 eq_refl Hm0 Hm1 (conj eq_refl eq_refl))
    as [D0 D1].
  destruct (contribution_between 0.40 _ 0.10 eq_refl Hn0 Hn1 (conj eq_refl eq_refl))
    as [E0 E1].
  assert (Af : (p / 100 * 0.35 * 600 <? infinity)%float = true)
    by exact (leb_ltb_trans _ (1e307 / 100 * 0.35 * 600) infinity Amax eq_refl).
  assert (Bf : (calculate_credit_utilization_score u * 0.30 * 600 <? infinity)%float = true)
    by exact (leb_ltb_trans _ (1 * 0.30 * 600) infinity B1 eq_refl).
  assert (Cf : (calculate_credit_age_score y * 0.15 * 600 <? infinity)%float = true)
    by exact (leb_ltb_trans _ (1 * 0.15 * 600) infinity C1 eq_refl).
  assert (Df : (cm * 0.10 * 600 <? infinity)%float = true)
    by exact (leb_ltb_trans _ (1 * 0.10 * 600) infinity D1 eq_refl).
  assert (Ef : (nc * 0.10 * 600 <? infinity)%float = true)
    by exact (leb_ltb_trans _ (1 * 0.10 * 600) infinity E1 eq_refl).
  pose proof (leb_trans 0 (0.30 * 0.30 * 600) _ eq_refl B0) as B00.
  pose proof (leb_trans 0 (0.40 * 0.15 * 600) _ eq_refl C0) as C00.
  pose proof (leb_trans 0 (0.20 * 0.10 * 600) _ eq_refl D0) as D00.
  pose proof (leb_trans 0 (0.40 * 0.10 * 600) _ eq_refl E0) as E00.
  (* above: the total of the largest contributions is finite *)
  destruct (sum5_mono (p / 100 * 0.35 * 600)
              (calculate_credit_utilization_score u * 0.30 * 600)
              (calculate_credit_age_score y * 0.15 * 600)
              (cm * 0.10 * 600) (nc * 0.10 * 600)
              (1e307 / 100 * 0.35 * 600) (1 * 0.30 * 600) (1 * 0.15 * 600)
              (1 * 0.10 * 600) (1 * 0.10 * 600)) as [T0 Tmax];
    try (apply and3; first [assumption | reflexivity]).
  (* below: the total of the least contributions *)
  destruct (sum5_mono (next_up 100 / 100 * 0.35 * 600) (0.30 * 0.30 * 600)
              (0.40 * 0.15 * 600) (0.20 * 0.10 * 600) (0.40 * 0.10 * 600)
              (p / 100 * 0.35 * 600)
              (calculate_credit_utilization_score u * 0.30 * 600)
              (calculate_credit_age_score y * 0.15 * 600)
              (cm * 0.10 * 600) (nc * 0.10 * 600)) as [L0 Tlow];
    try (apply and3; first [assumption | reflexivity]).
  assert (Tf : (total_score (p / 100) (calculate_credit_utilization_score u)
                            (calculate_credit_age_score y) cm nc + MIN_SCORE_f
                <? infinity)%float = true).
  { unfold total_score.
    match type of Tmax with
    | (?a <=? ?b)%float = true => exact (leb_ltb_trans a b infinity Tmax eq_refl)
    end. }
  unfold total_score in Tf.
  match type of Tlow with
  | (?a <=? ?b)%float = true =>
      destruct (round_float_mono a b L0 Tlow Tf) as (z1 & z & Hz1 & Hz & Hle)
  end.
  assert (Hlow : z1 = 636).
  { assert (Hc : Py.round (0 + next_up 100 / 100 * 0.35 * 600 + 0.30 * 0.30 * 600
                           + 0.40 * 0.15 * 600 + 0.20 * 0.10 * 600
                           + 0.40 * 0.10 * 600 + MIN_SCORE_f) = Ok 636)
      by (vm_compute; reflexivity).
    rewrite Hc in Hz1. now injection Hz1. }
  exists z. split; [exact Hcm|]. split; [exact Hnc|]. split; [exact Hz|].
  split; [lia|]. split.
  - exact (ltb_leb_trans 210 (next_up 100 / 100 * 0.35 * 600) _ eq_refl Alow).
  - intros H250.
    pose proof (div_mono 250 100 p 100 eq_refl H250 Hpf eq_refl eq_refl eq_refl) as Hph250.
    destruct (contribution_mono_any (250 / 100) (p / 100) eq_refl Hph250
                (leb_ltb_trans _ _ _ Hphp Hpf)) as [_ A250].
    destruct (sum5_mono (250 / 100 * 0.35 * 600) (0.30 * 0.30 * 600)
                (0.40 * 0.15 * 600) (0.20 * 0.10 * 600) (0.40 * 0.10 * 600)
                (p / 100 * 0.35 * 600)
                (calculate_credit_utilization_score u * 0.30 * 600)
                (calculate_credit_age_score y * 0.15 * 600)
                (cm * 0.10 * 600) (nc * 0.10 * 600)) as [M0 Tmid];
      try (apply and3; first [assumption | reflexivity]).
    match type of Tmid with
    | (?a <=? ?b)%float = true =>
        destruct (round_float_mono a b M0 Tmid Tf) as (z2 & z' & Hz2 & Hz' & Hle')
    end.
    rewrite Hz in Hz'. injection Hz' as <-.
    assert (Hc : Py.round (0 + 250 / 100 * 0.35 * 600 + 0.30 * 0.30 * 600
                           + 0.40 * 0.15 * 600 + 0.20 * 0.10 * 600
                           + 0.40 * 0.10 * 600 + MIN_SCORE_f) = Ok 951)
      by (vm_compute; reflexivity).
    rewrite Hc in Hz2. injection Hz2 as <-. lia.
Qed.

(** C8, as amended: for every onTimePaymentsPercent above 100 with
    daysLateAvg = 0 the payment-history sub-score is p / 100 and exceeds
    1.0, that path having no upper clamp; the entry point then returns a
    final score within [300, 900] or raises; with p up to 1e307 and the
    other inputs within the contract it returns, the payment-history
    contribution exceeds its share of 210 points and the rounded total is at
    least 636; from p = 250 on the rounded total is at least 951 and the
    clamp makes the final score 900; with p = 200 and the other inputs at
    their defaults the rounded total is 1005 and the final score 900. *)
Theorem payment_history_unclamped
    (p u y : float) (ns nu : Z) (c : bool) (ni nn : Z) :
  (100 <? p)%float = true ->
  0 <= ns -> 0 <= nu ->
  0 <= ni <= max_float_int -> 0 <= nn <= max_float_int ->
  calculate_payment_history_score p 0 = (p / 100)%float /\
  (1.0 <? calculate_payment_history_score p 0)%float = true /\
  match calculate_score p 0 u y ns nu c ni nn with
  | Ok (final_score, _) => 300 <= final_score <= 900
  | Raise e => e = OverflowError \/ e = ValueError
  end /\
  ((p <=? 1e307)%float = true ->
   exists (z : Z) (weighted_scores : Py.dict) (v : float),
     calculate_score p 0 u y ns nu c ni nn = Ok (clamp z, weighted_scores) /\
     Py.round (Py.sum (Py.values weighted_scores) + MIN_SCORE_f) = Ok z /\
     636 <= z /\ 300 <= clamp z <= 900 /\
     Py.get weighted_scores "payment_history" = Some v /\
     (210 <? v)%float = true /\
     ((250 <=? p)%float = true -> 951 <= z /\ clamp z = 900)) /\
  exists weighted_scores : Py.dict,
    calculate_score 200 0 0 0 0 0 false 0 0 = Ok (900, weighted_scores) /\
    Py.round (Py.sum (Py.values weighted_scores) + MIN_SCORE_f) = Ok 1005.
Proof.
  intros Hp Hs Hu Hi Hn.
  destruct (payment_history_above_one p Hp) as [Heq Hgt].
  split; [exact Heq|]. split; [rewrite Heq; exact Hgt|].
  split; [apply calculate_score_outcome|].
  split; [|eexists; split; vm_compute; reflexivity].
  intros Hmax.
  destruct (unclamped_round p u y ns nu c ni nn Hp Hmax Hs Hu Hi Hn)
    as (cm & nc & z & Hcm & Hnc & Hz & Hlow & Hshare & H250).
  exists z. eexists. exists (p / 100 * 0.35 * 600)%float.
  rewrite calculate_score_unfold, Hcm, Hnc. cbn [bind].
  change (calculate_payment_history_score p 0) with (p / 100)%float.
  rewrite Hz. cbn [bind].
  split; [reflexivity|]. split; [exact Hz|]. split; [exact Hlow|].
  split; [apply clamp_range|]. split; [reflexivity|]. split; [exact Hshare|].
  intros H. specialize (H250 H). split; [exact H250|].
  unfold clamp, MAX_SCORE, MIN_SCORE. lia.
Qed.

Lemma payment_history_unclamped_witness :
  calculate_payment_history_score 300 0 = (300 / 100)%float /\
  (1.0 <? calculate_payment_history_score 300 0)%float = true /\
  match calculate_score 300 0 25 3 1 1 true 1 0 with
  | Ok (final_score, _) => 300 <= final_score <= 900
  | Raise e => e = OverflowError \/ e = ValueError
  end /\
  ((300 <=? 1e307)%float = true ->
   exists (z : Z) (weighted_scores : Py.dict) (v : float),
     calculate_score 300 0 25 3 1 1 true 1 0 = Ok (clamp z, weighted_scores) /\
     Py.round (Py.sum (Py.values weighted_scores) + MIN_SCORE_f) = Ok z /\
     636 <= z /\ 300 <= clamp z <= 900 /\
     Py.get weighted_scores "payment_history" = Some v /\
     (210 <? v)%float = true /\
     ((250 <=? 300)%float = true -> 951 <= z /\ clamp z = 900)) /\
  exists weighted_scores : Py.dict,
    calculate_score 200 0 0 0 0 0 false 0 0 = Ok (900, weighted_scores) /\
    Py.round (Py.sum (Py.values weighted_scores) + MIN_SCORE_f) = Ok 1005.
Proof.
  apply (payment_history_unclamped 300 25 3 1 1 true 1 0);
    try reflexivity; unfold max_float_int; lia.
Defined.

(** Not every onTimePaymentsPercent above 100 with daysLateAvg = 0 has a
    final score: at 1e308 the sub-score exceeds 1.0, the weighted
    contribution is infinite and the entry point raises; so it does at
    8.6e307. *)
Lemma payment_history_unclamped_raises :
  (100 <? 1e308)%float = true /\
  (1.0 <? calculate_payment_history_score 1e308 0)%float = true /\
  calculate_score 1e308 0 0 0 0 0 false 0 0 = Raise OverflowError /\
  calculate_score 8.6e307 0 0 0 0 0 false 0 0 = Raise OverflowError.
Proof. repeat split; vm_compute; reflexivity. Qed.
